(** * The text-detection preprocessor of fastdeploy/vision/ocr/ppocr

    A shallow embedding of [det_preprocessor.cc]: the target-size
    computations ([cal_dst_size], the two [OcrDetectorGetInfo] overloads)
    and the batch pipeline ([ResizeImage], [Apply]).

    C++ [int] is a 32-bit two's-complement integer, kept in [Z] with the
    wrap-around written out; C++ [float] is IEEE-754 binary32, kept as the
    Standard Library's [spec_float] at precision 24 and maximal exponent
    128, so every definition below evaluates.  Signed overflow and the
    conversion to [int] of a float that is not an [int] are undefined in
    C++: the functions below are total and return there what a two's
    complement x86-64 target returns, and each sizing function has a
    [_checked] twin that returns [None] there instead, so that a result
    [Some r] of the twin is a result of the C++ program.

    The preprocessor object, the batch and the calls of the external
    operators are threaded through a state monad; the operators that are
    not part of this file ([Resize], [Pad], [NormalizeAndPermute] on
    images) are parameters or modelled from the specification.

    From [utils.cc] the file embeds [GetStride] on 64-bit integers, the
    logger with its output as explicit state, and [ReadBinaryFromFile] over
    a model of the input stream it reads. *)

From Stdlib Require Import ZArith List Bool Lia.
From Stdlib Require Import Floats.SpecFloat.
From stdpp Require Import base list.
Import ListNotations.

Local Open Scope Z_scope.

(** ** Machine integers *)

Module Int32.

Definition min_int : Z := -2147483648.
Definition max_int : Z := 2147483647.

Definition in_range (z : Z) : Prop := min_int <= z <= max_int.
Definition in_rangeb (z : Z) : bool := (min_int <=? z) && (z <=? max_int).

(** Two's-complement wrap-around to 32 bits. *)
Definition wrap (z : Z) : Z := (z + 2147483648) mod 4294967296 - 2147483648.

Definition add (a b : Z) : Z := wrap (a + b).
Definition sub (a b : Z) : Z := wrap (a - b).
Definition mul (a b : Z) : Z := wrap (a * b).
(** C++ [/] on [int] truncates towards zero. *)
Definition div (a b : Z) : Z := wrap (Z.quot a b).

(** The same operations where C++ defines them: signed overflow and
    division by zero are undefined, [None]. *)
Definition checked (z : Z) : option Z := if in_rangeb z then Some z else None.
Definition add_checked (a b : Z) : option Z := checked (a + b).
Definition sub_checked (a b : Z) : option Z := checked (a - b).
Definition mul_checked (a b : Z) : option Z := checked (a * b).
Definition div_checked (a b : Z) : option Z :=
  if b =? 0 then None else checked (Z.quot a b).

End Int32.

(** ** binary32 arithmetic *)

Module F32.

Definition prec : Z := 24.
Definition emax : Z := 128.

Definition float := spec_float.

Definition mul : float -> float -> float := SFmul prec emax.
Definition div : float -> float -> float := SFdiv prec emax.
Definition ltb : float -> float -> bool := SFltb.

(** [(float)n] for an [int] n: round to nearest, ties to even. *)
Definition of_int (n : Z) : float := binary_normalize prec emax n 0 false.

(** The integer part of a finite float, rounded towards zero, and
    whether the float was an integer already. *)
Definition trunc_pos (m : positive) (e : Z) : Z * bool :=
  match e with
  | Z0 => (Zpos m, true)
  | Zpos p => (Zpos m * 2 ^ Zpos p, true)
  | Zneg p => (Zpos m / 2 ^ Zpos p, Zpos m mod 2 ^ Zpos p =? 0)
  end.

(** The value of [std::ceil], [std::round] (ties away from zero) and of
    the truncation of a float, as integers; [None] on NaN and the
    infinities. *)
Definition ceilZ (x : float) : option Z :=
  match x with
  | S754_zero _ => Some 0
  | S754_finite s m e =>
      let '(q, exact) := trunc_pos m e in
      Some (if s then - q else if exact then q else q + 1)
  | _ => None
  end.

Definition roundZ (x : float) : option Z :=
  match x with
  | S754_zero _ => Some 0
  | S754_finite s m e =>
      let q := match e with
               | Zneg p => (Zpos m + 2 ^ (Zpos p - 1)) / 2 ^ Zpos p
               | _ => fst (trunc_pos m e)
               end in
      Some (if s then - q else q)
  | _ => None
  end.

Definition truncZ (x : float) : option Z :=
  match x with
  | S754_zero _ => Some 0
  | S754_finite s m e =>
      let q := fst (trunc_pos m e) in Some (if s then - q else q)
  | _ => None
  end.

(** [std::ceil] and [std::round] as float-to-float functions: an integer
    of magnitude below 2^24 is a float, a float of magnitude 2^24 or more
    is an integer already, and the sign of a zero result is the sign of
    the argument. *)
Definition of_integral (x : float) (z : option Z) : float :=
  match x, z with
  | S754_finite s _ _, Some 0 => S754_zero s
  | S754_finite _ _ _, Some q => of_int q
  | _, _ => x
  end.

Definition ceil (x : float) : float := of_integral x (ceilZ x).
Definition round (x : float) : float := of_integral x (roundZ x).

(** [(int)x]: truncation towards zero.  The C++ conversion is undefined
    when the truncated value is not an [int] (and on NaN and the
    infinities); the model then returns what the x86-64 conversion
    instruction returns, the most negative [int]. *)
Definition to_int (x : float) : Z :=
  match truncZ x with
  | Some q => if Int32.in_rangeb q then q else Int32.min_int
  | None => Int32.min_int
  end.

(** The conversion where C++ defines it. *)
Definition to_int_checked (x : float) : option Z :=
  match truncZ x with
  | Some q => Int32.checked q
  | None => None
  end.

End F32.

(** ** [cal_dst_size] *)

(** [(x + base - 1) / base * base] followed by [std::max(x, base)]. *)
Definition align_up (x base : Z) : Z :=
  Z.max (Int32.mul (Int32.div (Int32.sub (Int32.add x base) 1) base) base) base.

(** The orientation test of [cal_dst_size]: the long edge, the short edge
    and [swap]. *)
Definition orient (src_height src_width : Z) : Z * Z * bool :=
  if src_height >? src_width
  then (src_height, src_width, false)
  else (src_width, src_height, true).

Definition cal_dst_size (src_height src_width long_min short_min base : Z)
  : Z * Z :=
  let base_ratio := F32.div (F32.of_int long_min) (F32.of_int short_min) in
  let '(cur_long, cur_short, swap) := orient src_height src_width in
  let cur_ratio := F32.div (F32.of_int cur_long) (F32.of_int cur_short) in
  if (cur_long >? long_min) && (cur_short >? short_min) then
    let dst_height := if swap then cur_short else cur_long in
    let dst_width := if swap then cur_long else cur_short in
    (align_up dst_height base, align_up dst_width base)
  else
    let '(dst_height, dst_width) :=
      if F32.ltb base_ratio cur_ratio then
        let ratio := F32.div (F32.of_int short_min) (F32.of_int cur_short) in
        let new_long := F32.to_int (F32.ceil (F32.mul ratio (F32.of_int cur_long))) in
        (if swap then short_min else new_long,
         if swap then new_long else short_min)
      else
        let ratio := F32.div (F32.of_int long_min) (F32.of_int cur_long) in
        let new_short := F32.to_int (F32.ceil (F32.mul ratio (F32.of_int cur_short))) in
        (if swap then new_short else long_min,
         if swap then long_min else new_short)
    in
    (align_up dst_height base, align_up dst_width base).

(** [cal_dst_size] with the undefined steps made visible: [None] as soon as
    an [int] operation overflows or a float that is not an [int] is
    converted. *)
Definition align_up_checked (x base : Z) : option Z :=
  s ← Int32.add_checked x base;
  t ← Int32.sub_checked s 1;
  q ← Int32.div_checked t base;
  p ← Int32.mul_checked q base;
  Some (Z.max p base).

Definition cal_dst_size_checked (src_height src_width long_min short_min base : Z)
  : option (Z * Z) :=
  let base_ratio := F32.div (F32.of_int long_min) (F32.of_int short_min) in
  let '(cur_long, cur_short, swap) := orient src_height src_width in
  let cur_ratio := F32.div (F32.of_int cur_long) (F32.of_int cur_short) in
  if (cur_long >? long_min) && (cur_short >? short_min) then
    let dst_height := if swap then cur_short else cur_long in
    let dst_width := if swap then cur_long else cur_short in
    dh ← align_up_checked dst_height base;
    dw ← align_up_checked dst_width base;
    Some (dh, dw)
  else
    dst ←
      (if F32.ltb base_ratio cur_ratio then
         let ratio := F32.div (F32.of_int short_min) (F32.of_int cur_short) in
         new_long ← F32.to_int_checked (F32.ceil (F32.mul ratio (F32.of_int cur_long)));
         Some (if swap then short_min else new_long,
               if swap then new_long else short_min)
       else
         let ratio := F32.div (F32.of_int long_min) (F32.of_int cur_long) in
         new_short ← F32.to_int_checked (F32.ceil (F32.mul ratio (F32.of_int cur_short)));
         Some (if swap then new_short else long_min,
               if swap then long_min else new_short));
    dh ← align_up_checked (fst dst) base;
    dw ← align_up_checked (snd dst) base;
    Some (dh, dw).

(** ** Images, operators and the preprocessor object *)

(** A pixel is its channel values; an image is its size and its pixels,
    addressed by row and column from the top-left corner. *)
Definition pixel : Type := list F32.float.

Record FDMat : Type := {
  Width : Z;
  Height : Z;
  pixel_at : Z -> Z -> pixel
}.

(** [std::array<int, 4>]. *)
Abbreviation int4 := (Z * Z * Z * Z)%type (only parsing).
Definition at2 (a : int4) : Z := let '(_, _, x, _) := a in x.
Definition at3 (a : int4) : Z := let '(_, _, _, x) := a in x.

(** The parameters the operators hold between calls. *)
Record Resize : Type := { width_ : Z; height_ : Z }.

Record Pad : Type := {
  top_ : Z; bottom_ : Z; left_ : Z; right_ : Z;
  value_ : list F32.float
}.

Record NormalizeAndPermute : Type := {
  mean_ : list F32.float;
  std_ : list F32.float;
  is_scale_ : bool
}.

Definition SetWidthAndHeight (_ : Resize) (width height : Z) : Resize :=
  {| width_ := width; height_ := height |}.

Definition SetPaddingSize (op : Pad) (top bottom left right : Z) : Pad :=
  {| top_ := top; bottom_ := bottom; left_ := left; right_ := right;
     value_ := value_ op |}.

(** The members of [DBDetectorPreprocessor] that the header initialises. *)
Record Config : Type := {
  static_shape_infer_ : bool;
  det_image_shape_ : list Z;
  longside_size_ : Z;
  shortside_size_ : Z;
  max_side_len_ : Z;
  disable_normalize_ : bool;
  disable_permute_ : bool
}.

Record DBDetectorPreprocessor : Type := {
  config : Config;
  resize_op_ : Resize;
  pad_op_ : Pad;
  normalize_permute_op_ : NormalizeAndPermute;
  batch_det_img_info_ : list int4
}.

(** A decimal literal with three digits after the point, as a float. *)
Definition milli (n : Z) : F32.float := F32.div (F32.of_int n) (F32.of_int 1000).

(** The constructor. *)
Definition DBDetectorPreprocessor_new (c : Config) : DBDetectorPreprocessor :=
  {| config := c;
     resize_op_ := {| width_ := -1; height_ := -1 |};
     pad_op_ := {| top_ := 0; bottom_ := 0; left_ := 0; right_ := 0;
                   value_ := [F32.of_int 0; F32.of_int 0; F32.of_int 0] |};
     normalize_permute_op_ :=
       {| mean_ := [milli 485; milli 456; milli 406];
          std_ := [milli 229; milli 224; milli 225];
          is_scale_ := true |};
     batch_det_img_info_ := [] |}.

(** [det_image_shape_[i]]; reading past the end of the vector is undefined
    in C++ and reads 0 here. *)
Definition shape_at (c : Config) (i : nat) : Z := default 0 (det_image_shape_ c !! i).

(** ** [OcrDetectorGetInfo] *)

(** [std::max(int(std::round(float(x) / 32) * 32), 32)]. *)
Definition round_to_32 (x : Z) : Z :=
  Z.max (F32.to_int (F32.mul (F32.round (F32.div (F32.of_int x) (F32.of_int 32)))
                       (F32.of_int 32)))
        32.

Definition round_to_32_checked (x : Z) : option Z :=
  r ← F32.to_int_checked
        (F32.mul (F32.round (F32.div (F32.of_int x) (F32.of_int 32))) (F32.of_int 32));
  Some (Z.max r 32).

(** The overload with [max_size_len]. *)
Definition OcrDetectorGetInfo_len (c : Config) (img : FDMat) (max_size_len : Z) : int4 :=
  let w := Width img in
  let h := Height img in
  if static_shape_infer_ c then (w, h, shape_at c 2, shape_at c 1)
  else
    let max_wh := if w >=? h then w else h in
    let ratio :=
      if max_wh >? max_size_len then
        if h >? w then F32.div (F32.of_int max_size_len) (F32.of_int h)
        else F32.div (F32.of_int max_size_len) (F32.of_int w)
      else F32.of_int 1 in
    let resize_h := F32.to_int (F32.mul (F32.of_int h) ratio) in
    let resize_w := F32.to_int (F32.mul (F32.of_int w) ratio) in
    (w, h, round_to_32 resize_w, round_to_32 resize_h).

Definition OcrDetectorGetInfo_len_checked (c : Config) (img : FDMat) (max_size_len : Z)
  : option int4 :=
  let w := Width img in
  let h := Height img in
  if static_shape_infer_ c then Some (w, h, shape_at c 2, shape_at c 1)
  else
    let max_wh := if w >=? h then w else h in
    let ratio :=
      if max_wh >? max_size_len then
        if h >? w then F32.div (F32.of_int max_size_len) (F32.of_int h)
        else F32.div (F32.of_int max_size_len) (F32.of_int w)
      else F32.of_int 1 in
    resize_h ← F32.to_int_checked (F32.mul (F32.of_int h) ratio);
    resize_w ← F32.to_int_checked (F32.mul (F32.of_int w) ratio);
    resize_h ← round_to_32_checked resize_h;
    resize_w ← round_to_32_checked resize_w;
    Some (w, h, resize_w, resize_h).

(** The overload that [Apply] calls; [cal_dst_size] takes its default
    [base = 32]. *)
Definition OcrDetectorGetInfo (c : Config) (img : FDMat) : int4 :=
  let w := Width img in
  let h := Height img in
  if static_shape_infer_ c then (w, h, shape_at c 2, shape_at c 1)
  else
    let dst_size := cal_dst_size h w (longside_size_ c) (shortside_size_ c) 32 in
    (w, h, snd dst_size, fst dst_size).

(** ** The operators on images *)

(** Modelled from the spec: the image collaborator's in-place
    [pad(top, bottom, left, right, fill_value)], which the spec describes as
    adding fill pixels around the image; the pixel that was at row [r],
    column [c] is afterwards at row [top + r], column [left + c]. *)
Definition Pad_run (op : Pad) (mat : FDMat) : FDMat :=
  {| Width := Width mat + left_ op + right_ op;
     Height := Height mat + top_ op + bottom_ op;
     pixel_at := fun r c =>
       if (top_ op <=? r) && (r <? top_ op + Height mat)
          && (left_ op <=? c) && (c <? left_ op + Width mat)
       then pixel_at mat (r - top_ op) (c - left_ op)
       else value_ op |}.

(** What [Apply] does to the outside: the operator calls, in order. *)
Inductive Call : Type :=
| CallResize (img : nat) (width height : Z)
| CallPad (img : nat) (top bottom left right : Z) (value : list F32.float)
| CallNormalizeAndPermute (op : NormalizeAndPermute).

(** The preprocessor, the images of the batch, and the calls made so far. *)
Record World : Type := {
  self : DBDetectorPreprocessor;
  mats : list FDMat;
  calls : list Call
}.

Definition M (A : Type) : Type := World -> A * World.

#[export] Instance M_ret : MRet M := fun A a w => (a, w).
#[export] Instance M_bind : MBind M :=
  fun A B k m w => let '(a, w') := m w in k a w'.

Definition with_resize_op (w : World) (op : Resize) : World :=
  {| self := {| config := config (self w); resize_op_ := op;
                pad_op_ := pad_op_ (self w);
                normalize_permute_op_ := normalize_permute_op_ (self w);
                batch_det_img_info_ := batch_det_img_info_ (self w) |};
     mats := mats w; calls := calls w |}.
Definition with_pad_op (w : World) (op : Pad) : World :=
  {| self := {| config := config (self w); resize_op_ := resize_op_ (self w);
                pad_op_ := op;
                normalize_permute_op_ := normalize_permute_op_ (self w);
                batch_det_img_info_ := batch_det_img_info_ (self w) |};
     mats := mats w; calls := calls w |}.
Definition with_info (w : World) (info : list int4) : World :=
  {| self := {| config := config (self w); resize_op_ := resize_op_ (self w);
                pad_op_ := pad_op_ (self w);
                normalize_permute_op_ := normalize_permute_op_ (self w);
                batch_det_img_info_ := info |};
     mats := mats w; calls := calls w |}.
Definition with_mats (w : World) (l : list FDMat) : World :=
  {| self := self w; mats := l; calls := calls w |}.
Definition with_call (w : World) (c : Call) : World :=
  {| self := self w; mats := mats w; calls := calls w ++ [c] |}.

Definition get_world : M World := fun w => (w, w).
Definition set_resize_op (op : Resize) : M unit := fun w => (tt, with_resize_op w op).
Definition set_pad_op (op : Pad) : M unit := fun w => (tt, with_pad_op w op).
Definition set_info (info : list int4) : M unit := fun w => (tt, with_info w info).
Definition set_mats (l : list FDMat) : M unit := fun w => (tt, with_mats w l).
Definition log (c : Call) : M unit := fun w => (tt, with_call w c).

(** [for (size_t i = 0; i < n; ++i)] with the loop's local variables in
    [acc]. *)
Fixpoint for_each {S : Type} (l : list nat) (acc : S) (body : nat -> S -> M S) : M S :=
  match l with
  | [] => mret acc
  | i :: l' => acc' ← body i acc; for_each l' acc' body
  end.

Section Pipeline.

(** The pixels [Resize] computes, the batched normalisation and the tensor
    view are outside this file: parameters. *)
Context {FDTensor : Type}.
Variable resample : FDMat -> Z -> Z -> Z -> Z -> pixel.
Variable normalize_and_permute : NormalizeAndPermute -> list FDMat -> list FDMat.
Variable Tensor : list FDMat -> FDTensor.

(** Modelled from the spec: the image collaborator's in-place
    [resize(target_w, target_h)], a pure scale to the given size. *)
Definition Resize_run (op : Resize) (mat : FDMat) : FDMat :=
  {| Width := width_ op; Height := height_ op;
     pixel_at := resample mat (width_ op) (height_ op) |}.

(** Running [resize_op_] and [pad_op_] on the image at index [img] of the
    batch. *)
Definition call_resize (img : nat) : M unit :=
  w ← get_world;
  match mats w !! img with
  | Some mat =>
      let op := resize_op_ (self w) in
      _ ← set_mats (<[img := Resize_run op mat]> (mats w));
      log (CallResize img (width_ op) (height_ op))
  | None => mret tt
  end.

Definition call_pad (img : nat) : M unit :=
  w ← get_world;
  match mats w !! img with
  | Some mat =>
      let op := pad_op_ (self w) in
      _ ← set_mats (<[img := Pad_run op mat]> (mats w));
      log (CallPad img (top_ op) (bottom_ op) (left_ op) (right_ op) (value_ op))
  | None => mret tt
  end.

Definition ResizeImage (img : nat) (resize_w resize_h max_resize_w max_resize_h : Z)
  : M bool :=
  w ← get_world;
  _ ← set_resize_op (SetWidthAndHeight (resize_op_ (self w)) resize_w resize_h);
  _ ← call_resize img;
  w ← get_world;
  _ ← set_pad_op (SetPaddingSize (pad_op_ (self w)) 0 (Int32.sub max_resize_h resize_h)
                    0 (Int32.sub max_resize_w resize_w));
  _ ← call_pad img;
  mret true.

(** The body of the first loop of [Apply]; the accumulator holds
    [max_resize_w] and [max_resize_h]. *)
Definition info_step (i : nat) (acc : Z * Z) : M (Z * Z) :=
  w ← get_world;
  match mats w !! i with
  | Some mat =>
      let info := OcrDetectorGetInfo (config (self w)) mat in
      _ ← set_info (<[i := info]> (batch_det_img_info_ (self w)));
      mret (Z.max (fst acc) (at2 info), Z.max (snd acc) (at3 info))
  | None => mret acc
  end.

(** The body of the second loop of [Apply]. *)
Definition resize_step (max_resize_w max_resize_h : Z) (i : nat) (_ : unit) : M unit :=
  w ← get_world;
  let info := default (0, 0, 0, 0) (batch_det_img_info_ (self w) !! i) in
  _ ← ResizeImage i (at2 info) (at3 info) max_resize_w max_resize_h;
  mret tt.

Definition Apply : M (bool * list FDTensor) :=
  w ← get_world;
  let n := length (mats w) in
  _ ← set_info (replicate n (0, 0, 0, 0));
  maxes ← for_each (seq 0 n) (0, 0) info_step;
  _ ← for_each (seq 0 n) tt (resize_step (fst maxes) (snd maxes));
  w ← get_world;
  _ ← (if negb (disable_normalize_ (config (self w)))
          && negb (disable_permute_ (config (self w)))
       then
         _ ← set_mats (normalize_and_permute (normalize_permute_op_ (self w)) (mats w));
         log (CallNormalizeAndPermute (normalize_permute_op_ (self w)))
       else mret tt);
  w ← get_world;
  mret (true, [Tensor (mats w)]).

(** *** What [Apply] computes, as functions of the batch *)

(** The running maximum of the first loop. *)
Definition batch_max (proj : int4 -> Z) (infos : list int4) : Z :=
  foldl (fun a info => Z.max a (proj info)) 0 infos.

(** The padding [ResizeImage] sets for an image of the given [info]. *)
Definition pad_for (value : list F32.float) (max_w max_h : Z) (info : int4) : Pad :=
  {| top_ := 0; bottom_ := Int32.sub max_h (at3 info);
     left_ := 0; right_ := Int32.sub max_w (at2 info); value_ := value |}.

(** One image resized to its own target and padded to the batch maximum. *)
Definition resize_pad (value : list F32.float) (max_w max_h : Z)
  (mat : FDMat) (info : int4) : FDMat :=
  Pad_run (pad_for value max_w max_h info)
    (Resize_run {| width_ := at2 info; height_ := at3 info |} mat).

(** The two operator calls [ResizeImage] makes for image [i]. *)
Definition calls_for (value : list F32.float) (max_w max_h : Z) (i : nat) (info : int4)
  : list Call :=
  [CallResize i (at2 info) (at3 info);
   CallPad i 0 (Int32.sub max_h (at3 info)) 0 (Int32.sub max_w (at2 info)) value].

End Pipeline.

(** ** The properties, in the words of the specification *)

(** [y] is [x] rounded up to a multiple of [base]. *)
Definition rounded_up (base x y : Z) : Prop := (base | y) /\ x <= y < x + base.


(** A target edge is aligned: a multiple of 32 and at least 32. *)
Definition aligned32 (x : Z) : Prop := (32 | x) /\ 32 <= x.

(** In static mode the configured height and width are non-negative
    [int]s; nothing is asked of the dynamic mode. *)
Definition fixed_shape_ok (c : Config) : bool :=
  negb (static_shape_infer_ c)
  || ((0 <=? shape_at c 1) && (shape_at c 1 <=? Int32.max_int)
      && (0 <=? shape_at c 2) && (shape_at c 2 <=? Int32.max_int)).

(** The two ratios that [cal_dst_size] compares, and an edge scaled by the
    ratio [num / den] and rounded up to an integer, all in binary32. *)
Definition base_ratio (long_min short_min : Z) : F32.float :=
  F32.div (F32.of_int long_min) (F32.of_int short_min).
Definition cur_ratio (cur_long cur_short : Z) : F32.float :=
  F32.div (F32.of_int cur_long) (F32.of_int cur_short).
Definition scale_ceil (num den edge : Z) : Z :=
  F32.to_int (F32.ceil (F32.mul (F32.div (F32.of_int num) (F32.of_int den))
                          (F32.of_int edge))).

(** The same edge scaled in exact arithmetic: the ceiling of
    [edge * num / den]. *)
Definition scale_ceil_exact (num den edge : Z) : Z := (edge * num + den - 1) / den.

(** The targets of the long and of the short edge before alignment, by the
    three cases of the dual-threshold policy. *)
Definition edge_targets (cur_long cur_short long_min short_min : Z) : Z * Z :=
  if (cur_long >? long_min) && (cur_short >? short_min) then (cur_long, cur_short)
  else if F32.ltb (base_ratio long_min short_min) (cur_ratio cur_long cur_short)
  then (scale_ceil short_min cur_short cur_long, short_min)
  else (long_min, scale_ceil long_min cur_long cur_short).

(** The dual-threshold policy in exact arithmetic, as the specification
    words it: ratios compared as fractions, scaled edges rounded up
    exactly, every edge rounded up to a multiple of [base] and floored at
    [base], with no bound on the integers. *)
Definition round_up_floor (base x : Z) : Z := Z.max (base * ((x + base - 1) / base)) base.

Definition edge_targets_exact (cur_long cur_short long_min short_min : Z) : Z * Z :=
  if (cur_long >? long_min) && (cur_short >? short_min) then (cur_long, cur_short)
  else if cur_long * short_min >? long_min * cur_short
  then (scale_ceil_exact short_min cur_short cur_long, short_min)
  else (long_min, scale_ceil_exact long_min cur_long cur_short).

Definition dual_threshold_exact (h w long_min short_min base : Z) : Z * Z :=
  let t := edge_targets_exact (Z.max h w) (Z.min h w) long_min short_min in
  if h >? w then (round_up_floor base (fst t), round_up_floor base (snd t))
  else (round_up_floor base (snd t), round_up_floor base (fst t)).

(** An edge scaled by the single-threshold policy: kept below the
    threshold, multiplied by the binary32 ratio and truncated above it. *)
Definition scale_trunc (max_size_len max_wh edge : Z) : Z :=
  if max_wh >? max_size_len
  then F32.to_int (F32.mul (F32.of_int edge)
                     (F32.div (F32.of_int max_size_len) (F32.of_int max_wh)))
  else edge.

(** The fill value the constructor gives [pad_op_]. *)
Definition zero3 : list F32.float := [F32.of_int 0; F32.of_int 0; F32.of_int 0].

(** ** Concrete inputs for the examples *)

(** An image of the given size whose pixels have no channels. *)
Definition blank (w h : Z) : FDMat :=
  {| Width := w; Height := h; pixel_at := fun _ _ => [] |}.

(** Nearest-neighbour sampling, an instance of the resize primitive. *)
Definition nearest_resample (mat : FDMat) (w h r c : Z) : pixel :=
  pixel_at mat (r * Height mat / h) (c * Width mat / w).

(** An instance of the batched primitive that leaves the images alone. *)
Definition keep_batch (_ : NormalizeAndPermute) (l : list FDMat) : list FDMat := l.

Definition config_960_640 (static no_norm no_perm : bool) (short : Z) : Config :=
  {| static_shape_infer_ := static; det_image_shape_ := [3; 960; 960];
     longside_size_ := 960; shortside_size_ := short; max_side_len_ := 960;
     disable_normalize_ := no_norm; disable_permute_ := no_perm |}.

Definition world_of (c : Config) (batch : list FDMat) : World :=
  {| self := DBDetectorPreprocessor_new c; mats := batch; calls := [] |}.

(** ** [utils.cc] *)

(** *** 64-bit integers *)

Module Int64.

Definition min_int : Z := -9223372036854775808.
Definition max_int : Z := 9223372036854775807.

Definition in_rangeb (z : Z) : bool := (min_int <=? z) && (z <=? max_int).

(** Two's-complement wrap-around to 64 bits. *)
Definition wrap (z : Z) : Z :=
  (z + 9223372036854775808) mod 18446744073709551616 - 9223372036854775808.

Definition mul (a b : Z) : Z := wrap (a * b).

(** The product where C++ defines it. *)
Definition mul_checked (a b : Z) : option Z :=
  if in_rangeb (a * b) then Some (a * b) else None.

End Int64.

(** *** [GetStride] *)

(** [int i = dims_size - 2]: the difference is taken in [size_t] and then
    converted to [int], which keeps its low 32 bits. *)
Definition GetStride_first (dims_size : nat) : Z := Int32.wrap (Z.of_nat dims_size - 2).

(** The loop [for (...; i >= 0; --i) result[i] = result[i + 1] * dims[i + 1]]
    with [n] iterations left, that is, at the index [i = n - 1].  An index
    past the end is undefined in C++ and reads 0 here. *)
Fixpoint GetStride_loop (dims : list Z) (n : nat) (result : list Z) : list Z :=
  match n with
  | O => result
  | S i =>
      GetStride_loop dims i
        (<[i := Int64.mul (default 0 (result !! S i)) (default 0 (dims !! S i))]> result)
  end.

Definition GetStride (dims : list Z) : list Z :=
  let dims_size := length dims in
  let result := replicate dims_size 1 in
  GetStride_loop dims (Z.to_nat (GetStride_first dims_size + 1)) result.

(** The same with the undefined steps made visible: [None] on an index
    past the end and on a product that overflows. *)
Fixpoint GetStride_loop_checked (dims : list Z) (n : nat) (result : list Z)
  : option (list Z) :=
  match n with
  | O => Some result
  | S i =>
      r ← result !! S i;
      d ← dims !! S i;
      p ← Int64.mul_checked r d;
      GetStride_loop_checked dims i (<[i := p]> result)
  end.

Definition GetStride_checked (dims : list Z) : option (list Z) :=
  let dims_size := length dims in
  let result := replicate dims_size 1 in
  GetStride_loop_checked dims (Z.to_nat (GetStride_first dims_size + 1)) result.

(** *** The logger *)

(** [std::string]: a sequence of bytes. *)
Definition text : Type := list Byte.byte.

(** The static members [FDLogger::enable_info] and
    [FDLogger::enable_warning], and their initial values. *)
Record LoggerFlags : Type := { enable_info : bool; enable_warning : bool }.

Definition LoggerFlags_init : LoggerFlags :=
  {| enable_info := true; enable_warning := true |}.

Definition SetLogger (enable_info enable_warning : bool) (_ : LoggerFlags) : LoggerFlags :=
  {| enable_info := enable_info; enable_warning := enable_warning |}.

Record FDLogger : Type := { verbose_ : bool; line_ : text; prefix_ : text }.

(** The text ["[FastDeploy]"]. *)
Definition FastDeploy_tag : text :=
  [Byte.x5b; Byte.x46; Byte.x61; Byte.x73; Byte.x74; Byte.x44; Byte.x65; Byte.x70;
   Byte.x6c; Byte.x6f; Byte.x79; Byte.x5d].

(** The constructor; [android] says whether [__ANDROID__] is defined. *)
Definition FDLogger_new (android : bool) (verbose : bool) (prefix : text) : FDLogger :=
  {| verbose_ := verbose; line_ := [];
     prefix_ := if android then FastDeploy_tag ++ prefix else prefix |}.

(** What a logger writes to: [std::cout], and the Android log with its
    (tag, message) entries. *)
Record LogOutput : Type := { cout : text; android_log : list (text * text) }.

(** [operator<<] on a stream manipulator such as [std::endl]: the logger
    afterwards and what has been written. *)
Definition FDLogger_flush (android : bool) (l : FDLogger) (out : LogOutput)
  : FDLogger * LogOutput :=
  if negb (verbose_ l) then (l, out)
  else
    ({| verbose_ := verbose_ l; line_ := []; prefix_ := prefix_ l |},
     {| cout := cout out ++ prefix_ l ++ [Byte.x20] ++ line_ l ++ [Byte.x0a];
        android_log := if android then android_log out ++ [(prefix_ l, line_ l)]
                       else android_log out |}).

(** *** [ReadBinaryFromFile] *)

(** The part of [std::ifstream] that [ReadBinaryFromFile] uses, for an open
    file: the bytes of the file, the read position, whether [fail()] holds,
    and whether the position of the stream can be told and set (it cannot
    for a pipe, for instance). *)
Record IfStream : Type := {
  data : text;
  pos : nat;
  failbit : bool;
  seekable : bool
}.

(** [tellg()]: -1 when the stream has failed or cannot tell. *)
Definition tellg (file : IfStream) : Z :=
  if failbit file || negb (seekable file) then -1 else Z.of_nat (pos file).

(** [seekg(0, std::ios::beg)]: nothing on a failed stream, a failure on a
    stream that cannot seek. *)
Definition seekg_beg (file : IfStream) : IfStream :=
  if failbit file then file
  else if seekable file
  then {| data := data file; pos := 0; failbit := false; seekable := true |}
  else {| data := data file; pos := pos file; failbit := true; seekable := false |}.

(** [read(buffer, count)]: the bytes extracted (their number is [gcount()])
    and the stream afterwards.  Nothing is extracted from a failed stream;
    reaching the end of the file before [count] bytes sets the fail bit. *)
Definition read (file : IfStream) (count : nat) : text * IfStream :=
  if failbit file then ([], file)
  else
    let got := take count (drop (pos file) (data file)) in
    (got,
     {| data := data file; pos := (pos file + length got)%nat;
        failbit := (length got <? count)%nat; seekable := seekable file |}).

Definition chunksize : nat := 4096.

(** [while (!file.fail()) { file.read(chunk, chunksize); result.insert(end,
    chunk, chunk + gcount); }], for at most [fuel] iterations. *)
Fixpoint read_chunks (fuel : nat) (file : IfStream) (result : text) : text * IfStream :=
  match fuel with
  | O => (result, file)
  | S fuel' =>
      if failbit file then (result, file)
      else
        let '(got, file') := read file chunksize in
        read_chunks fuel' file' (result ++ got)
  end.

(** [to_osstring] where [_WIN32] is not defined: a copy of the string. *)
Definition to_osstring (utf8_str : text) : text := utf8_str.

Section ReadBinaryFromFile.

(** Opening [path] with [std::ios::binary | std::ios::ate]: [None] when
    [is_open()] is false afterwards, otherwise the stream as it is after
    the constructor. *)
Variable open_ate : text -> option IfStream.

(** [contents] is [None] for a null pointer; the result is the returned
    [bool] and the string [contents] points to afterwards.  The loop gets
    one iteration more than there are bytes in the file, which is enough
    for it to end by its own test. *)
Definition ReadBinaryFromFile (path : text) (contents : option text)
  : bool * option text :=
  match contents with
  | None => (false, None)
  | Some _ =>
      let result : text := [] in
      match open_ate (to_osstring path) with
      | None => (false, Some result)
      | Some file =>
          let fileSize := tellg file in
          if negb (fileSize =? -1) then
            let result := replicate (Z.to_nat fileSize) Byte.x00 in
            let file := seekg_beg file in
            let '(got, _) := read file (Z.to_nat fileSize) in
            (true, Some (got ++ drop (length got) result))
          else
            let '(result, _) := read_chunks (S (length (data file))) file result in
            (true, Some result)
      end
  end.

End ReadBinaryFromFile.

(** *** Properties of strides *)

(** The product of the entries of a list. *)
Definition product (l : list Z) : Z := foldr Z.mul 1 l.

(** Row-major strides in unbounded integers: each entry is the product of
    the dimensions after it. *)
Fixpoint suffix_products (dims : list Z) : list Z :=
  match dims with
  | [] => []
  | _ :: rest => product rest :: suffix_products rest
  end.

(** The position of the element with the given index, one entry per
    dimension, in a buffer laid out by [strides]. *)
Definition offset (strides index : list Z) : Z :=
  foldr Z.add 0 (zip_with Z.mul index strides).

(** Every entry of the index is within its dimension. *)
Definition in_bounds (dims index : list Z) : Prop :=
  Forall2 (fun i d => 0 <= i < d) index dims.

(** ** Auxiliary definitions for the facts on binary32 rounding *)

Module F32Aux.
Import F32.

Definition canon (m : positive) : Prop := Zpos (digits2_pos m) = 24.

(** The second half of [binary_round_aux]: renormalise the rounded
    mantissa. *)
Definition bra_tail (s : bool) (m2 e1 : Z) : float :=
  let '(mrs, e) := shr_fexp prec emax m2 e1 loc_Exact in
  match shr_m mrs with
  | Z0 => S754_zero s
  | Zpos m => if e <=? emax - prec then S754_finite s m e else S754_infinity s
  | Zneg _ => S754_nan
  end.

(** The mantissa of a small integer, shifted left to 24 digits. *)
Definition shl24 (p : positive) : positive :=
  fst (shl_align p 0 (Zpos (digits2_pos p) - 24)).

(** [std::round(x / 32) * 32], before the conversion to [int]. *)
Definition step32 (x : float) : float := mul (round (div x (of_int 32))) (of_int 32).

(** The magnitude of [std::round] on a finite float. *)
Definition round_mag (m : positive) (e : Z) : Z :=
  match e with
  | Z0 => Zpos m
  | Zpos p => Zpos m * 2 ^ Zpos p
  | Zneg p => (Zpos m + 2 ^ (Zpos p - 1)) / 2 ^ Zpos p
  end.

Definition clamp_int (v : Z) : Z := if Int32.in_rangeb v then v else Int32.min_int.

(** The positive float of mantissa [m] and exponent [e] is at most
    [2 ^ b]: its exponent puts it below, or it is a power of two that is
    at most [2 ^ b]. *)
Definition le_pow2 (m : positive) (e b : Z) : Prop :=
  e + 24 <= b \/ (e + 23 <= b /\ m = 8388608%positive).

End F32Aux.

(** ** Facts on binary32 rounding *)

Module F32Facts.
Import F32 F32Aux.

Lemma digits_bounds (p : positive) :
  2 ^ (Zpos (digits2_pos p) - 1) <= Zpos p < 2 ^ Zpos (digits2_pos p).
Proof.
  induction p as [p IH | p IH |]; cbn [digits2_pos].
  - rewrite Pos2Z.inj_succ, Z.pow_succ_r by lia.
    replace (Z.succ (Zpos (digits2_pos p)) - 1) with (Z.succ (Zpos (digits2_pos p) - 1)) by lia.
    rewrite Z.pow_succ_r by lia. lia.
  - rewrite Pos2Z.inj_succ, Z.pow_succ_r by lia.
    replace (Z.succ (Zpos (digits2_pos p)) - 1) with (Z.succ (Zpos (digits2_pos p) - 1)) by lia.
    rewrite Z.pow_succ_r by lia. lia.
  - cbn. lia.
Qed.

Lemma digits_unique (p : positive) (n : Z) :
  2 ^ (n - 1) <= Zpos p < 2 ^ n -> Zpos (digits2_pos p) = n.
Proof.
  intros H. pose proof (digits_bounds p) as B.
  destruct (Z.lt_trichotomy (Zpos (digits2_pos p)) n) as [L | [E | G]]; [exfalso | exact E | exfalso].
  - assert (2 ^ Zpos (digits2_pos p) <= 2 ^ (n - 1)) by (apply Z.pow_le_mono_r; lia). lia.
  - destruct (Z.le_gt_cases 0 n) as [N | N].
    + assert (2 ^ n <= 2 ^ (Zpos (digits2_pos p) - 1)) by (apply Z.pow_le_mono_r; lia). lia.
    + rewrite (Z.pow_neg_r 2 n) in H by lia. lia.
Qed.

Lemma digits_iter_xO (m k : positive) :
  Zpos (digits2_pos (Pos.iter xO m k)) = Zpos (digits2_pos m) + Zpos k.
Proof.
  induction k as [| k IH] using Pos.peano_ind.
  - cbn. lia.
  - rewrite Pos.iter_succ. cbn [digits2_pos]. lia.
Qed.

Lemma Zpos_iter_xO (m k : positive) :
  Zpos (Pos.iter xO m k) = Zpos m * 2 ^ Zpos k.
Proof.
  induction k as [| k IH] using Pos.peano_ind.
  - cbn. lia.
  - rewrite Pos.iter_succ, Pos2Z.inj_succ, Z.pow_succ_r by lia.
    rewrite Pos2Z.inj_xO, IH. ring.
Qed.

Lemma iter_pos_iter {A : Type} (f : A -> A) (p : positive) (x : A) :
  SpecFloat.iter_pos f p x = Pos.iter f x p.
Proof.
  revert x. induction p as [p IH | p IH |]; intros x; cbn.
  - rewrite !IH, !Pos.iter_swap. reflexivity.
  - rewrite !IH. reflexivity.
  - reflexivity.
Qed.

(** Shifting out the zero bits that [Pos.iter xO] added loses nothing. *)
Lemma shr_iter_xO (m k : positive) :
  SpecFloat.iter_pos shr_1 k (Build_shr_record (Zpos (Pos.iter xO m k)) false false)
  = Build_shr_record (Zpos m) false false.
Proof.
  rewrite iter_pos_iter.
  induction k as [| k IH] using Pos.peano_ind.
  - reflexivity.
  - rewrite !Pos.iter_succ, <- Pos.iter_swap. exact IH.
Qed.

Lemma shr_1_m (mrs : shr_record) :
  0 <= shr_m mrs -> shr_m (shr_1 mrs) = shr_m mrs / 2.
Proof.
  destruct mrs as [m r s]. cbn [shr_m]. intros H.
  destruct m as [| [p | p |] | p]; cbn [shr_1 shr_m]; try reflexivity; try lia.
  - apply Z.div_unique with 1; lia.
  - apply Z.div_unique with 0; lia.
Qed.

Lemma shr_m_iter (k : positive) (mrs : shr_record) :
  0 <= shr_m mrs ->
  shr_m (SpecFloat.iter_pos shr_1 k mrs) = shr_m mrs / 2 ^ Zpos k.
Proof.
  intros H. rewrite iter_pos_iter.
  induction k as [| k IH] using Pos.peano_ind.
  - cbn [Pos.iter]. rewrite shr_1_m by exact H. reflexivity.
  - rewrite Pos.iter_succ, shr_1_m, IH.
    + rewrite Pos2Z.inj_succ, Z.pow_succ_r by lia.
      rewrite Z.div_div by lia. f_equal. ring.
    + rewrite IH. apply Z.div_pos; lia.
Qed.

Lemma fexp_normal (d : Z) : -125 <= d -> fexp prec emax d = d - 24.
Proof. unfold fexp, emin, prec, emax. lia. Qed.

Lemma bra_unfold (s : bool) (mx ex : Z) (lx : location) :
  binary_round_aux prec emax s mx ex lx
  = bra_tail s (round_nearest_even (shr_m (fst (shr_fexp prec emax mx ex lx)))
                  (loc_of_shr_record (fst (shr_fexp prec emax mx ex lx))))
      (snd (shr_fexp prec emax mx ex lx)).
Proof.
  unfold binary_round_aux, bra_tail.
  destruct (shr_fexp prec emax mx ex lx) as [mrs e]. reflexivity.
Qed.

Lemma bra_tail_canon (s : bool) (m : positive) (e : Z) :
  canon m -> -149 <= e <= 104 -> bra_tail s (Zpos m) e = S754_finite s m e.
Proof.
  intros C R. unfold bra_tail, shr_fexp. cbn [Zdigits2]. rewrite C.
  rewrite fexp_normal by lia. replace (24 + e - 24 - e) with 0 by lia.
  cbn [shr shr_record_of_loc shr_m].
  replace (e <=? emax - prec) with true; [reflexivity |].
  symmetry. apply Z.leb_le. unfold emax, prec. lia.
Qed.

Lemma bra_tail_carry (s : bool) (e : Z) :
  -149 <= e <= 103 -> bra_tail s 16777216 e = S754_finite s 8388608 (e + 1).
Proof.
  intros R. unfold bra_tail, shr_fexp.
  change (Zdigits2 16777216) with 25.
  rewrite fexp_normal by lia. replace (25 + e - 24 - e) with 1 by lia.
  cbn [shr shr_record_of_loc shr_m SpecFloat.iter_pos shr_1].
  replace (e + 1 <=? emax - prec) with true; [reflexivity |].
  symmetry. apply Z.leb_le. unfold emax, prec. lia.
Qed.

Lemma rne_bounds (m : Z) (l : location) :
  round_nearest_even m l = m \/ round_nearest_even m l = m + 1.
Proof.
  destruct l as [| []]; cbn; auto. destruct (Z.even m); auto.
Qed.

Lemma shr_m_of_loc (m : Z) (l : location) : shr_m (shr_record_of_loc m l) = m.
Proof. destruct l as [| []]; reflexivity. Qed.

(** A mantissa of exactly 24 digits passes through [binary_round_aux]
    unchanged. *)
Lemma bra_exact (s : bool) (m : positive) (e : Z) :
  canon m -> -149 <= e <= 104 ->
  binary_round_aux prec emax s (Zpos m) e loc_Exact = S754_finite s m e.
Proof.
  intros C R. rewrite bra_unfold. unfold shr_fexp. cbn [Zdigits2]. rewrite C.
  rewrite fexp_normal by lia. replace (24 + e - 24 - e) with 0 by lia.
  cbn [shr shr_record_of_loc shr_m fst snd loc_of_shr_record round_nearest_even].
  apply bra_tail_canon; assumption.
Qed.

(** A 24-digit mantissa followed by [k] zero bits is rounded exactly. *)
Lemma bra_shift (s : bool) (m k : positive) (e : Z) :
  canon m -> -149 <= e + Zpos k <= 104 ->
  binary_round_aux prec emax s (Zpos (Pos.iter xO m k)) e loc_Exact
  = S754_finite s m (e + Zpos k).
Proof.
  intros C R. rewrite bra_unfold. unfold shr_fexp. cbn [Zdigits2].
  rewrite digits_iter_xO, C. rewrite fexp_normal by lia.
  replace (24 + Zpos k + e - 24 - e) with (Zpos k) by lia.
  cbn [shr shr_record_of_loc fst snd]. rewrite shr_iter_xO.
  cbn [shr_m loc_of_shr_record round_nearest_even].
  apply bra_tail_canon; assumption.
Qed.

(** The shape of every rounding that stays in the normal range: a 24-digit
    mantissa, and an exponent set by the number of digits of the input,
    one more when the rounding carries into a power of two. *)
Lemma bra_shape (s : bool) (mx : positive) (ex : Z) (lx : location) :
  24 <= Zpos (digits2_pos mx) ->
  -125 <= Zpos (digits2_pos mx) + ex <= 127 ->
  exists (m : positive) (e : Z),
    binary_round_aux prec emax s (Zpos mx) ex lx = S754_finite s m e
    /\ canon m
    /\ (e = Zpos (digits2_pos mx) + ex - 24
        \/ (e = Zpos (digits2_pos mx) + ex - 23 /\ m = 8388608%positive)).
Proof.
  intros D R. pose proof (digits_bounds mx) as B.
  set (d := Zpos (digits2_pos mx)) in *.
  rewrite bra_unfold. unfold shr_fexp. cbn [Zdigits2]. fold d.
  rewrite fexp_normal by lia.
  assert (exists m1 l1, 
    shr (shr_record_of_loc (Zpos mx) lx) ex (d + ex - 24 - ex) = (Build_shr_record m1 (fst l1) (snd l1), d + ex - 24)
    /\ 2 ^ 23 <= m1 < 2 ^ 24) as (m1 & l1 & -> & M1).
  { destruct (Z.eq_dec d 24) as [E | N].
    - exists (Zpos mx). 
      replace (d + ex - 24 - ex) with 0 by lia. cbn [shr].
      exists (shr_r (shr_record_of_loc (Zpos mx) lx), shr_s (shr_record_of_loc (Zpos mx) lx)).
      split.
      + f_equal; [| lia]. destruct lx as [| []]; reflexivity.
      + rewrite E in B. exact B.
    - destruct (d + ex - 24 - ex) as [| k | k] eqn:K; try lia.
      cbn [shr].
      exists (shr_m (SpecFloat.iter_pos shr_1 k (shr_record_of_loc (Zpos mx) lx))).
      exists (shr_r (SpecFloat.iter_pos shr_1 k (shr_record_of_loc (Zpos mx) lx)),
              shr_s (SpecFloat.iter_pos shr_1 k (shr_record_of_loc (Zpos mx) lx))).
      split.
      + f_equal; [| lia].
        destruct (SpecFloat.iter_pos shr_1 k (shr_record_of_loc (Zpos mx) lx)); reflexivity.
      + rewrite shr_m_iter by (rewrite shr_m_of_loc; lia).
        rewrite shr_m_of_loc.
        assert (P : 2 ^ d = 2 ^ 24 * 2 ^ Zpos k)
          by (rewrite <- Z.pow_add_r by lia; f_equal; lia).
        assert (Q : 2 ^ (d - 1) = 2 ^ 23 * 2 ^ Zpos k)
          by (rewrite <- Z.pow_add_r by lia; f_equal; lia).
        assert (0 < 2 ^ Zpos k) by (apply Z.pow_pos_nonneg; lia).
        split.
        * apply Z.div_le_lower_bound; lia.
        * apply Z.div_lt_upper_bound; lia. }
  cbn [fst snd shr_m].
  set (l := loc_of_shr_record _).
  destruct (rne_bounds m1 l) as [-> | ->].
  - destruct m1 as [| p |]; try lia.
    exists p, (d + ex - 24). split; [| split].
    + apply bra_tail_canon; [| lia]. apply digits_unique. exact M1.
    + apply digits_unique. exact M1.
    + left. reflexivity.
  - destruct (Z.eq_dec (m1 + 1) (2 ^ 24)) as [E | N].
    + exists 8388608%positive, (d + ex - 23). split; [| split].
      * rewrite E. change (2 ^ 24) with 16777216. rewrite bra_tail_carry by lia.
        f_equal. lia.
      * reflexivity.
      * right. split; reflexivity.
    + destruct (m1 + 1) as [| p |] eqn:P; try lia.
      assert (M2 : 2 ^ (24 - 1) <= Zpos p < 2 ^ 24) by (change (24 - 1) with 23; lia).
      exists p, (d + ex - 24). split; [| split].
      * apply bra_tail_canon; [| lia]. apply digits_unique. exact M2.
      * apply digits_unique. exact M2.
      * left. reflexivity.
Qed.

(** *** Conversion from [int] *)

Lemma shl24_spec (p : positive) :
  Zpos (digits2_pos p) <= 24 ->
  canon (shl24 p) /\ Zpos (shl24 p) = Zpos p * 2 ^ (24 - Zpos (digits2_pos p)).
Proof.
  intros D. unfold shl24, shl_align, canon.
  destruct (Zpos (digits2_pos p) - 24 - 0) as [| k | k] eqn:K; try lia; cbn [fst].
  - replace (24 - Zpos (digits2_pos p)) with 0 by lia. cbn. lia.
  - rewrite digits_iter_xO, Zpos_iter_xO.
    replace (24 - Zpos (digits2_pos p)) with (Zpos k) by lia. lia.
Qed.

Lemma binary_round_small (s : bool) (p : positive) :
  Zpos (digits2_pos p) <= 24 ->
  binary_round prec emax s p 0 = S754_finite s (shl24 p) (Zpos (digits2_pos p) - 24).
Proof.
  intros D. destruct (shl24_spec p D) as [C _].
  pose proof (Pos2Z.is_pos (digits2_pos p)) as P.
  unfold binary_round. rewrite Z.add_0_r, fexp_normal by lia.
  unfold shl24 in *. unfold shl_align in *.
  destruct (Zpos (digits2_pos p) - 24 - 0) as [| k | k] eqn:K; try lia; cbn [fst] in *.
  - rewrite bra_exact by (assumption || lia). f_equal. lia.
  - apply bra_exact; [assumption | lia].
Qed.

Lemma binary_round_big (s : bool) (p : positive) :
  24 < Zpos (digits2_pos p) <= 32 ->
  exists (m : positive) (e : Z),
    binary_round prec emax s p 0 = S754_finite s m e /\ canon m /\ 1 <= e <= 9.
Proof.
  intros D. unfold binary_round. rewrite Z.add_0_r, fexp_normal by lia.
  unfold shl_align.
  destruct (Zpos (digits2_pos p) - 24 - 0) as [| k | k] eqn:K; try lia.
  destruct (bra_shape s p 0 loc_Exact) as (m & e & E & C & S); try lia.
  exists m, e. split; [exact E | split; [exact C | lia]].
Qed.

(** Integer mantissas of 24 digits times a power of two are floats. *)
Lemma binary_round_shifted (s : bool) (m k : positive) :
  canon m -> Zpos k <= 104 ->
  binary_round prec emax s (Pos.iter xO m k) 0 = S754_finite s m (Zpos k).
Proof.
  intros C K. unfold binary_round.
  rewrite digits_iter_xO, C, Z.add_0_r, fexp_normal by lia.
  unfold shl_align.
  destruct (24 + Zpos k - 24 - 0) as [| j | j] eqn:J; try lia.
  rewrite bra_shift by (assumption || lia). f_equal.
Qed.

(** *** Multiplying and dividing by a power of two *)

Lemma mul_pow2 (s : bool) (m : positive) (e j : Z) :
  canon m -> -149 <= e + j <= 104 ->
  mul (S754_finite s m e) (S754_finite false 8388608 (j - 23)) = S754_finite s m (e + j).
Proof.
  intros C R. unfold mul. cbn [SFmul]. rewrite xorb_false_r, Pos.mul_comm.
  change (8388608 * m)%positive with (Pos.iter xO m 23).
  rewrite bra_shift by (assumption || lia). f_equal. lia.
Qed.

Lemma div_pow2 (s : bool) (m : positive) (e j : Z) :
  canon m -> -143 <= e - j <= 104 ->
  div (S754_finite s m e) (S754_finite false 8388608 (j - 23)) = S754_finite s m (e - j).
Proof.
  intros C R. unfold div. cbn [SFdiv]. rewrite xorb_false_r.
  unfold SFdiv_core_binary. cbn [Zdigits2]. rewrite C.
  change (Zpos (digits2_pos 8388608)) with 24.
  rewrite fexp_normal by lia.
  replace (Z.min (24 + e - (24 + (j - 23)) - 24) (e - (j - 23))) with (e - j - 1) by lia.
  replace (e - (j - 23) - (e - j - 1)) with 24 by lia.
  rewrite Z.shiftl_mul_pow2 by lia.
  replace (Z.div_eucl (Zpos m * 2 ^ 24) 8388608) with (Zpos m~0, 0).
  - change (new_location 8388608 0) with loc_Exact.
    change (m~0)%positive with (Pos.iter xO m 1).
    rewrite bra_shift by (assumption || lia). f_equal. lia.
  - pose proof (Z.div_eucl_eq (Zpos m * 2 ^ 24) 8388608 ltac:(lia)) as E.
    pose proof (Z.mod_pos_bound (Zpos m * 2 ^ 24) 8388608 ltac:(lia)) as B.
    unfold Z.modulo in B.
    destruct (Z.div_eucl (Zpos m * 2 ^ 24) 8388608) as [q r].
    change (2 ^ 24) with 16777216 in E.
    assert (q = 2 * Zpos m) by nia. assert (r = 0) by lia. subst. reflexivity.
Qed.

(** *** Rounding to a multiple of 32 through floats *)

Lemma roundZ_finite (s : bool) (m : positive) (e : Z) :
  roundZ (S754_finite s m e) = Some (cond_Zopp s (round_mag m e)).
Proof. destruct e, s; reflexivity. Qed.

Lemma of_int_signed (s : bool) (p : positive) :
  of_int (cond_Zopp s (Zpos p)) = binary_round prec emax s p 0.
Proof. destruct s; reflexivity. Qed.

Lemma of_integral_pos (s : bool) (m : positive) (e : Z) (q : positive) :
  of_integral (S754_finite s m e) (Some (cond_Zopp s (Zpos q)))
  = binary_round prec emax s q 0.
Proof. rewrite <- of_int_signed. destruct s; reflexivity. Qed.

Lemma round_mag_small (m p : positive) :
  canon m -> 0 <= round_mag m (Zneg p) <= 2 ^ 23.
Proof.
  intros C. unfold round_mag. pose proof (digits_bounds m) as B. rewrite C in B.
  assert (P : 2 ^ Zpos p = 2 * 2 ^ (Zpos p - 1)).
  { rewrite <- Z.pow_succ_r by lia. f_equal. lia. }
  assert (0 < 2 ^ (Zpos p - 1)) by (apply Z.pow_pos_nonneg; lia).
  split.
  - apply Z.div_pos; lia.
  - apply Z.div_le_upper_bound; [lia |].
    change (2 ^ 24) with 16777216 in B. change (2 ^ 23) with 8388608. nia.
Qed.

(** The integer value of a float whose value is an integer. *)
Lemma trunc_pos_shl24 (q : positive) (j : Z) :
  Zpos (digits2_pos q) <= 24 -> 0 <= j ->
  fst (trunc_pos (shl24 q) (Zpos (digits2_pos q) - 24 + j)) = Zpos q * 2 ^ j.
Proof.
  intros D J. destruct (shl24_spec q D) as [_ V].
  set (d := Zpos (digits2_pos q)) in *.
  assert (0 < d) by (subst d; lia).
  unfold trunc_pos. destruct (d - 24 + j) as [| k | k] eqn:K; cbn [fst]; rewrite V.
  - replace j with (24 - d) by lia. reflexivity.
  - replace j with ((24 - d) + Zpos k) by lia.
    rewrite Z.pow_add_r by lia. ring.
  - replace (24 - d) with (j + Zpos k) by lia.
    rewrite Z.pow_add_r by lia.
    rewrite Z.mul_assoc. apply Z.div_mul.
    apply Z.pow_nonzero; lia.
Qed.

Lemma truncZ_finite (s : bool) (m : positive) (e : Z) :
  truncZ (S754_finite s m e) = Some (cond_Zopp s (fst (trunc_pos m e))).
Proof. destruct s; reflexivity. Qed.

(** Both conversions, from the integer part of the float. *)
Lemma to_int_of_truncZ (x : float) (q : Z) :
  truncZ x = Some q -> to_int x = clamp_int q /\ to_int_checked x = Int32.checked q.
Proof. unfold to_int, to_int_checked, clamp_int, Int32.checked. intros ->. split; reflexivity. Qed.

Lemma in_rangeb_true (q : Z) :
  Int32.min_int <= q <= Int32.max_int -> Int32.in_rangeb q = true.
Proof.
  intros R. unfold Int32.in_rangeb. apply andb_true_intro. split; apply Z.leb_le; lia.
Qed.

Lemma to_int_in_range (x : float) (q : Z) :
  truncZ x = Some q -> Int32.min_int <= q <= Int32.max_int ->
  to_int x = q /\ to_int_checked x = Some q.
Proof.
  intros T R. destruct (to_int_of_truncZ x q T) as [-> ->].
  unfold clamp_int, Int32.checked. rewrite in_rangeb_true by exact R. split; reflexivity.
Qed.

Lemma cond_Zopp_mul (s : bool) (a b : Z) :
  cond_Zopp s (a * b) = b * cond_Zopp s a.
Proof. destruct s; cbn; ring. Qed.

Lemma step32_canon (s : bool) (m : positive) (e : Z) :
  canon m -> -100 <= e <= 20 ->
  truncZ (step32 (S754_finite s m e)) = Some (32 * cond_Zopp s (round_mag m (e - 5))).
Proof.
  intros C R. unfold step32.
  change (of_int 32) with (S754_finite false 8388608 (5 - 23)).
  rewrite div_pow2 by (assumption || lia).
  unfold round. rewrite roundZ_finite.
  destruct (e - 5) as [| k | k] eqn:K.
  - (* the quotient is the integer [m] *)
    cbn [round_mag]. rewrite of_integral_pos.
    rewrite (binary_round_small s m) by (rewrite C; lia). rewrite C.
    assert (S : shl24 m = m).
    { unfold shl24, shl_align. rewrite C. reflexivity. }
    rewrite S. rewrite mul_pow2 by (assumption || lia).
    rewrite truncZ_finite. cbn [trunc_pos fst]. rewrite <- cond_Zopp_mul. reflexivity.
  - (* the quotient is an integer of more than 24 digits *)
    cbn [round_mag]. rewrite <- Zpos_iter_xO, of_integral_pos.
    rewrite binary_round_shifted by (assumption || lia).
    rewrite mul_pow2 by (assumption || lia).
    rewrite truncZ_finite. rewrite <- cond_Zopp_mul. do 3 f_equal.
    rewrite Zpos_iter_xO.
    destruct (Zpos k + 5) as [| j | j] eqn:J; try lia. cbn [trunc_pos fst].
    rewrite <- J, Z.pow_add_r by lia. ring.
  - (* the quotient has a fractional part *)
    pose proof (round_mag_small m k C) as Q.
    destruct (round_mag m (Zneg k)) as [| q |] eqn:Eq; try lia.
    + assert (Z0' : cond_Zopp s 0 = 0) by (destruct s; reflexivity).
      rewrite Z0'. cbn [of_integral].
      change (mul (S754_zero s) (S754_finite false 8388608 (5 - 23)))
        with (S754_zero (xorb s false)).
      reflexivity.
    + rewrite of_integral_pos.
      assert (D : Zpos (digits2_pos q) <= 24).
      { pose proof (digits_bounds q) as B.
        destruct (Z.le_gt_cases (Zpos (digits2_pos q)) 24) as [L | G]; [exact L | exfalso].
        assert (2 ^ 24 <= 2 ^ (Zpos (digits2_pos q) - 1)) by (apply Z.pow_le_mono_r; lia).
        change (2 ^ 24) with 16777216 in *. change (2 ^ 23) with 8388608 in *. lia. }
      rewrite binary_round_small by exact D.
      destruct (shl24_spec q D) as [C' _].
      pose proof (Pos2Z.is_pos (digits2_pos q)).
      rewrite mul_pow2 by (assumption || lia).
      rewrite truncZ_finite, trunc_pos_shl24 by lia.
      rewrite <- cond_Zopp_mul. reflexivity.
Qed.

Lemma of_int_pos (p : positive) : of_int (Zpos p) = binary_round prec emax false p 0.
Proof. reflexivity. Qed.

Lemma of_int_neg (p : positive) : of_int (Zneg p) = binary_round prec emax true p 0.
Proof. reflexivity. Qed.

Lemma digits_le (p : positive) (n : Z) : Zpos p < 2 ^ n -> Zpos (digits2_pos p) <= n.
Proof.
  intros H. pose proof (digits_bounds p) as B.
  destruct (Z.le_gt_cases (Zpos (digits2_pos p)) n) as [L | G]; [exact L | exfalso].
  assert (2 ^ n <= 2 ^ (Zpos (digits2_pos p) - 1)).
  { destruct (Z.le_gt_cases 0 n).
    - apply Z.pow_le_mono_r; lia.
    - rewrite (Z.pow_neg_r 2 n) by lia. apply Z.pow_nonneg. lia. }
  lia.
Qed.

Lemma clamp_int_32 (v : Z) : (32 | clamp_int (32 * v)).
Proof.
  unfold clamp_int. destruct (Int32.in_rangeb (32 * v)).
  - exists v. ring.
  - exists (-67108864). reflexivity.
Qed.

(** Whatever the [int], the float detour ends on a multiple of 32. *)
Lemma step32_of_int_divide (x : Z) :
  - 2 ^ 32 < x < 2 ^ 32 -> (32 | to_int (step32 (of_int x))).
Proof.
  intros R.
  assert (G : forall s p, Zpos p < 2 ^ 32 ->
            (32 | to_int (step32 (binary_round prec emax s p 0)))).
  { intros s p P. pose proof (digits_le p 32 P) as D.
    pose proof (Pos2Z.is_pos (digits2_pos p)) as D0.
    destruct (Z.le_gt_cases (Zpos (digits2_pos p)) 24) as [L | B].
    - rewrite binary_round_small by exact L.
      destruct (shl24_spec p L) as [C _].
      destruct (to_int_of_truncZ _ _
                  (step32_canon s (shl24 p) (Zpos (digits2_pos p) - 24) C ltac:(lia)))
        as [-> _].
      apply clamp_int_32.
    - destruct (binary_round_big s p) as (m & e & -> & C & E); [lia |].
      destruct (to_int_of_truncZ _ _ (step32_canon s m e C ltac:(lia))) as [-> _].
      apply clamp_int_32. }
  destruct x as [| p | p].
  - exists 0. reflexivity.
  - rewrite of_int_pos. apply G. lia.
  - rewrite of_int_neg. apply G. lia.
Qed.

(** Below 2^24 the float detour is the integer rounding to the nearest
    multiple of 32, ties upwards, and its conversion is defined. *)
Lemma step32_of_int_nearest (x : Z) :
  0 <= x <= 2 ^ 24 ->
  to_int (step32 (of_int x)) = 32 * ((x + 16) / 32)
  /\ to_int_checked (step32 (of_int x)) = Some (32 * ((x + 16) / 32)).
Proof.
  intros R. destruct (Z.eq_dec x (2 ^ 24)) as [-> | N]; [split; reflexivity |].
  destruct x as [| p | p]; [split; reflexivity | | lia].
  assert (D : Zpos (digits2_pos p) <= 24) by (apply digits_le; lia).
  pose proof (Pos2Z.is_pos (digits2_pos p)) as D0.
  destruct (shl24_spec p D) as [C V].
  rewrite of_int_pos, binary_round_small by (assumption || lia).
  pose proof (step32_canon false (shl24 p) (Zpos (digits2_pos p) - 24) C ltac:(lia)) as T.
  set (d := Zpos (digits2_pos p)) in *.
  assert (E : 32 * cond_Zopp false (round_mag (shl24 p) (d - 24 - 5))
              = 32 * ((Zpos p + 16) / 32)).
  { destruct (d - 24 - 5) as [| k | k] eqn:K; try lia.
    cbn [round_mag cond_Zopp]. rewrite V.
    assert (P1 : 2 ^ (Zpos k - 1) = 16 * 2 ^ (24 - d)).
    { change 16 with (2 ^ 4). rewrite <- Z.pow_add_r by lia. f_equal. lia. }
    assert (P2 : 2 ^ Zpos k = 32 * 2 ^ (24 - d)).
    { change 32 with (2 ^ 5). rewrite <- Z.pow_add_r by lia. f_equal. lia. }
    rewrite P1, P2, <- Z.mul_add_distr_r.
    rewrite Z.div_mul_cancel_r by (try apply Z.pow_nonzero; lia). reflexivity. }
  rewrite E in T. apply to_int_in_range; [exact T |].
  pose proof (Z.div_pos (Zpos p + 16) 32 ltac:(lia) ltac:(lia)).
  assert ((Zpos p + 16) / 32 <= 2 ^ 24) by (apply Z.div_le_upper_bound; lia).
  change (2 ^ 24) with 16777216 in *. unfold Int32.min_int, Int32.max_int. lia.
Qed.

(** *** Products and quotients of positive floats *)

Lemma canon_bounds (m : positive) : canon m -> 8388608 <= Zpos m < 16777216.
Proof. intros C. pose proof (digits_bounds m) as B. rewrite C in B. exact B. Qed.

Lemma mul_shape (mx my : positive) (ex ey : Z) :
  canon mx -> canon my -> -100 <= ex + ey <= 50 ->
  exists (m : positive) (e : Z),
    mul (S754_finite false mx ex) (S754_finite false my ey) = S754_finite false m e
    /\ canon m /\ ex + ey + 23 <= e /\ le_pow2 m e (ex + ey + 48).
Proof.
  intros Cx Cy R. pose proof (canon_bounds mx Cx). pose proof (canon_bounds my Cy).
  unfold mul. cbn [SFmul xorb].
  pose proof (digits_bounds (mx * my)) as B. rewrite Pos2Z.inj_mul in B.
  set (d := Zpos (digits2_pos (mx * my))) in *.
  assert (46 < d).
  { destruct (Z.le_gt_cases d 46) as [L | G]; [exfalso | exact G].
    assert (2 ^ d <= 2 ^ 46) by (apply Z.pow_le_mono_r; lia).
    change (2 ^ 46) with (8388608 * 8388608) in *. nia. }
  assert (d <= 48).
  { destruct (Z.le_gt_cases d 48) as [L | G]; [exact L | exfalso].
    assert (2 ^ 48 <= 2 ^ (d - 1)) by (apply Z.pow_le_mono_r; lia).
    change (2 ^ 48) with (16777216 * 16777216) in *. nia. }
  destruct (bra_shape false (mx * my) (ex + ey) loc_Exact) as (m & e & E & C & S);
    fold d; try lia.
  exists m, e. split; [exact E | split; [exact C |]].
  fold d in S. unfold le_pow2. lia.
Qed.

Lemma div_shape (m1 m2 : positive) (e1 e2 : Z) :
  canon m1 -> canon m2 -> -100 <= e1 - e2 <= 100 ->
  exists (m : positive) (e : Z),
    div (S754_finite false m1 e1) (S754_finite false m2 e2) = S754_finite false m e
    /\ canon m /\ e1 - e2 - 24 <= e
    /\ le_pow2 m e (e1 - e2 + (if Zpos m1 <? Zpos m2 then 0 else 1)).
Proof.
  intros C1 C2 R. pose proof (canon_bounds m1 C1). pose proof (canon_bounds m2 C2).
  unfold div. cbn [SFdiv xorb].
  unfold SFdiv_core_binary. cbn [Zdigits2]. rewrite C1, C2.
  rewrite fexp_normal by lia.
  replace (Z.min (24 + e1 - (24 + e2) - 24) (e1 - e2)) with (e1 - e2 - 24) by lia.
  replace (e1 - e2 - (e1 - e2 - 24)) with 24 by lia.
  rewrite Z.shiftl_mul_pow2 by lia. change (2 ^ 24) with 16777216.
  pose proof (Z.div_eucl_eq (Zpos m1 * 16777216) (Zpos m2) ltac:(lia)) as E.
  pose proof (Z.mod_pos_bound (Zpos m1 * 16777216) (Zpos m2) ltac:(lia)) as B.
  unfold Z.modulo in B.
  destruct (Z.div_eucl (Zpos m1 * 16777216) (Zpos m2)) as [q r].
  assert (Q : 8388608 <= q < 33554432) by nia.
  destruct q as [| q |]; try lia.
  pose proof (digits_bounds q) as Dq.
  set (d := Zpos (digits2_pos q)) in *.
  assert (24 <= d).
  { destruct (Z.le_gt_cases 24 d) as [L | G]; [exact L | exfalso].
    assert (2 ^ d <= 2 ^ 23) by (apply Z.pow_le_mono_r; lia).
    change (2 ^ 23) with 8388608 in *. lia. }
  assert (d <= 25).
  { apply digits_le. change (2 ^ 25) with 33554432. lia. }
  assert (Zpos m1 < Zpos m2 -> d = 24).
  { intros L. assert (d <= 24); [| lia].
    apply digits_le. change (2 ^ 24) with 16777216. nia. }
  destruct (bra_shape false q (e1 - e2 - 24) (new_location (Zpos m2) r))
    as (m & e & E' & C & S); fold d; try lia.
  exists m, e. split; [exact E' | split; [exact C |]].
  fold d in S. unfold le_pow2.
  destruct (Z.ltb_spec (Zpos m1) (Zpos m2)); lia.
Qed.

(** The integer part of a positive float that is at most [2 ^ b]: its
    conversion is defined and lies in [0, 2 ^ b]. *)
Lemma to_int_le_pow2 (m : positive) (e b : Z) :
  canon m -> le_pow2 m e b -> 0 <= b <= 30 ->
  exists v, to_int (S754_finite false m e) = v
            /\ to_int_checked (S754_finite false m e) = Some v
            /\ 0 <= v <= 2 ^ b.
Proof.
  intros C L B. pose proof (canon_bounds m C) as M.
  assert (P0 : 0 < 2 ^ b) by (apply Z.pow_pos_nonneg; lia).
  assert (V : 0 <= fst (trunc_pos m e) <= 2 ^ b).
  { unfold trunc_pos. destruct e as [| k | k]; cbn [fst].
    - destruct L as [L | [L ->]].
      + assert (2 ^ 24 <= 2 ^ b) by (apply Z.pow_le_mono_r; lia).
        change (2 ^ 24) with 16777216 in *. lia.
      + assert (2 ^ 23 <= 2 ^ b) by (apply Z.pow_le_mono_r; lia).
        change (2 ^ 23) with 8388608 in *. lia.
    - destruct L as [L | [L ->]].
      + split; [lia |].
        assert (2 ^ (24 + Zpos k) <= 2 ^ b) by (apply Z.pow_le_mono_r; lia).
        rewrite Z.pow_add_r in * by lia. change (2 ^ 24) with 16777216 in *. nia.
      + split; [lia |].
        change 8388608 with (2 ^ 23). rewrite <- Z.pow_add_r by lia.
        apply Z.pow_le_mono_r; lia.
    - assert (0 < 2 ^ Zpos k) by (apply Z.pow_pos_nonneg; lia).
      split; [apply Z.div_pos; lia |].
      apply Z.div_le_upper_bound; [lia |].
      destruct L as [L | [L ->]].
      + assert (2 ^ 24 <= 2 ^ Zpos k * 2 ^ b).
        { rewrite <- Z.pow_add_r by lia. apply Z.pow_le_mono_r; lia. }
        change (2 ^ 24) with 16777216 in *. lia.
      + assert (2 ^ 23 <= 2 ^ Zpos k * 2 ^ b).
        { rewrite <- Z.pow_add_r by lia. apply Z.pow_le_mono_r; lia. }
        change (2 ^ 23) with 8388608 in *. lia. }
  exists (fst (trunc_pos m e)).
  assert (2 ^ b <= 2 ^ 30) by (apply Z.pow_le_mono_r; lia).
  change (2 ^ 30) with 1073741824 in *.
  destruct (to_int_in_range (S754_finite false m e) (fst (trunc_pos m e))) as [E1 E2].
  - apply (truncZ_finite false).
  - unfold Int32.min_int, Int32.max_int. lia.
  - split; [exact E1 | split; [exact E2 | exact V]].
Qed.


Lemma le_pow2_mono (m : positive) (e b b' : Z) :
  b <= b' -> le_pow2 m e b -> le_pow2 m e b'.
Proof. unfold le_pow2. lia. Qed.

Lemma of_int_small (p : positive) :
  Zpos p < 2 ^ 24 ->
  of_int (Zpos p) = S754_finite false (shl24 p) (Zpos (digits2_pos p) - 24)
  /\ canon (shl24 p)
  /\ Zpos (shl24 p) = Zpos p * 2 ^ (24 - Zpos (digits2_pos p))
  /\ 0 < Zpos (digits2_pos p) <= 24.
Proof.
  intros H. pose proof (digits_le p 24 H) as D.
  destruct (shl24_spec p D) as [C V].
  rewrite of_int_pos, binary_round_small by exact D.
  split; [reflexivity | split; [exact C | split; [exact V | lia]]].
Qed.

Lemma to_int_of_int_small (x : Z) :
  0 <= x < 2 ^ 24 -> to_int (of_int x) = x /\ to_int_checked (of_int x) = Some x.
Proof.
  intros R. destruct x as [| p | p]; [split; reflexivity | | lia].
  destruct (of_int_small p) as (-> & C & V & D); [lia |].
  apply to_int_in_range.
  - rewrite truncZ_finite. cbn [cond_Zopp].
    replace (Zpos (digits2_pos p) - 24) with (Zpos (digits2_pos p) - 24 + 0) by lia.
    rewrite trunc_pos_shl24 by lia. rewrite Z.mul_1_r. reflexivity.
  - change (2 ^ 24) with 16777216 in R. unfold Int32.min_int, Int32.max_int. lia.
Qed.

Lemma mul_one_small (x : Z) : 0 <= x < 2 ^ 24 -> mul (of_int x) (of_int 1) = of_int x.
Proof.
  intros R. destruct x as [| p | p]; [reflexivity | | lia].
  destruct (of_int_small p) as (-> & C & V & D); [lia |].
  change (of_int 1) with (S754_finite false 8388608 (0 - 23)).
  rewrite mul_pow2 by (assumption || lia). f_equal. lia.
Qed.


Lemma mul_finite_comm (sx sy : bool) (mx my : positive) (ex ey : Z) :
  mul (S754_finite sx mx ex) (S754_finite sy my ey)
  = mul (S754_finite sy my ey) (S754_finite sx mx ex).
Proof.
  unfold mul. cbn [SFmul].
  rewrite (xorb_comm sx sy), (Pos.mul_comm mx my), (Z.add_comm ex ey). reflexivity.
Qed.

(** [std::ceil] of a positive float that is at most [2 ^ b]: the conversion
    of the result is defined and lies in [1, 2 ^ b]. *)
Lemma to_int_ceil_le_pow2 (m : positive) (e b : Z) :
  canon m -> le_pow2 m e b -> 0 <= b <= 30 -> -100 <= e ->
  exists v, to_int (ceil (S754_finite false m e)) = v
            /\ to_int_checked (ceil (S754_finite false m e)) = Some v
            /\ 1 <= v <= 2 ^ b.
Proof.
  intros C L B E. pose proof (canon_bounds m C) as M.
  assert (P0 : 0 < 2 ^ b) by (apply Z.pow_pos_nonneg; lia).
  destruct e as [| k | k].
  - (* an integer of 24 digits *)
    assert (X : ceil (S754_finite false m 0) = S754_finite false m 0).
    { unfold ceil. cbn [ceilZ trunc_pos of_integral]. rewrite of_int_pos.
      rewrite binary_round_small by (rewrite C; lia). rewrite C.
      unfold shl24, shl_align. rewrite C. reflexivity. }
    rewrite X. destruct (to_int_le_pow2 m 0 b C L B) as (v & E1 & E2 & V).
    exists v. split; [exact E1 | split; [exact E2 |]].
    rewrite <- E1 in *.
    destruct (to_int_in_range (S754_finite false m 0) (Zpos m)) as [E3 _];
      [reflexivity | unfold Int32.min_int, Int32.max_int; lia |].
    rewrite E3 in *. lia.
  - (* an integer of more than 24 digits *)
    assert (X : ceil (S754_finite false m (Zpos k)) = S754_finite false m (Zpos k)).
    { unfold ceil. cbn [ceilZ trunc_pos]. rewrite <- Zpos_iter_xO. cbn [of_integral].
      rewrite of_int_pos. apply binary_round_shifted; [exact C |].
      destruct L as [L | [L _]]; lia. }
    rewrite X. destruct (to_int_le_pow2 m (Zpos k) b C L B) as (v & E1 & E2 & V).
    exists v. split; [exact E1 | split; [exact E2 |]].
    assert (T : truncZ (S754_finite false m (Zpos k)) = Some (Zpos m * 2 ^ Zpos k))
      by reflexivity.
    assert (0 < 2 ^ Zpos k) by (apply Z.pow_pos_nonneg; lia).
    unfold to_int_checked in E2. rewrite T in E2.
    unfold Int32.checked in E2. destruct (Int32.in_rangeb _); [| discriminate E2].
    injection E2 as <-. nia.
  - (* a fractional part *)
    assert (K : 0 < 2 ^ Zpos k) by (apply Z.pow_pos_nonneg; lia).
    set (q := Zpos m / 2 ^ Zpos k).
    set (z := if Zpos m mod 2 ^ Zpos k =? 0 then q else q + 1).
    assert (Q : ceilZ (S754_finite false m (Zneg k)) = Some z) by reflexivity.
    pose proof (Z.div_mod (Zpos m) (2 ^ Zpos k) ltac:(lia)) as DM.
    pose proof (Z.mod_pos_bound (Zpos m) (2 ^ Zpos k) K) as MB.
    fold q in DM.
    assert (Q0 : 0 <= q) by (apply Z.div_pos; lia).
    assert (Z1 : 1 <= z).
    { unfold z. destruct (Z.eqb_spec (Zpos m mod 2 ^ Zpos k) 0) as [E0 | N0]; [| lia].
      rewrite E0 in DM. nia. }
    assert (P1 : 2 <= 2 ^ Zpos k).
    { change 2 with (2 ^ 1) at 1. apply Z.pow_le_mono_r; lia. }
    assert (Z2 : z <= 2 ^ 23).
    { change (2 ^ 23) with 8388608. unfold z.
      destruct (Z.eqb_spec (Zpos m mod 2 ^ Zpos k) 0); nia. }
    assert (Zb : z <= 2 ^ b).
    { destruct L as [L | [L Em]].
      - assert (2 ^ 24 <= 2 ^ Zpos k * 2 ^ b).
        { rewrite <- Z.pow_add_r by lia. apply Z.pow_le_mono_r; lia. }
        change (2 ^ 24) with 16777216 in *.
        assert (q < 2 ^ b) by nia.
        unfold z. destruct (Z.eqb_spec (Zpos m mod 2 ^ Zpos k) 0); lia.
      - assert (2 ^ 23 <= 2 ^ Zpos k * 2 ^ b).
        { rewrite <- Z.pow_add_r by lia. apply Z.pow_le_mono_r; lia. }
        change (2 ^ 23) with 8388608 in *.
        assert (Em' : Zpos m = 8388608) by (rewrite Em; reflexivity).
        unfold z. destruct (Z.eqb_spec (Zpos m mod 2 ^ Zpos k) 0) as [E0 | N0]; [nia |].
        assert (q < 2 ^ b); [| lia].
        destruct (Z.le_gt_cases (2 ^ b) q) as [G | G]; [exfalso | exact G].
        assert (0 <= 2 ^ Zpos k * (q - 2 ^ b)) by nia. nia. }
    exists z. unfold ceil. rewrite Q.
    destruct z as [| zp |] eqn:Ez; try lia. cbn [of_integral].
    change (2 ^ 23) with 8388608 in Z2.
    destruct (to_int_of_int_small (Zpos zp)) as [E1 E2];
      [change (2 ^ 24) with 16777216; lia |].
    split; [exact E1 | split; [exact E2 | lia]].
Qed.

(** An edge below 2^15 scaled by the ratio of two positive integers below
    2^15 and rounded up: every step is defined and the result is a
    positive [int] of at most 2^30. *)
Lemma scaled_ceil_defined (a b c : Z) :
  0 < a < 2 ^ 15 -> 0 < b < 2 ^ 15 -> 0 < c < 2 ^ 15 ->
  exists v, to_int (ceil (mul (div (of_int a) (of_int b)) (of_int c))) = v
            /\ to_int_checked (ceil (mul (div (of_int a) (of_int b)) (of_int c))) = Some v
            /\ 1 <= v <= 2 ^ 30.
Proof.
  intros A B C.
  destruct a as [| pa |]; try lia. destruct b as [| pb |]; try lia.
  destruct c as [| pc |]; try lia.
  assert (Da : Zpos (digits2_pos pa) <= 15) by (apply digits_le; lia).
  assert (Db : Zpos (digits2_pos pb) <= 15) by (apply digits_le; lia).
  assert (Dc : Zpos (digits2_pos pc) <= 15) by (apply digits_le; lia).
  change (2 ^ 15) with 32768 in *.
  destruct (of_int_small pa) as (-> & Ca & Va & Da'); [change (2 ^ 24) with 16777216; lia |].
  destruct (of_int_small pb) as (-> & Cb & Vb & Db'); [change (2 ^ 24) with 16777216; lia |].
  destruct (of_int_small pc) as (-> & Cc & Vc & Dc'); [change (2 ^ 24) with 16777216; lia |].
  set (da := Zpos (digits2_pos pa)) in *.
  set (db := Zpos (digits2_pos pb)) in *.
  set (dc := Zpos (digits2_pos pc)) in *.
  destruct (div_shape (shl24 pa) (shl24 pb) (da - 24) (db - 24))
    as (m & e & -> & Cm & E & L); try assumption; try lia.
  assert (L1 : le_pow2 m e (da - db + 1)).
  { apply le_pow2_mono with (2 := L).
    destruct (Zpos (shl24 pa) <? Zpos (shl24 pb)); lia. }
  destruct L1 as [L1 | [L1 ->]].
  - destruct (mul_shape m (shl24 pc) e (dc - 24)) as (m' & e' & -> & C' & Lo & L');
      try assumption; try lia.
    apply to_int_ceil_le_pow2; [assumption | | lia | lia].
    apply le_pow2_mono with (2 := L'). lia.
  - rewrite mul_finite_comm. replace e with (e + 23 - 23) by lia.
    rewrite mul_pow2 by (assumption || lia).
    apply to_int_ceil_le_pow2; [assumption | | lia | lia].
    left. lia.
Qed.

End F32Facts.

(** ** Facts on [int] arithmetic and alignment *)

Module Int32Facts.
Import Int32.

Lemma wrap_range (z : Z) : min_int <= wrap z <= max_int.
Proof.
  unfold wrap, min_int, max_int.
  pose proof (Z.mod_pos_bound (z + 2147483648) 4294967296 ltac:(lia)). lia.
Qed.

Lemma wrap_id (z : Z) : min_int <= z <= max_int -> wrap z = z.
Proof.
  unfold wrap, min_int, max_int. intros H.
  rewrite Z.mod_small by lia. lia.
Qed.

Lemma wrap_divide_32 (z : Z) : (32 | z) -> (32 | wrap z).
Proof.
  intros [k ->]. unfold wrap.
  rewrite (Z.mod_eq (k * 32 + 2147483648) 4294967296) by lia.
  exists (k - 134217728 * ((k * 32 + 2147483648) / 4294967296)). ring.
Qed.

End Int32Facts.

Lemma checked_Some (z v : Z) :
  Int32.checked z = Some v -> v = z /\ Int32.wrap z = z.
Proof.
  unfold Int32.checked, Int32.in_rangeb. intros H.
  destruct (Z.leb_spec Int32.min_int z); cbn [andb] in H; [| discriminate H].
  destruct (Z.leb_spec z Int32.max_int); [| discriminate H].
  injection H as <-. split; [reflexivity | apply Int32Facts.wrap_id; lia].
Qed.

(** Where the C++ arithmetic is defined, it is the arithmetic of the
    model. *)
Lemma align_up_checked_sound (x base r : Z) :
  align_up_checked x base = Some r -> align_up x base = r.
Proof.
  unfold align_up_checked, align_up, Int32.add_checked, Int32.sub_checked,
    Int32.mul_checked, Int32.div_checked, Int32.add, Int32.sub, Int32.mul, Int32.div.
  intros H.
  destruct (Int32.checked (x + base)) as [s |] eqn:E1; cbn [mbind option_bind] in H; [| discriminate H].
  apply checked_Some in E1 as [-> ->].
  destruct (Int32.checked (x + base - 1)) as [t |] eqn:E2; cbn [mbind option_bind] in H; [| discriminate H].
  apply checked_Some in E2 as [-> ->].
  destruct (base =? 0); cbn [mbind option_bind] in H; [discriminate H |].
  destruct (Int32.checked (Z.quot (x + base - 1) base)) as [q |] eqn:E3; cbn [mbind option_bind] in H;
    [| discriminate H].
  apply checked_Some in E3 as [-> ->].
  destruct (Int32.checked (Z.quot (x + base - 1) base * base)) as [p |] eqn:E4;
    cbn [mbind option_bind] in H; [| discriminate H].
  apply checked_Some in E4 as [-> ->].
  injection H as <-. reflexivity.
Qed.

Lemma to_int_checked_sound (x : F32.float) (r : Z) :
  F32.to_int_checked x = Some r -> F32.to_int x = r.
Proof.
  unfold F32.to_int_checked, F32.to_int, Int32.checked.
  destruct (F32.truncZ x) as [q |]; [| discriminate].
  destruct (Int32.in_rangeb q); [| discriminate]. intros H. injection H as <-. reflexivity.
Qed.

Lemma align_pair_checked_sound (a b base : Z) (r : Z * Z) :
  (dh ← align_up_checked a base; dw ← align_up_checked b base; Some (dh, dw)) = Some r ->
  (align_up a base, align_up b base) = r.
Proof.
  intros H.
  destruct (align_up_checked a base) as [dh |] eqn:Eh; cbn [mbind option_bind] in H; [| discriminate H].
  destruct (align_up_checked b base) as [dw |] eqn:Ew; cbn [mbind option_bind] in H; [| discriminate H].
  injection H as <-.
  rewrite (align_up_checked_sound _ _ _ Eh), (align_up_checked_sound _ _ _ Ew).
  reflexivity.
Qed.

Lemma cal_dst_size_checked_sound (h w long_min short_min base : Z) (r : Z * Z) :
  cal_dst_size_checked h w long_min short_min base = Some r ->
  cal_dst_size h w long_min short_min base = r.
Proof.
  unfold cal_dst_size_checked, cal_dst_size.
  destruct (orient h w) as [[cur_long cur_short] swap].
  destruct ((cur_long >? long_min) && (cur_short >? short_min)).
  - apply align_pair_checked_sound.
  - intros H. destruct (F32.ltb _ _).
    + destruct (F32.to_int_checked _) as [n |] eqn:En in H; cbn [mbind option_bind] in H; [| discriminate H].
      rewrite (to_int_checked_sound _ _ En).
      apply align_pair_checked_sound. exact H.
    + destruct (F32.to_int_checked _) as [n |] eqn:En in H; cbn [mbind option_bind] in H; [| discriminate H].
      rewrite (to_int_checked_sound _ _ En).
      apply align_pair_checked_sound. exact H.
Qed.

Lemma round_to_32_checked_sound (x r : Z) :
  round_to_32_checked x = Some r -> round_to_32 x = r.
Proof.
  unfold round_to_32_checked, round_to_32. intros H.
  destruct (F32.to_int_checked _) as [n |] eqn:En in H; cbn [mbind option_bind] in H; [| discriminate H].
  rewrite (to_int_checked_sound _ _ En). injection H as <-. reflexivity.
Qed.

Lemma OcrDetectorGetInfo_len_checked_sound (c : Config) (img : FDMat)
  (max_size_len : Z) (r : int4) :
  OcrDetectorGetInfo_len_checked c img max_size_len = Some r ->
  OcrDetectorGetInfo_len c img max_size_len = r.
Proof.
  unfold OcrDetectorGetInfo_len_checked, OcrDetectorGetInfo_len.
  destruct (static_shape_infer_ c); [intros H; injection H as <-; reflexivity |].
  intros H.
  destruct (F32.to_int_checked (F32.mul (F32.of_int (Height img)) _)) as [rh |] eqn:Eh;
    cbn [mbind option_bind] in H; [| discriminate H].
  destruct (F32.to_int_checked (F32.mul (F32.of_int (Width img)) _)) as [rw |] eqn:Ew;
    cbn [mbind option_bind] in H; [| discriminate H].
  destruct (round_to_32_checked rh) as [ah |] eqn:Ah in H; cbn [mbind option_bind] in H; [| discriminate H].
  destruct (round_to_32_checked rw) as [aw |] eqn:Aw in H; cbn [mbind option_bind] in H; [| discriminate H].
  injection H as <-.
  rewrite (to_int_checked_sound _ _ Eh), (to_int_checked_sound _ _ Ew).
  rewrite (round_to_32_checked_sound _ _ Ah), (round_to_32_checked_sound _ _ Aw).
  reflexivity.
Qed.

Lemma align_up_32 (x : Z) : (32 | align_up x 32) /\ 32 <= align_up x 32 <= Int32.max_int.
Proof.
  unfold align_up, Int32.mul.
  set (q := Int32.div _ _).
  pose proof (Int32Facts.wrap_range (q * 32)) as R.
  assert (D : (32 | Int32.wrap (q * 32))).
  { apply Int32Facts.wrap_divide_32. exists q. reflexivity. }
  unfold Int32.max_int in *.
  destruct (Z.max_spec (Int32.wrap (q * 32)) 32) as [[L ->] | [L ->]].
  - split; [exists 1; reflexivity | lia].
  - split; [exact D | lia].
Qed.

Lemma checked_in_range (z : Z) :
  Int32.min_int <= z <= Int32.max_int -> Int32.checked z = Some z.
Proof.
  intros R. unfold Int32.checked. rewrite F32Facts.in_rangeb_true by exact R. reflexivity.
Qed.

(** Without overflow every step of [align_up] is defined, and the result
    is the ceiling to a multiple of [base], floored at [base]. *)
Lemma align_up_checked_spec (x base : Z) :
  0 < base -> Int32.min_int <= x -> x + base <= Int32.max_int ->
  align_up_checked x base = Some (Z.max (base * ((x + base - 1) / base)) base).
Proof.
  unfold Int32.min_int, Int32.max_int. intros B L U.
  unfold align_up_checked, Int32.add_checked, Int32.sub_checked, Int32.div_checked,
    Int32.mul_checked.
  rewrite (checked_in_range (x + base)) by (unfold Int32.min_int, Int32.max_int; lia).
  cbn [mbind option_bind].
  rewrite (checked_in_range (x + base - 1)) by (unfold Int32.min_int, Int32.max_int; lia).
  cbn [mbind option_bind].
  replace (base =? 0) with false by (symmetry; apply Z.eqb_neq; lia).
  destruct (Z.le_gt_cases 0 (x + base - 1)) as [P | N].
  - rewrite Z.quot_div_nonneg by lia.
    pose proof (Z.div_pos (x + base - 1) base P B) as Q.
    pose proof (Z.mul_div_le (x + base - 1) base B) as M.
    rewrite (checked_in_range ((x + base - 1) / base))
      by (unfold Int32.min_int, Int32.max_int; nia).
    cbn [mbind option_bind].
    rewrite checked_in_range by (unfold Int32.min_int, Int32.max_int; lia).
    cbn [mbind option_bind]. do 2 f_equal. ring.
  - pose proof (Z.quot_opp_l (x + base - 1) base ltac:(lia)) as O.
    assert (Q : 0 <= Z.quot (- (x + base - 1)) base) by (apply Z.quot_pos; lia).
    assert (Q' : Z.quot (- (x + base - 1)) base * base <= - (x + base - 1)).
    { rewrite Z.mul_comm. apply Z.mul_quot_le; lia. }
    assert (E : Z.quot (x + base - 1) base = - Z.quot (- (x + base - 1)) base) by lia.
    rewrite E.
    rewrite (checked_in_range (- _)) by (unfold Int32.min_int, Int32.max_int; nia).
    cbn [mbind option_bind].
    rewrite checked_in_range by (unfold Int32.min_int, Int32.max_int; nia).
    cbn [mbind option_bind].
    assert (F : (x + base - 1) / base < 0) by (apply Z.div_lt_upper_bound; lia).
    rewrite !Z.max_r by nia. reflexivity.
Qed.

Lemma align_up_spec (x base : Z) :
  0 < base -> Int32.min_int <= x -> x + base <= Int32.max_int ->
  align_up x base = Z.max (base * ((x + base - 1) / base)) base.
Proof.
  intros B L U. apply align_up_checked_sound, align_up_checked_spec; assumption.
Qed.

Lemma align_up_checked_defined (x base : Z) :
  0 < base -> Int32.min_int <= x -> x + base <= Int32.max_int ->
  align_up_checked x base = Some (align_up x base).
Proof.
  intros B L U. rewrite align_up_spec by assumption.
  apply align_up_checked_spec; assumption.
Qed.

Lemma ceil_multiple (x base : Z) :
  0 < base -> rounded_up base x (base * ((x + base - 1) / base)).
Proof.
  intros B. unfold rounded_up.
  pose proof (Z.div_mod (x + base - 1) base ltac:(lia)) as E.
  pose proof (Z.mod_pos_bound (x + base - 1) base B) as R.
  split; [exists ((x + base - 1) / base); ring | lia].
Qed.

(** A positive edge that does not overflow is rounded up by [align_up]. *)
Lemma align_up_rounded_up (x base : Z) :
  0 < base -> 0 < x -> x + base <= Int32.max_int ->
  rounded_up base x (align_up x base) /\ base <= align_up x base.
Proof.
  intros B X U. rewrite align_up_spec by (unfold Int32.min_int; lia).
  destruct (ceil_multiple x base B) as [[k K] R].
  assert (1 <= k) by nia.
  rewrite Z.max_l by nia.
  split; [apply ceil_multiple; exact B | nia].
Qed.

(** ** The sizing policies *)

Lemma orient_max_min (h w : Z) :
  orient h w = (Z.max h w, Z.min h w, negb (h >? w)).
Proof.
  unfold orient. destruct (Z.gtb_spec h w); cbn [negb].
  - rewrite Z.max_l, Z.min_r by lia. reflexivity.
  - rewrite Z.max_r, Z.min_l by lia. reflexivity.
Qed.

(** [cal_dst_size] is the dual-threshold policy on the long and the short
    edge, mapped back to height and width by [swap]. *)
Lemma cal_dst_size_edges (h w long_min short_min base : Z) :
  cal_dst_size h w long_min short_min base
  = let t := edge_targets (Z.max h w) (Z.min h w) long_min short_min in
    if h >? w then (align_up (fst t) base, align_up (snd t) base)
    else (align_up (snd t) base, align_up (fst t) base).
Proof.
  unfold cal_dst_size, edge_targets. rewrite orient_max_min.
  fold (base_ratio long_min short_min). fold (cur_ratio (Z.max h w) (Z.min h w)).
  fold (scale_ceil short_min (Z.min h w) (Z.max h w)).
  fold (scale_ceil long_min (Z.max h w) (Z.min h w)).
  destruct ((Z.max h w >? long_min) && (Z.min h w >? short_min)).
  - destruct (h >? w); reflexivity.
  - destruct (F32.ltb _ _); destruct (h >? w); reflexivity.
Qed.

Lemma to_int_range (x : F32.float) : Int32.min_int <= F32.to_int x <= Int32.max_int.
Proof.
  unfold F32.to_int. destruct (F32.truncZ x) as [q |]; [| cbv; split; discriminate].
  unfold Int32.in_rangeb. destruct (Z.leb_spec Int32.min_int q); cbn [andb];
    [destruct (Z.leb_spec q Int32.max_int) |]; try lia; cbv; split; discriminate.
Qed.

Lemma round_to_32_aligned (x : Z) :
  Int32.min_int <= x <= Int32.max_int -> aligned32 (round_to_32 x).
Proof.
  unfold Int32.min_int, Int32.max_int. intros R. unfold round_to_32.
  fold (F32Aux.step32 (F32.of_int x)).
  pose proof (F32Facts.step32_of_int_divide x) as D. change (2 ^ 32) with 4294967296 in D.
  specialize (D ltac:(lia)). unfold aligned32.
  destruct (Z.max_spec (F32.to_int (F32Aux.step32 (F32.of_int x))) 32)
    as [[L ->] | [L ->]].
  - split; [exists 1; reflexivity | lia].
  - split; [exact D | lia].
Qed.


(** C1 (as amended).  In the two dynamic modes the target width and height
    are multiples of 32 and at least 32, whatever the source size and the
    thresholds (where a step is undefined in C++, for the two's complement
    result fixed above; [cal_dst_size_defined] and [scale_trunc_defined]
    show that no step is undefined for sizes below 2^15 and 2^24); in
    static mode they are the configured [det_image_shape_] entries,
    whatever these are. *)
Theorem targets_aligned_unless_static (c : Config) (img : FDMat) (max_size_len : Z) :
  if static_shape_infer_ c
  then at2 (OcrDetectorGetInfo c img) = shape_at c 2
       /\ at3 (OcrDetectorGetInfo c img) = shape_at c 1
       /\ at2 (OcrDetectorGetInfo_len c img max_size_len) = shape_at c 2
       /\ at3 (OcrDetectorGetInfo_len c img max_size_len) = shape_at c 1
  else aligned32 (at2 (OcrDetectorGetInfo c img))
       /\ aligned32 (at3 (OcrDetectorGetInfo c img))
       /\ aligned32 (at2 (OcrDetectorGetInfo_len c img max_size_len))
       /\ aligned32 (at3 (OcrDetectorGetInfo_len c img max_size_len)).
Proof.
  unfold OcrDetectorGetInfo, OcrDetectorGetInfo_len.
  destruct (static_shape_infer_ c); cbn [at2 at3]; [repeat split |].
  assert (A : forall x, aligned32 (align_up x 32)).
  { intros x. destruct (align_up_32 x) as [D B]. split; [exact D | lia]. }
  rewrite cal_dst_size_edges.
  repeat split; try (apply round_to_32_aligned, to_int_range);
    destruct (Height img >? Width img); cbn [fst snd]; apply A.
Qed.

(** C1, the counterexample: in static mode with the fixed shape 3 x 100 x
    200, a 640 x 480 image gets the target width 200, which is not a
    multiple of 32. *)
Lemma static_target_not_aligned :
  let c := {| static_shape_infer_ := true; det_image_shape_ := [3; 100; 200];
              longside_size_ := 960; shortside_size_ := 640; max_side_len_ := 960;
              disable_normalize_ := false; disable_permute_ := false |} in
  let img := {| Width := 640; Height := 480; pixel_at := fun _ _ => [] |} in
  0 < Width img /\ 0 < Height img
  /\ at2 (OcrDetectorGetInfo c img) = 200
  /\ ~ aligned32 (at2 (OcrDetectorGetInfo c img)).
Proof.
  cbn. repeat split; try reflexivity.
  intros [[k K] _]. lia.
Qed.

Lemma cal_dst_size_checked_edges (h w long_min short_min base : Z) :
  (Z.max h w >? long_min) && (Z.min h w >? short_min) = true ->
  cal_dst_size_checked h w long_min short_min base
  = (dh ← align_up_checked h base; dw ← align_up_checked w base; Some (dh, dw)).
Proof.
  intros C. unfold cal_dst_size_checked. rewrite orient_max_min, C.
  destruct (Z.gtb_spec h w); cbn [negb].
  - rewrite Z.max_l, Z.min_r by lia. reflexivity.
  - rewrite Z.max_r, Z.min_l by lia. reflexivity.
Qed.

(** C2.  When the long edge exceeds [long_min] and the short edge exceeds
    [short_min], the height and the width are each the source height and
    width rounded up to the next multiple of [base], and at least [base],
    and no step of the computation is undefined; 3000 x 2000 under
    960 / 640 / 32 gives 3008 x 2016.  The edges are positive and
    [edge + base] does not overflow an [int]. *)
Theorem dual_no_upscale (h w long_min short_min base : Z) :
  0 < base -> 0 < h -> 0 < w ->
  h + base <= Int32.max_int -> w + base <= Int32.max_int ->
  long_min < Z.max h w -> short_min < Z.min h w ->
  rounded_up base h (fst (cal_dst_size h w long_min short_min base))
  /\ rounded_up base w (snd (cal_dst_size h w long_min short_min base))
  /\ base <= fst (cal_dst_size h w long_min short_min base)
  /\ base <= snd (cal_dst_size h w long_min short_min base)
  /\ cal_dst_size_checked h w long_min short_min base
     = Some (cal_dst_size h w long_min short_min base)
  /\ cal_dst_size 3000 2000 960 640 32 = (3008, 2016).
Proof.
  intros B H W UH UW L S.
  assert (D : cal_dst_size_checked h w long_min short_min base
              = Some (cal_dst_size h w long_min short_min base)).
  { assert (K : cal_dst_size_checked h w long_min short_min base
                = Some (align_up h base, align_up w base)).
    { rewrite cal_dst_size_checked_edges.
      - rewrite !align_up_checked_defined by (unfold Int32.min_int; lia). reflexivity.
      - apply andb_true_intro. split; apply Z.gtb_lt; lia. }
    rewrite K. f_equal. symmetry. apply cal_dst_size_checked_sound, K. }
  rewrite cal_dst_size_edges in *. unfold edge_targets in *.
  destruct (align_up_rounded_up h base B H UH) as [Rh Bh].
  destruct (align_up_rounded_up w base B W UW) as [Rw Bw].
  revert D.
  replace (Z.max h w >? long_min) with true by (symmetry; apply Z.gtb_lt; lia).
  replace (Z.min h w >? short_min) with true by (symmetry; apply Z.gtb_lt; lia).
  cbn [andb fst snd]. intros D.
  destruct (Z.gtb_spec h w); cbn [fst snd] in *.
  - rewrite Z.max_l, Z.min_r in * by lia.
    repeat split; try apply Rh; try apply Rw; assumption.
  - rewrite Z.max_r, Z.min_l in * by lia.
    repeat split; try apply Rh; try apply Rw; assumption.
Qed.

Lemma dual_no_upscale_witness :
  rounded_up 32 3000 (fst (cal_dst_size 3000 2000 960 640 32))
  /\ rounded_up 32 2000 (snd (cal_dst_size 3000 2000 960 640 32))
  /\ 32 <= fst (cal_dst_size 3000 2000 960 640 32)
  /\ 32 <= snd (cal_dst_size 3000 2000 960 640 32)
  /\ cal_dst_size_checked 3000 2000 960 640 32
     = Some (cal_dst_size 3000 2000 960 640 32)
  /\ cal_dst_size 3000 2000 960 640 32 = (3008, 2016).
Proof.
  apply (dual_no_upscale 3000 2000 960 640 32); unfold Int32.max_int; lia.
Defined.

(** The two scaling cases of [cal_dst_size], in binary32.  When the
    no-upscale condition fails, the ratio of the long to the short edge is
    compared with [long_min / short_min].  If it is larger, the short edge
    becomes [short_min] and the long edge [scale_ceil short_min cur_short
    cur_long]; otherwise the long edge becomes [long_min] and the short
    edge [scale_ceil long_min cur_long cur_short].  Each of the two is then
    passed through [align_up], which, for an edge that does not overflow,
    is the rounding up to a multiple of [base], floored at [base]. *)
Lemma dual_threshold_scaling (h w long_min short_min base : Z) :
  (Z.max h w >? long_min) && (Z.min h w >? short_min) = false ->
  let cur_long := Z.max h w in
  let cur_short := Z.min h w in
  let d := cal_dst_size h w long_min short_min base in
  let dst_long := if h >? w then fst d else snd d in
  let dst_short := if h >? w then snd d else fst d in
  (if F32.ltb (base_ratio long_min short_min) (cur_ratio cur_long cur_short)
   then dst_short = align_up short_min base
        /\ dst_long = align_up (scale_ceil short_min cur_short cur_long) base
   else dst_long = align_up long_min base
        /\ dst_short = align_up (scale_ceil long_min cur_long cur_short) base)
  /\ (forall x, 0 < base -> Int32.min_int <= x -> x + base <= Int32.max_int ->
        exists y, rounded_up base x y /\ align_up x base = Z.max y base).
Proof.
  intros C. cbv zeta. split.
  - rewrite cal_dst_size_edges. unfold edge_targets. rewrite C.
    destruct (F32.ltb _ _); destruct (h >? w); cbn [fst snd]; split; reflexivity.
  - intros x B L U. exists (base * ((x + base - 1) / base)).
    split; [apply ceil_multiple; exact B | apply align_up_spec; assumption].
Qed.

Lemma dual_threshold_scaling_100_300 :
  let d := cal_dst_size 100 300 960 640 32 in
  (fst d = align_up 640 32 /\ snd d = align_up (scale_ceil 640 100 300) 32)
  /\ d = (640, 1920).
Proof.
  split; [| reflexivity].
  exact (proj1 (dual_threshold_scaling 100 300 960 640 32 eq_refl)).
Defined.

(** For positive edges and thresholds below 2^15 = 32768 no step of
    [cal_dst_size] is undefined: no [int] overflows and every float that
    is converted is an [int]. *)
Lemma cal_dst_size_defined (h w long_min short_min base : Z) :
  0 < h < 2 ^ 15 -> 0 < w < 2 ^ 15 ->
  0 < long_min < 2 ^ 15 -> 0 < short_min < 2 ^ 15 -> 0 < base < 2 ^ 30 ->
  cal_dst_size_checked h w long_min short_min base
  = Some (cal_dst_size h w long_min short_min base).
Proof.
  intros H W L S B. unfold cal_dst_size_checked, cal_dst_size.
  rewrite orient_max_min.
  assert (Cl : 0 < Z.max h w < 2 ^ 15) by lia.
  assert (Cs : 0 < Z.min h w < 2 ^ 15) by lia.
  set (cl := Z.max h w) in *. set (cs := Z.min h w) in *.
  change (2 ^ 15) with 32768 in *. change (2 ^ 30) with 1073741824 in *.
  assert (A : forall x, 0 < x <= 1073741824 ->
            align_up_checked x base = Some (align_up x base)).
  { intros x X. apply align_up_checked_defined; unfold Int32.min_int, Int32.max_int; lia. }
  destruct ((cl >? long_min) && (cs >? short_min)).
  - destruct (negb (h >? w)); rewrite !A by lia; reflexivity.
  - destruct (F32.ltb _ _).
    + destruct (F32Facts.scaled_ceil_defined short_min cs cl) as (v & E1 & E2 & V);
        try (change (2 ^ 15) with 32768; lia).
      change (2 ^ 30) with 1073741824 in V.
      rewrite E1, E2. cbn [mbind option_bind].
      destruct (negb (h >? w)); cbn [fst snd]; rewrite !A by lia; reflexivity.
    + destruct (F32Facts.scaled_ceil_defined long_min cl cs) as (v & E1 & E2 & V);
        try (change (2 ^ 15) with 32768; lia).
      change (2 ^ 30) with 1073741824 in V.
      rewrite E1, E2. cbn [mbind option_bind].
      destruct (negb (h >? w)); cbn [fst snd]; rewrite !A by lia; reflexivity.
Qed.

(** C3, at the failing input.  For a 400 x 400 image under 960 / 640 / 32
    the long edge becomes [long_min = 960] and the short edge is scaled by
    960 / 400: the exact product is 960 and so is its ceiling.  In binary32
    the quotient 960 / 400 is rounded to 10066330 * 2^-22, a little above
    2.4; its product with 400 is 4026532000 * 2^-22, which lies between the
    neighbouring floats 960 = 15728640 * 2^-14 and 15728641 * 2^-14, above
    their midpoint, and is rounded to the latter.  Its ceiling is 961,
    which is aligned to 992. *)
Theorem square_400_scaled_edge :
  (Z.max 400 400 >? 960) && (Z.min 400 400 >? 640) = false
  /\ F32.ltb (base_ratio 960 640) (cur_ratio 400 400) = false
  /\ scale_ceil_exact 960 400 400 = 960
  /\ F32.div (F32.of_int 960) (F32.of_int 400) = S754_finite false 10066330 (-22)
  /\ F32.mul (S754_finite false 10066330 (-22)) (F32.of_int 400)
     = S754_finite false 15728641 (-14)
  /\ F32.of_int 960 = S754_finite false 15728640 (-14)
  /\ F32.ceil (S754_finite false 15728641 (-14)) = F32.of_int 961
  /\ scale_ceil 960 400 400 = 961
  /\ cal_dst_size_checked 400 400 960 640 32 = Some (992, 960)
  /\ cal_dst_size 400 400 960 640 32 = (992, 960)
  /\ dual_threshold_exact 400 400 960 640 32 = (960, 960).
Proof. repeat split; reflexivity. Qed.

(** C4.  A square image takes the [else] branch of the orientation test:
    [swap] is true, so the width gets the target of the long edge and the
    height the target of the short edge; so it is for h = w = 500. *)
Theorem square_is_width_class (s long_min short_min base : Z) :
  orient s s = (s, s, true)
  /\ cal_dst_size s s long_min short_min base
     = (align_up (snd (edge_targets s s long_min short_min)) base,
        align_up (fst (edge_targets s s long_min short_min)) base)
  /\ orient 500 500 = (500, 500, true)
  /\ cal_dst_size 500 500 960 640 32 = (960, 960).
Proof.
  split; [| split; [| split; reflexivity]].
  - unfold orient. rewrite Z.gtb_ltb, Z.ltb_irrefl. reflexivity.
  - rewrite cal_dst_size_edges, Z.max_id, Z.min_id.
    rewrite Z.gtb_ltb, Z.ltb_irrefl. reflexivity.
Qed.





(** In exact arithmetic the dual-threshold policy keeps the orientation:
    the target of the long edge is at least the target of the short
    edge. *)
Lemma round_up_floor_mono (base x y : Z) :
  0 < base -> x <= y -> round_up_floor base x <= round_up_floor base y.
Proof.
  intros B L. unfold round_up_floor. apply Z.max_le_compat_r.
  apply Z.mul_le_mono_nonneg_l; [lia |]. apply Z.div_le_mono; lia.
Qed.

Lemma edge_targets_exact_ordered (cur_long cur_short long_min short_min : Z) :
  0 < cur_short <= cur_long -> 0 < long_min -> 0 < short_min ->
  snd (edge_targets_exact cur_long cur_short long_min short_min)
  <= fst (edge_targets_exact cur_long cur_short long_min short_min).
Proof.
  intros C L S. unfold edge_targets_exact, scale_ceil_exact.
  destruct ((cur_long >? long_min) && (cur_short >? short_min)); cbn [fst snd]; [lia |].
  destruct (cur_long * short_min >? long_min * cur_short); cbn [fst snd].
  - apply Z.div_le_lower_bound; nia.
  - assert ((cur_short * long_min + cur_long - 1) / cur_long < long_min + 1); [| lia].
    apply Z.div_lt_upper_bound; nia.
Qed.

Lemma dual_threshold_exact_orientation (h w long_min short_min base : Z) :
  0 < h -> 0 < w -> 0 < long_min -> 0 < short_min -> 0 < base ->
  let d := dual_threshold_exact h w long_min short_min base in
  (h <= w -> fst d <= snd d) /\ (w < h -> snd d <= fst d).
Proof.
  intros H W L S B. cbv zeta. unfold dual_threshold_exact.
  pose proof (edge_targets_exact_ordered (Z.max h w) (Z.min h w) long_min short_min
                ltac:(lia) L S) as O.
  pose proof (round_up_floor_mono base _ _ B O) as M.
  destruct (Z.gtb_spec h w); cbn [fst snd]; split; intros; (lia || exact M).
Qed.

(** C10, at the failing input: a 400 x 400 image under 960 / 640 / 32 gets
    the height 992 and the width 960, so the width, which is the long edge
    of the (square) source, is the shorter edge of the target. *)
Theorem square_400_loses_orientation :
  400 >= 400
  /\ cal_dst_size_checked 400 400 960 640 32 = Some (992, 960)
  /\ cal_dst_size 400 400 960 640 32 = (992, 960)
  /\ ~ (snd (cal_dst_size 400 400 960 640 32) >= fst (cal_dst_size 400 400 960 640 32))
  /\ dual_threshold_exact 400 400 960 640 32 = (960, 960).
Proof.
  split; [lia | split; [reflexivity | split; [reflexivity | split; [| reflexivity]]]].
  change (cal_dst_size 400 400 960 640 32) with (992, 960). cbn [fst snd]. lia.
Qed.

(** The same happens for other common square sizes. *)
Lemma square_targets_not_square :
  Forall (fun s => cal_dst_size_checked s s 960 640 32 = Some (992, 960)
                   /\ dual_threshold_exact s s 960 640 32 = (960, 960))
    [100; 200; 400; 800; 900].
Proof. repeat constructor. Qed.

(** ** The batch pipeline *)

Section PipelineFacts.

Context {FDTensor : Type}.
Variable resample : FDMat -> Z -> Z -> Z -> Z -> pixel.
Variable normalize_and_permute : NormalizeAndPermute -> list FDMat -> list FDMat.
Variable Tensor : list FDMat -> FDTensor.

Lemma for_each_app {S : Type} (l1 l2 : list nat) (acc : S) (body : nat -> S -> M S)
  (w : World) :
  for_each (l1 ++ l2) acc body w
  = for_each l2 (fst (for_each l1 acc body w)) body (snd (for_each l1 acc body w)).
Proof.
  revert acc w. induction l1 as [| i l1 IH]; intros acc w; [reflexivity |].
  cbn [for_each app]. unfold mbind, M_bind.
  destruct (body i acc w) as [a w']. apply IH.
Qed.

Lemma for_each_snoc {S : Type} (l : list nat) (i : nat) (acc : S)
  (body : nat -> S -> M S) (w : World) :
  for_each (l ++ [i]) acc body w
  = body i (fst (for_each l acc body w)) (snd (for_each l acc body w)).
Proof.
  rewrite for_each_app. cbn [for_each]. unfold mbind, M_bind, mret, M_ret.
  destruct (body i _ _) as [a w']. reflexivity.
Qed.

(** *** The first loop *)

Lemma info_step_run (i : nat) (acc : Z * Z) (w : World) (mat : FDMat) :
  mats w !! i = Some mat ->
  info_step i acc w
  = ((Z.max (fst acc) (at2 (OcrDetectorGetInfo (config (self w)) mat)),
      Z.max (snd acc) (at3 (OcrDetectorGetInfo (config (self w)) mat))),
     with_info w (<[i := OcrDetectorGetInfo (config (self w)) mat]>
                    (batch_det_img_info_ (self w)))).
Proof.
  intros L. unfold info_step, mbind, M_bind, get_world. rewrite L. reflexivity.
Qed.

Lemma batch_max_snoc (proj : int4 -> Z) (infos : list int4) (info : int4) :
  batch_max proj (infos ++ [info]) = Z.max (batch_max proj infos) (proj info).
Proof. unfold batch_max. rewrite foldl_app. reflexivity. Qed.

Lemma first_loop_prefix (w : World) (k : nat) :
  let infos := map (OcrDetectorGetInfo (config (self w))) (mats w) in
  (k <= length (mats w))%nat ->
  for_each (seq 0 k) (0, 0) info_step
    (with_info w (replicate (length (mats w)) (0, 0, 0, 0)))
  = ((batch_max at2 (take k infos), batch_max at3 (take k infos)),
     with_info w (take k infos ++ replicate (length (mats w) - k) (0, 0, 0, 0))).
Proof.
  intros infos. induction k as [| k IH]; intros K.
  - cbn [seq for_each take app]. rewrite Nat.sub_0_r. reflexivity.
  - rewrite seq_S, for_each_snoc, IH by lia. cbn [fst snd Nat.add].
    destruct (lookup_lt_is_Some_2 (mats w) k ltac:(lia)) as [mat L].
    rewrite (info_step_run k _ _ mat) by exact L.
    cbn [fst snd with_info self config batch_det_img_info_].
    assert (T : take (S k) infos = take k infos ++ [OcrDetectorGetInfo (config (self w)) mat]).
    { apply take_S_r. unfold infos. rewrite list_lookup_fmap, L. reflexivity. }
    rewrite T, !batch_max_snoc. f_equal. unfold with_info. cbn [self config resize_op_ pad_op_ normalize_permute_op_ mats calls batch_det_img_info_].
    do 2 f_equal.
    assert (Lk : length (take k infos) = k).
    { rewrite length_take. unfold infos. rewrite length_map. lia. }
    rewrite insert_app_r_alt by lia. rewrite Lk, Nat.sub_diag.
    replace (length (mats w) - k)%nat with (S (length (mats w) - S k)) by lia.
    cbn [replicate]. rewrite <- app_assoc. reflexivity.
Qed.

Lemma first_loop (w : World) :
  let infos := map (OcrDetectorGetInfo (config (self w))) (mats w) in
  for_each (seq 0 (length (mats w))) (0, 0) info_step
    (with_info w (replicate (length (mats w)) (0, 0, 0, 0)))
  = ((batch_max at2 infos, batch_max at3 infos), with_info w infos).
Proof.
  intros infos. rewrite first_loop_prefix by lia. fold infos.
  assert (Li : length infos = length (mats w)) by (unfold infos; apply length_map).
  rewrite firstn_all2 by lia. rewrite Nat.sub_diag. cbn [replicate].
  rewrite app_nil_r. reflexivity.
Qed.

(** *** [ResizeImage] and the second loop *)

Lemma ResizeImage_run (i : nat) (rw rh mw mh : Z) (w : World) (mat : FDMat) :
  mats w !! i = Some mat ->
  ResizeImage resample i rw rh mw mh w
  = (true,
     {| self := {| config := config (self w);
                   resize_op_ := {| width_ := rw; height_ := rh |};
                   pad_op_ := pad_for (value_ (pad_op_ (self w))) mw mh (0, 0, rw, rh);
                   normalize_permute_op_ := normalize_permute_op_ (self w);
                   batch_det_img_info_ := batch_det_img_info_ (self w) |};
        mats := <[i := resize_pad resample (value_ (pad_op_ (self w))) mw mh mat
                          (0, 0, rw, rh)]> (mats w);
        calls := calls w ++ calls_for (value_ (pad_op_ (self w))) mw mh i (0, 0, rw, rh) |}).
Proof.
  intros L.
  assert (I : (i < length (mats w))%nat) by (apply lookup_lt_is_Some; eauto).
  unfold ResizeImage, call_resize, call_pad, mbind, M_bind, mret, M_ret, get_world,
    set_resize_op, set_pad_op, set_mats, log.
  cbn [with_resize_op with_pad_op with_mats with_call self mats calls].
  rewrite L.
  cbn [with_resize_op with_pad_op with_mats with_call self mats calls
       resize_op_ pad_op_ config normalize_permute_op_ batch_det_img_info_].
  rewrite list_lookup_insert_eq by exact I.
  cbn [with_resize_op with_pad_op with_mats with_call self mats calls
       resize_op_ pad_op_ config normalize_permute_op_ batch_det_img_info_
       SetWidthAndHeight SetPaddingSize width_ height_ top_ bottom_ left_ right_ value_].
  rewrite list_insert_insert_eq.
  unfold with_call, with_mats, with_pad_op, with_resize_op.
  cbn [self mats calls resize_op_ pad_op_ config normalize_permute_op_
       batch_det_img_info_].
  rewrite <- app_assoc. reflexivity.
Qed.

Lemma second_loop_prefix (mw mh : Z) (w : World) (k : nat) :
  let infos := batch_det_img_info_ (self w) in
  let v := value_ (pad_op_ (self w)) in
  length infos = length (mats w) ->
  (k <= length (mats w))%nat ->
  let r := for_each (seq 0 k) tt (resize_step resample mw mh) w in
  config (self (snd r)) = config (self w)
  /\ batch_det_img_info_ (self (snd r)) = infos
  /\ normalize_permute_op_ (self (snd r)) = normalize_permute_op_ (self w)
  /\ value_ (pad_op_ (self (snd r))) = v
  /\ mats (snd r)
     = zip_with (resize_pad resample v mw mh) (take k (mats w)) (take k infos)
       ++ drop k (mats w)
  /\ calls (snd r) = calls w ++ concat (imap (calls_for v mw mh) (take k infos)).
Proof.
  intros infos v Li. induction k as [| k IH]; intros K; cbv zeta.
  - cbn. rewrite drop_0, app_nil_r. repeat split; reflexivity.
  - specialize (IH ltac:(lia)). cbv zeta in IH.
    rewrite seq_S, for_each_snoc. cbn [Nat.add].
    destruct (for_each (seq 0 k) tt (resize_step resample mw mh) w) as [[] wk].
    cbn [fst snd] in *. destruct IH as (Ic & Ii & In & Iv & Im & Il).
    destruct (lookup_lt_is_Some_2 (mats w) k ltac:(lia)) as [mat L].
    destruct (lookup_lt_is_Some_2 infos k ltac:(lia)) as [info L'].
    assert (Lz : length (zip_with (resize_pad resample v mw mh) (take k (mats w))
                           (take k infos)) = k).
    { rewrite length_zip_with, !length_take. lia. }
    assert (Lk : mats wk !! k = Some mat).
    { rewrite Im, lookup_app_r by lia. rewrite Lz, Nat.sub_diag, lookup_drop, Nat.add_0_r.
      exact L. }
    unfold resize_step, mbind, M_bind, mret, M_ret, get_world.
    rewrite Ii, L'. cbn [default].
    rewrite (ResizeImage_run k _ _ _ _ wk mat Lk).
    cbn [snd self mats calls config batch_det_img_info_ normalize_permute_op_ pad_op_
         pad_for value_].
    rewrite Ic, Ii, In, Iv.
    repeat split.
    + rewrite Im, insert_app_r_alt by lia. rewrite Lz, Nat.sub_diag.
      rewrite (drop_S (mats w) mat k L). cbn [list_insert].
      rewrite (take_S_r (mats w) k mat L), (take_S_r infos k info L').
      rewrite zip_with_app by (rewrite !length_take; lia).
      rewrite <- app_assoc. reflexivity.
    + rewrite Il, (take_S_r infos k info L'), imap_app, concat_app, <- app_assoc.
      do 2 f_equal. cbn [imap concat]. rewrite app_nil_r, length_take.
      replace (k `min` length infos + 0)%nat with k by lia. reflexivity.
Qed.

(** *** [Apply] *)

(** What one call of [Apply] does, as a function of the world before. *)
Lemma Apply_run (w : World) :
  let cfg := config (self w) in
  let infos := map (OcrDetectorGetInfo cfg) (mats w) in
  let mw := batch_max at2 infos in
  let mh := batch_max at3 infos in
  let v := value_ (pad_op_ (self w)) in
  let padded := zip_with (resize_pad resample v mw mh) (mats w) infos in
  let gate := negb (disable_normalize_ cfg) && negb (disable_permute_ cfg) in
  let op := normalize_permute_op_ (self w) in
  let r := Apply resample normalize_and_permute Tensor w in
  fst r = (true, [Tensor (mats (snd r))])
  /\ config (self (snd r)) = cfg
  /\ batch_det_img_info_ (self (snd r)) = infos
  /\ value_ (pad_op_ (self (snd r))) = v
  /\ mats (snd r) = (if gate then normalize_and_permute op padded else padded)
  /\ calls (snd r)
     = calls w ++ concat (imap (calls_for v mw mh) infos)
       ++ (if gate then [CallNormalizeAndPermute op] else []).
Proof.
  intros cfg infos mw mh v padded gate op.
  assert (Li : length infos = length (mats w)) by (unfold infos; apply length_map).
  unfold Apply, mbind, M_bind, get_world, set_info.
  pose proof (first_loop w) as F1. cbv zeta in F1. fold cfg infos mw mh in F1.
  rewrite F1. cbn [fst snd].
  pose proof (second_loop_prefix mw mh (with_info w infos) (length (mats w))) as F2.
  cbv zeta in F2.
  cbn [with_info self mats calls config batch_det_img_info_ normalize_permute_op_ pad_op_]
    in F2.
  specialize (F2 Li ltac:(lia)).
  destruct (for_each (seq 0 (length (mats w))) tt (resize_step resample mw mh)
              (with_info w infos)) as [[] w2].
  cbn [snd] in F2. destruct F2 as (Fc & Fi & Fn & Fv & Fm & Fl).
  rewrite firstn_all in Fm. rewrite <- Li, firstn_all in Fm, Fl.
  rewrite Li, drop_all, app_nil_r in Fm. fold v padded in Fm. fold v in Fl, Fv.
  rewrite Fc, Fn. fold cfg gate op.
  destruct gate; cbn.
  - repeat split; try assumption.
    + rewrite Fm. reflexivity.
    + rewrite Fl, <- app_assoc. reflexivity.
  - repeat split; try assumption.
    rewrite Fl, app_nil_r. reflexivity.
Qed.

Lemma batch_max_bounds (proj : int4 -> Z) (infos : list int4) :
  0 <= batch_max proj infos
  /\ (forall info, info ∈ infos -> proj info <= batch_max proj infos).
Proof.
  induction infos as [| info infos [IH0 IH]] using rev_ind.
  - split; [reflexivity | intros info H; inversion H].
  - rewrite batch_max_snoc. split; [lia |].
    intros x H. apply elem_of_app in H as [H | H].
    + specialize (IH x H). lia.
    + apply list_elem_of_singleton in H as ->. lia.
Qed.

Lemma batch_max_le (proj : int4 -> Z) (infos : list int4) (b : Z) :
  0 <= b -> (forall info, info ∈ infos -> proj info <= b) -> batch_max proj infos <= b.
Proof.
  intros B. induction infos as [| info infos IH] using rev_ind; intros H.
  - exact B.
  - rewrite batch_max_snoc.
    assert (proj info <= b) by (apply H, elem_of_app; right; apply list_elem_of_singleton; reflexivity).
    assert (batch_max proj infos <= b) by (apply IH; intros x Hx; apply H, elem_of_app; left; exact Hx).
    lia.
Qed.

Lemma targets_range (c : Config) (mat : FDMat) :
  fixed_shape_ok c = true ->
  0 <= at2 (OcrDetectorGetInfo c mat) <= Int32.max_int
  /\ 0 <= at3 (OcrDetectorGetInfo c mat) <= Int32.max_int.
Proof.
  unfold fixed_shape_ok, OcrDetectorGetInfo. intros H.
  destruct (static_shape_infer_ c); cbn [negb orb at2 at3 fst snd] in *.
  - apply andb_prop in H as [H H4]. apply andb_prop in H as [H H3].
    apply andb_prop in H as [H1 H2].
    apply Z.leb_le in H1, H2, H3, H4. lia.
  - rewrite cal_dst_size_edges.
    destruct (Height mat >? Width mat); cbn [fst snd];
      split; match goal with |- _ <= align_up ?x 32 <= _ =>
               pose proof (align_up_32 x) end; lia.
Qed.

(** Each padding amount is the distance to the batch maximum, without
    wrap-around, and not negative. *)
Lemma padding_amounts (w : World) (info : int4) :
  let infos := map (OcrDetectorGetInfo (config (self w))) (mats w) in
  fixed_shape_ok (config (self w)) = true ->
  info ∈ infos ->
  Int32.sub (batch_max at2 infos) (at2 info) = batch_max at2 infos - at2 info
  /\ Int32.sub (batch_max at3 infos) (at3 info) = batch_max at3 infos - at3 info
  /\ 0 <= batch_max at2 infos - at2 info
  /\ 0 <= batch_max at3 infos - at3 info.
Proof.
  intros infos Ok I.
  assert (R : forall x, x ∈ infos ->
            0 <= at2 x <= Int32.max_int /\ 0 <= at3 x <= Int32.max_int).
  { intros x Hx. apply list_elem_of_fmap in Hx as (mat & -> & _).
    apply targets_range. exact Ok. }
  destruct (batch_max_bounds at2 infos) as [_ G2].
  destruct (batch_max_bounds at3 infos) as [_ G3].
  assert (batch_max at2 infos <= Int32.max_int).
  { apply batch_max_le; [unfold Int32.max_int; lia |]. intros x Hx. apply R, Hx. }
  assert (batch_max at3 infos <= Int32.max_int).
  { apply batch_max_le; [unfold Int32.max_int; lia |]. intros x Hx. apply R, Hx. }
  specialize (G2 info I). specialize (G3 info I). destruct (R info I).
  unfold Int32.sub.
  rewrite !Int32Facts.wrap_id by (unfold Int32.min_int, Int32.max_int in *; lia).
  lia.
Qed.

(** C6.  The batch maximum of the widths and of the heights is at least
    every image's target, and every image, resized to its target and padded
    in [ResizeImage], has exactly the batch maximum as its width and
    height; these images, in batch order, are what [Apply] leaves in the
    batch, after the batched normalisation when it runs.  In static mode
    the configured height and width are taken to be non-negative. *)
Theorem batch_padded_to_maximum (w : World) :
  let cfg := config (self w) in
  let infos := map (OcrDetectorGetInfo cfg) (mats w) in
  let mw := batch_max at2 infos in
  let mh := batch_max at3 infos in
  let padded := zip_with (resize_pad resample (value_ (pad_op_ (self w))) mw mh)
                  (mats w) infos in
  let after := snd (Apply resample normalize_and_permute Tensor w) in
  fixed_shape_ok cfg = true ->
  (forall i mat, mats w !! i = Some mat ->
     at2 (OcrDetectorGetInfo cfg mat) <= mw /\ at3 (OcrDetectorGetInfo cfg mat) <= mh)
  /\ length padded = length (mats w)
  /\ (forall i mat, padded !! i = Some mat -> Width mat = mw /\ Height mat = mh)
  /\ mats after
     = (if negb (disable_normalize_ cfg) && negb (disable_permute_ cfg)
        then normalize_and_permute (normalize_permute_op_ (self w)) padded
        else padded).
Proof.
  intros cfg infos mw mh padded after Ok.
  assert (Li : length infos = length (mats w)) by (unfold infos; apply length_map).
  split; [| split; [| split]].
  - intros i mat L.
    assert (I : OcrDetectorGetInfo cfg mat ∈ infos).
    { apply list_elem_of_fmap. exists mat. split; [reflexivity |].
      apply list_elem_of_lookup. exists i. exact L. }
    destruct (batch_max_bounds at2 infos) as [_ G2].
    destruct (batch_max_bounds at3 infos) as [_ G3].
    split; [apply G2 | apply G3]; exact I.
  - unfold padded. rewrite length_zip_with. lia.
  - intros i p L. apply lookup_zip_with_Some in L as (mat & info & -> & Lm & Lf).
    assert (I : info ∈ infos) by (apply list_elem_of_lookup; exists i; exact Lf).
    destruct (padding_amounts w info Ok I) as (E2 & E3 & _ & _).
    fold cfg infos mw mh in E2, E3.
    unfold resize_pad, Pad_run, Resize_run, pad_for.
    cbn [Width Height top_ bottom_ left_ right_ width_ height_].
    rewrite E2, E3. lia.
  - destruct (Apply_run w) as (_ & _ & _ & _ & Fm & _). exact Fm.
Qed.

Lemma In_image_calls (v : list F32.float) (mw mh : Z) (infos : list int4) (c : Call) :
  In c (concat (imap (calls_for v mw mh) infos)) ->
  exists i info, infos !! i = Some info
    /\ (c = CallResize i (at2 info) (at3 info)
        \/ c = CallPad i 0 (Int32.sub mh (at3 info)) 0 (Int32.sub mw (at2 info)) v).
Proof.
  intros H. apply in_concat in H as (l & Hl & Hc).
  apply list_elem_of_In, elem_of_lookup_imap in Hl as (i & info & -> & L).
  exists i, info. split; [exact L |].
  cbn in Hc. destruct Hc as [<- | [<- | []]]; [left | right]; reflexivity.
Qed.

Lemma length_concat_pairs {A B : Type} (f : nat -> A -> list B) (l : list A) :
  (forall i x, length (f i x) = 2%nat) ->
  length (concat (imap f l)) = (2 * length l)%nat.
Proof.
  revert f. induction l as [| x l IH]; intros f H; [reflexivity |].
  cbn [imap concat]. rewrite length_app, H, IH by (intros i y; apply H).
  cbn [length]. lia.
Qed.

Lemma length_image_calls (v : list F32.float) (mw mh : Z) (infos : list int4) :
  length (concat (imap (calls_for v mw mh) infos)) = (2 * length infos)%nat.
Proof. apply length_concat_pairs. intros i x. reflexivity. Qed.

(** C7.  Every pad call [Apply] makes has top and left padding 0, bottom
    and right padding equal to the batch maximum minus the image's target
    height and width, neither negative, and the fill value of [pad_op_],
    which the constructor sets to three zeros and [Apply] never changes.
    The padded image shows the resized image at the same rows and columns
    and the fill value everywhere else.  In static mode the configured
    height and width are taken to be non-negative. *)
Theorem padding_bottom_right_only (w : World) :
  let cfg := config (self w) in
  let infos := map (OcrDetectorGetInfo cfg) (mats w) in
  let mw := batch_max at2 infos in
  let mh := batch_max at3 infos in
  let after := snd (Apply resample normalize_and_permute Tensor w) in
  fixed_shape_ok cfg = true ->
  value_ (pad_op_ (self w)) = zero3 ->
  (forall c, value_ (pad_op_ (DBDetectorPreprocessor_new c)) = zero3)
  /\ value_ (pad_op_ (self after)) = zero3
  /\ (exists new, calls after = calls w ++ new
      /\ forall i t b l r v, In (CallPad i t b l r v) new ->
           t = 0 /\ l = 0 /\ v = zero3
           /\ exists mat, mats w !! i = Some mat
                /\ b = mh - at3 (OcrDetectorGetInfo cfg mat)
                /\ r = mw - at2 (OcrDetectorGetInfo cfg mat)
                /\ 0 <= b /\ 0 <= r)
  /\ (forall i mat, mats w !! i = Some mat ->
        let info := OcrDetectorGetInfo cfg mat in
        let p := resize_pad resample zero3 mw mh mat info in
        zip_with (resize_pad resample zero3 mw mh) (mats w) infos !! i = Some p
        /\ forall r c,
             pixel_at p r c
             = if (0 <=? r) && (r <? at3 info) && (0 <=? c) && (c <? at2 info)
               then resample mat (at2 info) (at3 info) r c
               else zero3).
Proof.
  intros cfg infos mw mh after Ok V.
  destruct (Apply_run w) as (_ & _ & _ & Fv & _ & Fl).
  fold cfg infos mw mh after in Fv, Fl. rewrite V in Fv, Fl.
  split; [intros c; reflexivity | split; [exact Fv | split]].
  - eexists. split; [exact Fl |].
    intros i t b l r v H. apply in_app_or in H as [H | H].
    + apply In_image_calls in H as (j & info & L & [H | H]); [discriminate H |].
      injection H as -> -> -> -> -> ->.
      assert (I : info ∈ infos) by (apply list_elem_of_lookup; exists j; exact L).
      destruct (padding_amounts w info Ok I) as (E2 & E3 & P2 & P3).
      fold cfg infos mw mh in E2, E3, P2, P3.
      unfold infos in L. rewrite list_lookup_fmap in L.
      destruct (mats w !! j) as [mat |] eqn:Lm; [| discriminate L].
      injection L as <-.
      repeat split; try reflexivity. exists mat. rewrite E2, E3.
      repeat split; (reflexivity || assumption).
    + destruct (negb (disable_normalize_ cfg) && negb (disable_permute_ cfg));
        [destruct H as [H | []]; discriminate H | destruct H].
  - intros i mat L info p. split.
    + apply lookup_zip_with_Some. exists mat, info. split; [reflexivity |].
      split; [exact L |]. unfold infos. rewrite list_lookup_fmap, L. reflexivity.
    + intros r c. unfold p, resize_pad, Pad_run, Resize_run, pad_for.
      cbn [pixel_at Width Height top_ left_ width_ height_ value_].
      rewrite !Z.add_0_l, !Z.sub_0_r. reflexivity.
Qed.


(** C9 (as amended).  After the resize and pad calls of all images,
    [Apply] runs the fused normalise-and-permute operator on the whole
    batch once when neither [disable_normalize_] nor [disable_permute_] is
    set, and not at all when either is set. *)
Theorem normalize_permute_gate (w : World) :
  let cfg := config (self w) in
  let infos := map (OcrDetectorGetInfo cfg) (mats w) in
  let mw := batch_max at2 infos in
  let mh := batch_max at3 infos in
  let v := value_ (pad_op_ (self w)) in
  let padded := zip_with (resize_pad resample v mw mh) (mats w) infos in
  let op := normalize_permute_op_ (self w) in
  let after := snd (Apply resample normalize_and_permute Tensor w) in
  let image_calls := concat (imap (calls_for v mw mh) infos) in
  (forall op', ~ In (CallNormalizeAndPermute op') image_calls)
  /\ length image_calls = (2 * length (mats w))%nat
  /\ (if negb (disable_normalize_ cfg) && negb (disable_permute_ cfg)
      then calls after = calls w ++ image_calls ++ [CallNormalizeAndPermute op]
           /\ mats after = normalize_and_permute op padded
      else calls after = calls w ++ image_calls
           /\ mats after = padded).
Proof.
  intros cfg infos mw mh v padded op after image_calls.
  destruct (Apply_run w) as (_ & _ & _ & _ & Fm & Fl).
  fold cfg infos mw mh v padded op after image_calls in Fm, Fl.
  split; [| split].
  - intros op' H. apply In_image_calls in H as (i & info & _ & [H | H]); discriminate H.
  - unfold image_calls. rewrite length_image_calls. unfold infos.
    rewrite length_map. reflexivity.
  - destruct (negb (disable_normalize_ cfg) && negb (disable_permute_ cfg)).
    + split; [exact Fl | exact Fm].
    + rewrite app_nil_r in Fl. split; [exact Fl | exact Fm].
Qed.

End PipelineFacts.

(** ** The pipeline on concrete batches *)

Lemma batch_padded_to_maximum_witness :
  let w := world_of (config_960_640 false false false 640)
             [blank 400 400; blank 3000 2000; blank 100 30] in
  let infos := map (OcrDetectorGetInfo (config (self w))) (mats w) in
  fixed_shape_ok (config (self w)) = true
  /\ infos = [(400, 400, 960, 992); (3000, 2000, 3008, 2016); (100, 30, 2144, 640)]
  /\ (forall i mat,
        zip_with (resize_pad nearest_resample zero3 3008 2016) (mats w) infos !! i
        = Some mat ->
        Width mat = 3008 /\ Height mat = 2016).
Proof.
  split; [reflexivity | split; [reflexivity |]].
  exact (proj1 (proj2 (proj2
           (batch_padded_to_maximum nearest_resample keep_batch (@length FDMat)
              (world_of (config_960_640 false false false 640)
                 [blank 400 400; blank 3000 2000; blank 100 30])
              eq_refl)))).
Defined.

Lemma padding_bottom_right_only_witness :
  let w := world_of (config_960_640 false false false 640)
             [blank 400 400; blank 3000 2000] in
  let after := snd (Apply nearest_resample keep_batch (@length FDMat) w) in
  (fixed_shape_ok (config (self w)) = true /\ value_ (pad_op_ (self w)) = zero3)
  /\ value_ (pad_op_ (self after)) = zero3
  /\ calls after
     = [CallResize 0 960 992; CallPad 0 0 1024 0 2048 zero3;
        CallResize 1 3008 2016; CallPad 1 0 0 0 0 zero3;
        CallNormalizeAndPermute (normalize_permute_op_ (self w))].
Proof.
  split; [split; reflexivity | split; [| reflexivity]].
  exact (proj1 (proj2
           (padding_bottom_right_only nearest_resample keep_batch (@length FDMat)
              (world_of (config_960_640 false false false 640)
                 [blank 400 400; blank 3000 2000])
              eq_refl eq_refl))).
Defined.


(** C9, the counterexample: with normalisation disabled and the
    permutation not disabled, [Apply] does not call the operator at all, so
    the layout permutation is not applied. *)
Lemma permute_skipped_without_normalize :
  let w := world_of (config_960_640 false true false 640) [blank 400 400] in
  let after := snd (Apply nearest_resample keep_batch (@length FDMat) w) in
  disable_normalize_ (config (self w)) = true
  /\ disable_permute_ (config (self w)) = false
  /\ calls after = [CallResize 0 960 992; CallPad 0 0 0 0 0 zero3]
  /\ (forall op, ~ In (CallNormalizeAndPermute op) (calls after)).
Proof.
  cbv zeta. split; [reflexivity | split; [reflexivity | split; [reflexivity |]]].
  intros op H.
  change (In (CallNormalizeAndPermute op)
            [CallResize 0 960 992; CallPad 0 0 0 0 0 zero3]) in H.
  destruct H as [H | [H | []]]; discriminate H.
Qed.

(** * Further properties of the code *)

(** ** The value of a binary32 product and quotient *)

Module F32Values.
Import F32 F32Aux F32Facts.

(** The value of a rounding that stays in the normal range: the result
    [m * 2 ^ (ex + j)] is within one unit in its last place of the input
    [mx * 2 ^ ex]. *)
Lemma bra_value (s : bool) (mx : positive) (ex : Z) (lx : location) :
  24 <= Zpos (digits2_pos mx) ->
  -125 <= Zpos (digits2_pos mx) + ex <= 127 ->
  exists (m : positive) (j : Z),
    binary_round_aux prec emax s (Zpos mx) ex lx = S754_finite s m (ex + j)
    /\ canon m /\ Zpos (digits2_pos mx) - 24 <= j
    /\ (Zpos m - 1) * 2 ^ j <= Zpos mx < (Zpos m + 1) * 2 ^ j.
Proof.
  intros D R. pose proof (digits_bounds mx) as B.
  set (d := Zpos (digits2_pos mx)) in *.
  rewrite bra_unfold. unfold shr_fexp. cbn [Zdigits2]. fold d.
  rewrite fexp_normal by lia.
  assert (P0 : 0 < 2 ^ (d - 24)) by (apply Z.pow_pos_nonneg; lia).
  assert (exists m1 l1,
    shr (shr_record_of_loc (Zpos mx) lx) ex (d + ex - 24 - ex)
    = (Build_shr_record m1 (fst l1) (snd l1), d + ex - 24)
    /\ 2 ^ 23 <= m1 < 2 ^ 24
    /\ m1 * 2 ^ (d - 24) <= Zpos mx < (m1 + 1) * 2 ^ (d - 24)) as (m1 & l1 & -> & M1 & V1).
  { destruct (Z.eq_dec d 24) as [E | N].
    - exists (Zpos mx).
      replace (d + ex - 24 - ex) with 0 by lia. cbn [shr].
      exists (shr_r (shr_record_of_loc (Zpos mx) lx), shr_s (shr_record_of_loc (Zpos mx) lx)).
      split; [| split].
      + f_equal; [| lia]. destruct lx as [| []]; reflexivity.
      + rewrite E in B. exact B.
      + rewrite E. change (2 ^ (24 - 24)) with 1. lia.
    - destruct (d + ex - 24 - ex) as [| k | k] eqn:K; try lia.
      cbn [shr].
      exists (shr_m (SpecFloat.iter_pos shr_1 k (shr_record_of_loc (Zpos mx) lx))).
      exists (shr_r (SpecFloat.iter_pos shr_1 k (shr_record_of_loc (Zpos mx) lx)),
              shr_s (SpecFloat.iter_pos shr_1 k (shr_record_of_loc (Zpos mx) lx))).
      split; [| split].
      + f_equal; [| lia].
        destruct (SpecFloat.iter_pos shr_1 k (shr_record_of_loc (Zpos mx) lx)); reflexivity.
      + rewrite shr_m_iter by (rewrite shr_m_of_loc; lia).
        rewrite shr_m_of_loc.
        assert (P : 2 ^ d = 2 ^ 24 * 2 ^ Zpos k)
          by (rewrite <- Z.pow_add_r by lia; f_equal; lia).
        assert (Q : 2 ^ (d - 1) = 2 ^ 23 * 2 ^ Zpos k)
          by (rewrite <- Z.pow_add_r by lia; f_equal; lia).
        assert (0 < 2 ^ Zpos k) by (apply Z.pow_pos_nonneg; lia).
        split.
        * apply Z.div_le_lower_bound; lia.
        * apply Z.div_lt_upper_bound; lia.
      + rewrite shr_m_iter by (rewrite shr_m_of_loc; lia).
        rewrite shr_m_of_loc.
        replace (d - 24) with (Zpos k) in * by lia.
        pose proof (Z.div_mod (Zpos mx) (2 ^ Zpos k) ltac:(lia)) as DM.
        pose proof (Z.mod_pos_bound (Zpos mx) (2 ^ Zpos k) P0) as MB.
        nia. }
  cbn [fst snd shr_m].
  set (l := loc_of_shr_record _).
  set (k := d - 24) in *.
  change (2 ^ 23) with 8388608 in M1. change (2 ^ 24) with 16777216 in M1.
  destruct (rne_bounds m1 l) as [-> | ->].
  - destruct m1 as [| p |]; try lia.
    exists p, k. split; [| split; [| split]].
    + replace (ex + k) with (d + ex - 24) by (unfold k; lia).
      apply bra_tail_canon; [| lia]. apply digits_unique.
      change (2 ^ (24 - 1)) with 8388608. change (2 ^ 24) with 16777216. exact M1.
    + apply digits_unique.
      change (2 ^ (24 - 1)) with 8388608. change (2 ^ 24) with 16777216. exact M1.
    + lia.
    + nia.
  - destruct (Z.eq_dec (m1 + 1) 16777216) as [E | N].
    + exists 8388608%positive, (k + 1). split; [| split; [| split]].
      * rewrite E. rewrite bra_tail_carry by lia. f_equal. unfold k. lia.
      * reflexivity.
      * lia.
      * rewrite Z.pow_add_r by (unfold k; lia). change (2 ^ 1) with 2. nia.
    + destruct (m1 + 1) as [| p |] eqn:P; try lia.
      assert (M2 : 2 ^ (24 - 1) <= Zpos p < 2 ^ 24).
      { change (2 ^ (24 - 1)) with 8388608. change (2 ^ 24) with 16777216. lia. }
      exists p, k. split; [| split; [| split]].
      * replace (ex + k) with (d + ex - 24) by (unfold k; lia).
        apply bra_tail_canon; [| lia]. apply digits_unique. exact M2.
      * apply digits_unique. exact M2.
      * lia.
      * nia.
Qed.

Lemma mul_value (mx my : positive) (ex ey : Z) :
  canon mx -> canon my -> -100 <= ex + ey <= 50 ->
  exists (m : positive) (j : Z),
    mul (S754_finite false mx ex) (S754_finite false my ey)
    = S754_finite false m (ex + ey + j)
    /\ canon m /\ 23 <= j
    /\ (Zpos m - 1) * 2 ^ j <= Zpos mx * Zpos my < (Zpos m + 1) * 2 ^ j.
Proof.
  intros Cx Cy R. pose proof (canon_bounds mx Cx). pose proof (canon_bounds my Cy).
  unfold mul. cbn [SFmul xorb].
  pose proof (digits_bounds (mx * my)) as B. rewrite Pos2Z.inj_mul in B.
  set (d := Zpos (digits2_pos (mx * my))) in *.
  assert (46 < d).
  { destruct (Z.le_gt_cases d 46) as [L | G]; [exfalso | exact G].
    assert (2 ^ d <= 2 ^ 46) by (apply Z.pow_le_mono_r; lia).
    change (2 ^ 46) with (8388608 * 8388608) in *. nia. }
  assert (d <= 48).
  { destruct (Z.le_gt_cases d 48) as [L | G]; [exact L | exfalso].
    assert (2 ^ 48 <= 2 ^ (d - 1)) by (apply Z.pow_le_mono_r; lia).
    change (2 ^ 48) with (16777216 * 16777216) in *. nia. }
  destruct (bra_value false (mx * my) (ex + ey) loc_Exact) as (m & j & E & C & J & V);
    fold d; try lia.
  exists m, j. fold d in J. rewrite Pos2Z.inj_mul in V.
  split; [exact E | split; [exact C | split; [lia | exact V]]].
Qed.

Lemma div_value (m1 m2 : positive) (e1 e2 : Z) :
  canon m1 -> canon m2 -> -100 <= e1 - e2 <= 100 ->
  exists (m : positive) (j : Z),
    div (S754_finite false m1 e1) (S754_finite false m2 e2)
    = S754_finite false m (e1 - e2 - 24 + j)
    /\ canon m /\ 0 <= j
    /\ (Zpos m - 1) * 2 ^ j * Zpos m2 <= Zpos m1 * 2 ^ 24
       < (Zpos m + 1) * 2 ^ j * Zpos m2.
Proof.
  intros C1 C2 R. pose proof (canon_bounds m1 C1). pose proof (canon_bounds m2 C2).
  unfold div. cbn [SFdiv xorb].
  unfold SFdiv_core_binary. cbn [Zdigits2]. rewrite C1, C2.
  rewrite fexp_normal by lia.
  replace (Z.min (24 + e1 - (24 + e2) - 24) (e1 - e2)) with (e1 - e2 - 24) by lia.
  replace (e1 - e2 - (e1 - e2 - 24)) with 24 by lia.
  rewrite Z.shiftl_mul_pow2 by lia. change (2 ^ 24) with 16777216.
  pose proof (Z.div_eucl_eq (Zpos m1 * 16777216) (Zpos m2) ltac:(lia)) as E.
  pose proof (Z.mod_pos_bound (Zpos m1 * 16777216) (Zpos m2) ltac:(lia)) as B.
  unfold Z.modulo in B.
  destruct (Z.div_eucl (Zpos m1 * 16777216) (Zpos m2)) as [q r].
  assert (Q : 8388608 <= q < 33554432) by nia.
  destruct q as [| q |]; try lia.
  pose proof (digits_bounds q) as Dq.
  set (d := Zpos (digits2_pos q)) in *.
  assert (24 <= d).
  { destruct (Z.le_gt_cases 24 d) as [L | G]; [exact L | exfalso].
    assert (2 ^ d <= 2 ^ 23) by (apply Z.pow_le_mono_r; lia).
    change (2 ^ 23) with 8388608 in *. lia. }
  assert (d <= 25).
  { apply digits_le. change (2 ^ 25) with 33554432. lia. }
  destruct (bra_value false q (e1 - e2 - 24) (new_location (Zpos m2) r))
    as (m & j & E' & C & J & V); fold d; try lia.
  exists m, j. fold d in J.
  assert (0 < 2 ^ j) by (apply Z.pow_pos_nonneg; lia).
  split; [exact E' | split; [exact C | split; [lia |]]].
  split; nia.
Qed.


(** The two roundings of [fl(fl(a / b) * c)] chained, with all quantities
    scaled to integers. *)
Lemma chain_upper (b T D Jp N mr mc mp Q : Z) :
  0 < b -> 0 < T -> 0 < D -> 0 < Jp -> 0 < mc < 2 * Jp ->
  Jp * D = b * T -> N * mc = Q ->
  (mr - 1) * D <= N -> (mp - 1) * Jp <= mr * mc ->
  (mp - 1) * (b * T) < Q + 2 * (b * T).
Proof.
  intros B HT HD HJ Hmc E1 E2 L1 L2. rewrite <- E1, <- E2.
  assert (S1 : (mp - 1) * (Jp * D) <= mr * mc * D) by nia.
  assert (S2 : mr * mc * D <= mc * (N + D)) by nia.
  assert (S3 : mc * D < 2 * (Jp * D)) by nia.
  lia.
Qed.

Lemma chain_lower (b T D Jp N mr mc mp Q : Z) :
  0 < b -> 0 < T -> 0 < D -> 0 < Jp -> 0 < mc < 2 * Jp ->
  Jp * D = b * T -> N * mc = Q ->
  N < (mr + 1) * D -> mr * mc < (mp + 1) * Jp ->
  Q - 2 * (b * T) < (mp + 1) * (b * T).
Proof.
  intros B HT HD HJ Hmc E1 E2 L1 L2. rewrite <- E1, <- E2.
  assert (S1 : mr * mc * D < (mp + 1) * (Jp * D)) by nia.
  assert (S2 : mc * (N - D) < mr * mc * D) by nia.
  assert (S3 : mc * D < 2 * (Jp * D)) by nia.
  lia.
Qed.

(** An edge [c] scaled by the ratio [a / b] in binary32, when the exact
    result [a * c / b] is at most 2^21: the float product has a fractional
    part of [k >= 2] bits and is within [3 / 2 ^ k] of the exact result. *)
Lemma scaled_product_value (a b c : Z) :
  0 < a < 2 ^ 24 -> 0 < b < 2 ^ 24 -> 0 < c < 2 ^ 24 ->
  c * a <= 2 ^ 21 * b ->
  exists (m k : positive),
    mul (div (of_int a) (of_int b)) (of_int c) = S754_finite false m (Zneg k)
    /\ canon m /\ 2 <= Zpos k
    /\ a * c * 2 ^ Zpos k - 3 * b < Zpos m * b < a * c * 2 ^ Zpos k + 3 * b.
Proof.
  intros Ha Hb Hc X.
  destruct a as [| pa |]; try lia. destruct b as [| pb |]; try lia.
  destruct c as [| pc |]; try lia.
  destruct (of_int_small pa) as (-> & Ca & Va & Da); [lia |].
  destruct (of_int_small pb) as (-> & Cb & Vb & Db); [lia |].
  destruct (of_int_small pc) as (-> & Cc & Vc & Dc); [lia |].
  set (A := 24 - Zpos (digits2_pos pa)) in *.
  set (B := 24 - Zpos (digits2_pos pb)) in *.
  set (C := 24 - Zpos (digits2_pos pc)) in *.
  replace (Zpos (digits2_pos pa) - 24) with (- A) by (unfold A; lia).
  replace (Zpos (digits2_pos pb) - 24) with (- B) by (unfold B; lia).
  replace (Zpos (digits2_pos pc) - 24) with (- C) by (unfold C; lia).
  assert (RA : 0 <= A <= 23) by (unfold A; lia).
  assert (RB : 0 <= B <= 23) by (unfold B; lia).
  assert (RC : 0 <= C <= 23) by (unfold C; lia).
  clearbody A B C. clear Da Db Dc.
  destruct (div_value (shl24 pa) (shl24 pb) (- A) (- B))
    as (mr & jr & -> & Cr & Jr & Vr); try assumption; try lia.
  destruct (mul_value mr (shl24 pc) (- A - - B - 24 + jr) (- C))
    as (mp & jp & -> & Cp & Jp & Vp); try assumption.
  { pose proof (canon_bounds mr Cr). pose proof (canon_bounds _ Ca).
    pose proof (canon_bounds _ Cb).
    assert (0 < 2 ^ jr) by (apply Z.pow_pos_nonneg; lia).
    assert (jr <= 2).
    { destruct (Z.le_gt_cases jr 2) as [L | G]; [exact L | exfalso].
      assert (2 ^ 3 <= 2 ^ jr) by (apply Z.pow_le_mono_r; lia).
      change (2 ^ 3) with 8 in *. change (2 ^ 24) with 16777216 in *. nia. }
    lia. }
  pose proof (canon_bounds mr Cr) as Mr. pose proof (canon_bounds mp Cp) as Mp.
  pose proof (canon_bounds _ Cc) as Mc. pose proof (canon_bounds _ Cb) as Mb.
  set (ma := Zpos (shl24 pa)) in *. set (mb := Zpos (shl24 pb)) in *.
  set (mc := Zpos (shl24 pc)) in *.
  set (a := Zpos pa) in *. set (b := Zpos pb) in *. set (c := Zpos pc) in *.
  (* the scaled quantities *)
  set (T := 2 ^ (jp + jr + B)).
  assert (T0 : 0 < T) by (apply Z.pow_pos_nonneg; lia).
  assert (J0 : 0 < 2 ^ jp) by (apply Z.pow_pos_nonneg; lia).
  assert (R0 : 0 < 2 ^ jr) by (apply Z.pow_pos_nonneg; lia).
  assert (E1 : 2 ^ jp * (2 ^ jr * mb) = b * T).
  { unfold T. rewrite Vb, !Z.pow_add_r by lia. ring. }
  assert (E2 : ma * 2 ^ 24 * mc = a * c * 2 ^ (A + 24 + C)).
  { rewrite Va, Vc, !Z.pow_add_r by lia. ring. }
  assert (Hmc : 0 < mc < 2 * 2 ^ jp).
  { assert (2 ^ 23 <= 2 ^ jp) by (apply Z.pow_le_mono_r; lia).
    change (2 ^ 23) with 8388608 in *. lia. }
  assert (Vr1 : (Zpos mr - 1) * (2 ^ jr * mb) <= ma * 2 ^ 24) by lia.
  assert (Vr2 : ma * 2 ^ 24 < (Zpos mr + 1) * (2 ^ jr * mb)) by lia.
  pose proof (chain_upper b T (2 ^ jr * mb) (2 ^ jp) (ma * 2 ^ 24) (Zpos mr) mc (Zpos mp)
                (a * c * 2 ^ (A + 24 + C)) ltac:(lia) T0 ltac:(nia) J0 Hmc E1 E2 Vr1
                (proj1 Vp)) as U.
  pose proof (chain_lower b T (2 ^ jr * mb) (2 ^ jp) (ma * 2 ^ 24) (Zpos mr) mc (Zpos mp)
                (a * c * 2 ^ (A + 24 + C)) ltac:(lia) T0 ltac:(nia) J0 Hmc E1 E2 Vr2
                (proj2 Vp)) as L.
  (* the exponent of the product *)
  set (P := A - B + 24 - jr + C - jp).
  assert (P2 : 2 <= P).
  { destruct (Z.le_gt_cases 2 P) as [G | G]; [exact G | exfalso].
    assert (Q : 2 ^ (A + 24 + C) <= 2 * T).
    { unfold T. change 2 with (2 ^ 1) at 2. rewrite <- Z.pow_add_r by lia.
      apply Z.pow_le_mono_r; unfold P in G; lia. }
    change (2 ^ 21) with 2097152 in X.
    assert (a * c * 2 ^ (A + 24 + C) <= 2097152 * b * (2 * T)) by nia.
    assert ((Zpos mp - 1) * (b * T) < 4194306 * (b * T)) by lia.
    assert (0 < b * T) by nia. nia. }
  assert (EP : - A - - B - 24 + jr + - C + jp = - P) by (unfold P; lia).
  rewrite EP.
  destruct P as [| k | k] eqn:K; try lia.
  exists mp, k. split; [reflexivity | split; [exact Cp | split; [lia |]]].
  assert (W : 2 ^ (A + 24 + C) = 2 ^ Zpos k * T).
  { unfold T. rewrite <- Z.pow_add_r by lia. f_equal. lia. }
  rewrite W in U, L.
  assert (0 < 2 ^ Zpos k) by (apply Z.pow_pos_nonneg; lia).
  split.
  - assert ((a * c * 2 ^ Zpos k - 3 * b) * T < Zpos mp * b * T) by lia.
    nia.
  - assert (Zpos mp * b * T < (a * c * 2 ^ Zpos k + 3 * b) * T) by lia.
    nia.
Qed.

End F32Values.

Module F32Rounding.
Import F32 F32Aux F32Facts F32Values.

(** [std::ceil] and the truncation of a positive float with [k] fractional
    bits, converted to [int]. *)
Lemma to_int_ceil_fraction (m k : positive) :
  canon m ->
  exists v, to_int (ceil (S754_finite false m (Zneg k))) = v
            /\ to_int_checked (ceil (S754_finite false m (Zneg k))) = Some v
            /\ (v - 1) * 2 ^ Zpos k < Zpos m <= v * 2 ^ Zpos k.
Proof.
  intros C. pose proof (canon_bounds m C) as M.
  assert (K : 0 < 2 ^ Zpos k) by (apply Z.pow_pos_nonneg; lia).
  assert (P1 : 2 <= 2 ^ Zpos k).
  { change 2 with (2 ^ 1) at 1. apply Z.pow_le_mono_r; lia. }
  set (q := Zpos m / 2 ^ Zpos k).
  set (z := if Zpos m mod 2 ^ Zpos k =? 0 then q else q + 1).
  assert (Q : ceilZ (S754_finite false m (Zneg k)) = Some z) by reflexivity.
  pose proof (Z.div_mod (Zpos m) (2 ^ Zpos k) ltac:(lia)) as DM.
  pose proof (Z.mod_pos_bound (Zpos m) (2 ^ Zpos k) K) as MB.
  fold q in DM.
  assert (Q0 : 0 <= q) by (apply Z.div_pos; lia).
  assert (V : (z - 1) * 2 ^ Zpos k < Zpos m <= z * 2 ^ Zpos k).
  { unfold z. destruct (Z.eqb_spec (Zpos m mod 2 ^ Zpos k) 0) as [E0 | N0]; nia. }
  assert (Z1 : 1 <= z <= 8388608) by nia.
  exists z. unfold ceil. rewrite Q.
  destruct z as [| zp |] eqn:Ez; try lia. cbn [of_integral].
  destruct (to_int_of_int_small (Zpos zp)) as [E1 E2];
    [change (2 ^ 24) with 16777216; lia |].
  split; [exact E1 | split; [exact E2 | exact V]].
Qed.

Lemma to_int_fraction (m k : positive) :
  canon m ->
  exists t, to_int (S754_finite false m (Zneg k)) = t
            /\ to_int_checked (S754_finite false m (Zneg k)) = Some t
            /\ t * 2 ^ Zpos k <= Zpos m < (t + 1) * 2 ^ Zpos k.
Proof.
  intros C. pose proof (canon_bounds m C) as M.
  assert (K : 0 < 2 ^ Zpos k) by (apply Z.pow_pos_nonneg; lia).
  set (q := Zpos m / 2 ^ Zpos k).
  pose proof (Z.div_mod (Zpos m) (2 ^ Zpos k) ltac:(lia)) as DM.
  pose proof (Z.mod_pos_bound (Zpos m) (2 ^ Zpos k) K) as MB.
  fold q in DM.
  assert (Q0 : 0 <= q <= 16777216) by nia.
  exists q.
  destruct (to_int_in_range (S754_finite false m (Zneg k)) q) as [E1 E2].
  - reflexivity.
  - unfold Int32.min_int, Int32.max_int. lia.
  - split; [exact E1 | split; [exact E2 | nia]].
Qed.

(** The scaled edge the code computes is the exact one, [ceil (edge * num /
    den)], or differs from it by one, when the exact ratio times the edge
    is at most 2^21. *)
Lemma scale_ceil_within_one (num den edge : Z) :
  0 < num < 2 ^ 24 -> 0 < den < 2 ^ 24 -> 0 < edge < 2 ^ 24 ->
  edge * num <= 2 ^ 21 * den ->
  scale_ceil_exact num den edge - 1 <= scale_ceil num den edge
  <= scale_ceil_exact num den edge + 1
  /\ F32.to_int_checked
       (F32.ceil (F32.mul (F32.div (F32.of_int num) (F32.of_int den)) (F32.of_int edge)))
     = Some (scale_ceil num den edge).
Proof.
  intros N D E X.
  destruct (scaled_product_value num den edge N D E X) as (m & k & P & C & K & V).
  unfold scale_ceil. rewrite P.
  destruct (to_int_ceil_fraction m k C) as (v & -> & -> & Vv).
  split; [| reflexivity].
  assert (W : 4 <= 2 ^ Zpos k).
  { change 4 with (2 ^ 2). apply Z.pow_le_mono_r; lia. }
  unfold scale_ceil_exact. set (x := (edge * num + den - 1) / den).
  pose proof (Z.div_mod (edge * num + den - 1) den ltac:(lia)) as DM.
  pose proof (Z.mod_pos_bound (edge * num + den - 1) den ltac:(lia)) as MB.
  fold x in DM.
  assert (Ex : (x - 1) * den < num * edge <= x * den) by nia.
  set (w := 2 ^ Zpos k) in *.
  split.
  - (* v * w * den >= m * den > num*edge*w - 3 den > (x-1) den w - 3 den *)
    assert (S1 : Zpos m * den <= v * w * den) by nia.
    assert (S2 : (x - 1) * den * w < num * edge * w) by nia.
    assert (S3 : ((x - 1) * w - 3) * den < v * w * den) by nia.
    assert (S4 : (x - 1) * w - 3 < v * w) by nia.
    nia.
  - assert (S1 : (v - 1) * w * den < Zpos m * den) by nia.
    assert (S2 : num * edge * w <= x * den * w) by nia.
    assert (S3 : (v - 1) * w * den < (x * w + 3) * den) by nia.
    assert (S4 : (v - 1) * w < x * w + 3) by nia.
    nia.
Qed.

(** Scaling the long edge [m] by the ratio [max_size_len / m] and
    truncating gives [max_size_len] or one less. *)
Lemma scale_trunc_long_edge (max_size_len m : Z) :
  0 < max_size_len <= 2 ^ 21 -> max_size_len < m < 2 ^ 24 ->
  max_size_len - 1 <= scale_trunc max_size_len m m <= max_size_len.
Proof.
  intros L M. unfold scale_trunc.
  replace (m >? max_size_len) with true by (symmetry; apply Z.gtb_lt; lia).
  change (2 ^ 21) with 2097152 in *. change (2 ^ 24) with 16777216 in *.
  destruct (scaled_product_value max_size_len m m) as (mp & k & P & C & K & V);
    try (change (2 ^ 24) with 16777216); try (change (2 ^ 21) with 2097152); try nia.
  assert (E : mul (of_int m) (div (of_int max_size_len) (of_int m))
              = S754_finite false mp (Zneg k)).
  { rewrite <- P. destruct m as [| pm |]; try lia.
    destruct max_size_len as [| pl |]; try lia.
    destruct (of_int_small pm) as (-> & Cm & _ & Dm); [change (2 ^ 24) with 16777216; lia |].
    destruct (of_int_small pl) as (-> & Cl & _ & Dl); [change (2 ^ 24) with 16777216; lia |].
    destruct (div_shape (shl24 pl) (shl24 pm) (Zpos (digits2_pos pl) - 24)
                (Zpos (digits2_pos pm) - 24)) as (mr & er & -> & _);
      try assumption; try lia.
    apply mul_finite_comm. }
  fold F32.mul F32.of_int F32.div. rewrite E.
  destruct (to_int_fraction mp k C) as (t & -> & _ & T).
  assert (W : 4 <= 2 ^ Zpos k).
  { change 4 with (2 ^ 2). apply Z.pow_le_mono_r; lia. }
  set (w := 2 ^ Zpos k) in *.
  assert (V1 : max_size_len * w - 3 < Zpos mp) by nia.
  assert (V2 : Zpos mp < max_size_len * w + 3) by nia.
  split; nia.
Qed.

End F32Rounding.

(** ** More on [cal_dst_size] and the single-threshold policy *)

(** X1.  Exchanging the height and the width of the source exchanges the height
    and the width of the target, for a source that is not square. *)
Theorem cal_dst_size_transpose (h w long_min short_min base : Z) :
  h <> w ->
  cal_dst_size w h long_min short_min base
  = (snd (cal_dst_size h w long_min short_min base),
     fst (cal_dst_size h w long_min short_min base)).
Proof.
  intros N. rewrite !cal_dst_size_edges.
  rewrite (Z.max_comm w h), (Z.min_comm w h).
  destruct (Z.gtb_spec h w), (Z.gtb_spec w h); try lia; reflexivity.
Qed.

Lemma cal_dst_size_transpose_witness :
  cal_dst_size 300 100 960 640 32
  = (snd (cal_dst_size 100 300 960 640 32), fst (cal_dst_size 100 300 960 640 32))
  /\ cal_dst_size 300 100 960 640 32 = (1920, 640).
Proof.
  split; [| reflexivity].
  apply (cal_dst_size_transpose 100 300 960 640 32). lia.
Defined.

Lemma cal_dst_size_large (h w long_min short_min base : Z) :
  long_min < Z.max h w -> short_min < Z.min h w ->
  cal_dst_size h w long_min short_min base = (align_up h base, align_up w base).
Proof.
  intros L S. rewrite cal_dst_size_edges. unfold edge_targets.
  replace (Z.max h w >? long_min) with true by (symmetry; apply Z.gtb_lt; lia).
  replace (Z.min h w >? short_min) with true by (symmetry; apply Z.gtb_lt; lia).
  cbn [andb fst snd].
  destruct (Z.gtb_spec h w); [rewrite Z.max_l, Z.min_r by lia | rewrite Z.max_r, Z.min_l by lia];
    reflexivity.
Qed.

Lemma align_up_fixed (x base : Z) :
  0 < base -> 0 < x -> x + base <= Int32.max_int -> (base | x) -> align_up x base = x.
Proof.
  intros B X U [k K]. destruct (align_up_rounded_up x base B X U) as [[[j J] R] F].
  rewrite J in *. subst x. assert (j = k) by nia. subst j. reflexivity.
Qed.

(** X2.  A target computed for a source that exceeds both thresholds is a fixed
    point: computing the target of the target gives it back. *)
Theorem cal_dst_size_large_idempotent (h w long_min short_min base : Z) :
  0 < base -> 0 < h -> 0 < w ->
  h + 2 * base <= Int32.max_int -> w + 2 * base <= Int32.max_int ->
  long_min < Z.max h w -> short_min < Z.min h w ->
  let d := cal_dst_size h w long_min short_min base in
  cal_dst_size (fst d) (snd d) long_min short_min base = d.
Proof.
  intros B H W UH UW L S d. unfold d.
  rewrite (cal_dst_size_large h w) by assumption. cbn [fst snd].
  destruct (align_up_rounded_up h base B H ltac:(lia)) as [[Dh Rh] Fh].
  destruct (align_up_rounded_up w base B W ltac:(lia)) as [[Dw Rw] Fw].
  rewrite cal_dst_size_large by lia.
  rewrite (align_up_fixed (align_up h base) base) by (assumption || lia).
  rewrite (align_up_fixed (align_up w base) base) by (assumption || lia).
  reflexivity.
Qed.

Lemma cal_dst_size_large_idempotent_witness :
  let d := cal_dst_size 3000 2000 960 640 32 in
  cal_dst_size (fst d) (snd d) 960 640 32 = d /\ d = (3008, 2016).
Proof.
  split; [| reflexivity].
  apply (cal_dst_size_large_idempotent 3000 2000 960 640 32); unfold Int32.max_int; lia.
Defined.

(** X3.  For positive edges and thresholds below 2^15 and any positive [base]
    below 2^30, both edges of the target are multiples of [base] and at
    least [base], and no step of the computation is undefined. *)
Theorem cal_dst_size_multiple_of_base (h w long_min short_min base : Z) :
  0 < h < 2 ^ 15 -> 0 < w < 2 ^ 15 ->
  0 < long_min < 2 ^ 15 -> 0 < short_min < 2 ^ 15 -> 0 < base < 2 ^ 30 ->
  let d := cal_dst_size h w long_min short_min base in
  (base | fst d) /\ (base | snd d) /\ base <= fst d /\ base <= snd d
  /\ cal_dst_size_checked h w long_min short_min base = Some d.
Proof.
  intros H W L S B d.
  assert (D : cal_dst_size_checked h w long_min short_min base = Some d)
    by (apply cal_dst_size_defined; assumption).
  unfold d in *. clear d. rewrite cal_dst_size_edges in *.
  assert (T : 0 < fst (edge_targets (Z.max h w) (Z.min h w) long_min short_min) <= 2 ^ 30
              /\ 0 < snd (edge_targets (Z.max h w) (Z.min h w) long_min short_min) <= 2 ^ 30).
  { unfold edge_targets, scale_ceil. change (2 ^ 15) with 32768 in *.
    change (2 ^ 30) with 1073741824 in *.
    destruct ((Z.max h w >? long_min) && (Z.min h w >? short_min)); cbn [fst snd]; [lia |].
    destruct (F32.ltb _ _); cbn [fst snd].
    - destruct (F32Facts.scaled_ceil_defined short_min (Z.min h w) (Z.max h w))
        as (v & -> & _ & V); change (2 ^ 15) with 32768; lia.
    - destruct (F32Facts.scaled_ceil_defined long_min (Z.max h w) (Z.min h w))
        as (v & -> & _ & V); change (2 ^ 15) with 32768; lia. }
  change (2 ^ 30) with 1073741824 in *. destruct T as [T1 T2].
  set (t := edge_targets _ _ _ _) in *.
  destruct (align_up_rounded_up (fst t) base) as [[D1 _] F1];
    [lia | lia | unfold Int32.max_int; lia |].
  destruct (align_up_rounded_up (snd t) base) as [[D2 _] F2];
    [lia | lia | unfold Int32.max_int; lia |].
  destruct (h >? w); cbn [fst snd]; repeat split; assumption.
Qed.

Lemma cal_dst_size_multiple_of_base_witness :
  let d := cal_dst_size 400 300 960 640 48 in
  ((48 | fst d) /\ (48 | snd d) /\ 48 <= fst d /\ 48 <= snd d
   /\ cal_dst_size_checked 400 300 960 640 48 = Some d)
  /\ d = (960, 720).
Proof.
  split; [| reflexivity].
  apply (cal_dst_size_multiple_of_base 400 300 960 640 48); lia.
Defined.


(** X4.  In the two scaling cases of [cal_dst_size] one edge of the target
    is the aligned threshold and the other is the aligned scaled edge; the
    scaled edge the code computes in binary32 is the exact one, the ceiling
    of [edge * threshold / other edge], or differs from it by one.  The
    sizes are below 2^24 and the thresholds and the exact scaled edge at
    most 2^21. *)
Theorem scaled_edge_within_one (h w long_min short_min base : Z) :
  0 < h < 2 ^ 24 -> 0 < w < 2 ^ 24 ->
  0 < long_min <= 2 ^ 21 -> 0 < short_min < 2 ^ 24 ->
  (Z.max h w >? long_min) && (Z.min h w >? short_min) = false ->
  Z.max h w * short_min <= 2 ^ 21 * Z.min h w ->
  let cur_long := Z.max h w in
  let cur_short := Z.min h w in
  let d := cal_dst_size h w long_min short_min base in
  let dst_long := if h >? w then fst d else snd d in
  let dst_short := if h >? w then snd d else fst d in
  exists t,
    if F32.ltb (base_ratio long_min short_min) (cur_ratio cur_long cur_short)
    then dst_short = align_up short_min base /\ dst_long = align_up t base
         /\ Z.abs (t - scale_ceil_exact short_min cur_short cur_long) <= 1
    else dst_long = align_up long_min base /\ dst_short = align_up t base
         /\ Z.abs (t - scale_ceil_exact long_min cur_long cur_short) <= 1.
Proof.
  intros H W L S C X. cbv zeta.
  rewrite cal_dst_size_edges. unfold edge_targets. rewrite C.
  change (2 ^ 24) with 16777216 in *. change (2 ^ 21) with 2097152 in *.
  destruct (F32.ltb _ _).
  - exists (scale_ceil short_min (Z.min h w) (Z.max h w)).
    destruct (F32Rounding.scale_ceil_within_one short_min (Z.min h w) (Z.max h w))
      as [B _]; try (change (2 ^ 24) with 16777216); try (change (2 ^ 21) with 2097152);
      try lia.
    destruct (h >? w); cbn [fst snd]; repeat split; lia.
  - exists (scale_ceil long_min (Z.max h w) (Z.min h w)).
    destruct (F32Rounding.scale_ceil_within_one long_min (Z.max h w) (Z.min h w))
      as [B _]; try (change (2 ^ 24) with 16777216); try (change (2 ^ 21) with 2097152);
      try nia.
    destruct (h >? w); cbn [fst snd]; repeat split; lia.
Qed.

Lemma scaled_edge_within_one_witness :
  exists t,
    snd (cal_dst_size 400 400 960 640 32) = align_up 960 32
    /\ fst (cal_dst_size 400 400 960 640 32) = align_up t 32
    /\ Z.abs (t - scale_ceil_exact 960 400 400) <= 1.
Proof.
  exact (scaled_edge_within_one 400 400 960 640 32
           ltac:(lia) ltac:(lia) ltac:(lia) ltac:(lia) eq_refl ltac:(lia)).
Defined.


(** X5.  The single-threshold policy leaves an image alone that is within the
    threshold and already aligned: when both edges are multiples of 32, at
    least 32 and below 2^24, and neither exceeds [max_size_len], the target
    is the source size, with no undefined step. *)
Theorem single_threshold_keeps_aligned (c : Config) (img : FDMat) (max_size_len : Z) :
  static_shape_infer_ c = false ->
  (32 | Width img) -> (32 | Height img) ->
  0 < Width img < 2 ^ 24 -> 0 < Height img < 2 ^ 24 ->
  Width img <= max_size_len -> Height img <= max_size_len ->
  OcrDetectorGetInfo_len c img max_size_len
  = (Width img, Height img, Width img, Height img)
  /\ OcrDetectorGetInfo_len_checked c img max_size_len
     = Some (Width img, Height img, Width img, Height img).
Proof.
  intros S Dw Dh W H Lw Lh.
  assert (K : OcrDetectorGetInfo_len_checked c img max_size_len
              = Some (Width img, Height img, Width img, Height img)).
  { unfold OcrDetectorGetInfo_len_checked. rewrite S.
    set (w := Width img) in *. set (h := Height img) in *.
    replace ((if w >=? h then w else h) >? max_size_len) with false
      by (symmetry; rewrite Z.gtb_ltb; apply Z.ltb_ge; destruct (w >=? h); lia).
    rewrite !F32Facts.mul_one_small by lia.
    rewrite (proj2 (F32Facts.to_int_of_int_small h ltac:(lia))).
    rewrite (proj2 (F32Facts.to_int_of_int_small w ltac:(lia))).
    cbn [mbind option_bind].
    assert (R : forall x, (32 | x) -> 0 < x < 2 ^ 24 -> round_to_32_checked x = Some x).
    { intros x [k ->] X. unfold round_to_32_checked.
      fold (F32Aux.step32 (F32.of_int (k * 32))).
      rewrite (proj2 (F32Facts.step32_of_int_nearest (k * 32) ltac:(lia))).
      cbn [mbind option_bind]. f_equal.
      replace ((k * 32 + 16) / 32) with k; [lia |].
      apply Z.div_unique with 16; lia. }
    rewrite (R h Dh H). cbn [mbind option_bind].
    rewrite (R w Dw W). reflexivity. }
  split; [apply OcrDetectorGetInfo_len_checked_sound; exact K | exact K].
Qed.

Lemma single_threshold_keeps_aligned_witness :
  OcrDetectorGetInfo_len (config_960_640 false false false 640) (blank 640 480) 960
  = (640, 480, 640, 480)
  /\ OcrDetectorGetInfo_len_checked (config_960_640 false false false 640) (blank 640 480) 960
     = Some (640, 480, 640, 480).
Proof.
  apply (single_threshold_keeps_aligned (config_960_640 false false false 640)
           (blank 640 480) 960);
    cbn [blank Width Height]; try reflexivity; try lia.
  - exists 20. reflexivity.
  - exists 15. reflexivity.
Defined.

Lemma round_to_32_near_multiple (n x : Z) :
  (32 | n) -> 32 <= n <= 2 ^ 24 -> n - 1 <= x <= n -> round_to_32 x = n.
Proof.
  intros [q ->] N X. change (2 ^ 24) with 16777216 in *.
  unfold round_to_32. fold (F32Aux.step32 (F32.of_int x)).
  rewrite (proj1 (F32Facts.step32_of_int_nearest x
                    ltac:(change (2 ^ 24) with 16777216; lia))).
  replace ((x + 16) / 32) with q; [lia |].
  apply Z.div_unique with (x + 16 - 32 * q); lia.
Qed.

(** X6.  Under the single-threshold policy an image whose long edge exceeds
    [max_size_len] gets exactly [max_size_len] as the target of its long
    edge, when [max_size_len] is a multiple of 32 of at most 2^21 and the
    edges are below 2^24. *)
Theorem single_threshold_long_edge (c : Config) (img : FDMat) (max_size_len : Z) :
  static_shape_infer_ c = false ->
  0 < Width img < 2 ^ 24 -> 0 < Height img < 2 ^ 24 ->
  (32 | max_size_len) -> 32 <= max_size_len <= 2 ^ 21 ->
  max_size_len < Z.max (Width img) (Height img) ->
  let r := OcrDetectorGetInfo_len c img max_size_len in
  if Height img >? Width img then at3 r = max_size_len else at2 r = max_size_len.
Proof.
  intros S W H D L M. cbv zeta. unfold OcrDetectorGetInfo_len. rewrite S.
  set (w := Width img) in *. set (h := Height img) in *.
  change (2 ^ 24) with 16777216 in *. change (2 ^ 21) with 2097152 in *.
  assert (Em : (if w >=? h then w else h) = Z.max w h).
  { destruct (Z.geb_spec w h); [rewrite Z.max_l | rewrite Z.max_r]; lia. }
  rewrite Em.
  replace (Z.max w h >? max_size_len) with true by (symmetry; apply Z.gtb_lt; lia).
  destruct (Z.gtb_spec h w) as [G | G]; cbn [at2 at3].
  - apply round_to_32_near_multiple; [exact D | change (2 ^ 24) with 16777216; lia |].
    pose proof (F32Rounding.scale_trunc_long_edge max_size_len h
                  ltac:(change (2 ^ 21) with 2097152; lia)
                  ltac:(change (2 ^ 24) with 16777216; lia)) as T.
    unfold scale_trunc in T.
    replace (h >? max_size_len) with true in T by (symmetry; apply Z.gtb_lt; lia).
    exact T.
  - apply round_to_32_near_multiple; [exact D | change (2 ^ 24) with 16777216; lia |].
    pose proof (F32Rounding.scale_trunc_long_edge max_size_len w
                  ltac:(change (2 ^ 21) with 2097152; lia)
                  ltac:(change (2 ^ 24) with 16777216; lia)) as T.
    unfold scale_trunc in T.
    replace (w >? max_size_len) with true in T by (symmetry; apply Z.gtb_lt; lia).
    exact T.
Qed.

Lemma single_threshold_long_edge_witness :
  at2 (OcrDetectorGetInfo_len (config_960_640 false false false 640) (blank 2000 1000) 960)
  = 960.
Proof.
  apply (single_threshold_long_edge (config_960_640 false false false 640)
           (blank 2000 1000) 960);
    cbn [blank Width Height]; try reflexivity; try lia.
  exists 30. reflexivity.
Defined.

Lemma align_up_step (x y base : Z) :
  0 < base -> Int32.min_int <= x -> Int32.min_int <= y ->
  x + base <= Int32.max_int -> y + base <= Int32.max_int ->
  x <= y + 1 -> align_up x base <= align_up y base + base.
Proof.
  intros B Lx Ly Ux Uy L. rewrite !align_up_spec by assumption.
  assert ((x + base - 1) / base <= (y + base - 1) / base + 1); [| nia].
  replace ((y + base - 1) / base + 1) with ((y + base - 1 + 1 * base) / base)
    by (rewrite Z.div_add by lia; reflexivity).
  apply Z.div_le_mono; lia.
Qed.

(** X22.  [cal_dst_size] keeps the orientation up to one alignment step:
    the target of the short edge exceeds the target of the long edge by at
    most [base].  The edges and the short threshold are below 2^24, the
    long threshold and the long edge scaled to the short threshold at most
    2^21, and [base] at most 2^30. *)
Theorem orientation_within_one_step (h w long_min short_min base : Z) :
  0 < h < 2 ^ 24 -> 0 < w < 2 ^ 24 ->
  0 < long_min <= 2 ^ 21 -> 0 < short_min < 2 ^ 24 -> 0 < base <= 2 ^ 30 ->
  Z.max h w * short_min <= 2 ^ 21 * Z.min h w ->
  let d := cal_dst_size h w long_min short_min base in
  (w >= h -> fst d <= snd d + base) /\ (h > w -> snd d <= fst d + base).
Proof.
  intros H W L S B X. cbv zeta.
  rewrite cal_dst_size_edges.
  set (cl := Z.max h w) in *. set (cs := Z.min h w) in *.
  assert (Cl : 0 < cl < 2 ^ 24) by (unfold cl; lia).
  assert (Cs : 0 < cs < 2 ^ 24) by (unfold cs; lia).
  assert (Cls : cs <= cl) by (unfold cl, cs; lia).
  change (2 ^ 24) with 16777216 in *. change (2 ^ 21) with 2097152 in *.
  change (2 ^ 30) with 1073741824 in *.
  assert (T : let t := edge_targets cl cs long_min short_min in
              0 <= fst t <= 16777216 /\ 0 <= snd t <= 16777216
              /\ snd t <= fst t + 1).
  { cbv zeta. unfold edge_targets.
    destruct ((cl >? long_min) && (cs >? short_min)); cbn [fst snd]; [lia |].
    destruct (F32.ltb _ _); cbn [fst snd].
    - destruct (F32Rounding.scale_ceil_within_one short_min cs cl) as [[B1 B2] _];
        try (change (2 ^ 24) with 16777216); try (change (2 ^ 21) with 2097152); try lia.
      unfold scale_ceil_exact in *.
      assert (short_min <= (cl * short_min + cs - 1) / cs)
        by (apply Z.div_le_lower_bound; nia).
      assert ((cl * short_min + cs - 1) / cs <= 2097152).
      { assert ((cl * short_min + cs - 1) / cs < 2097153); [| lia].
        apply Z.div_lt_upper_bound; lia. }
      lia.
    - destruct (F32Rounding.scale_ceil_within_one long_min cl cs) as [[B1 B2] _];
        try (change (2 ^ 24) with 16777216); try (change (2 ^ 21) with 2097152); try nia.
      unfold scale_ceil_exact in *.
      assert (1 <= (cs * long_min + cl - 1) / cl)
        by (apply Z.div_le_lower_bound; nia).
      assert ((cs * long_min + cl - 1) / cl <= long_min).
      { assert ((cs * long_min + cl - 1) / cl < long_min + 1); [| lia].
        apply Z.div_lt_upper_bound; nia. }
      lia. }
  cbv zeta in T. destruct T as (T1 & T2 & T3).
  set (t := edge_targets cl cs long_min short_min) in *.
  assert (A : align_up (snd t) base <= align_up (fst t) base + base).
  { apply align_up_step; unfold Int32.min_int, Int32.max_int; lia. }
  destruct (Z.gtb_spec h w); cbn [fst snd]; split; intros; (lia || exact A).
Qed.

Lemma orientation_within_one_step_witness :
  fst (cal_dst_size 400 400 960 640 32) <= snd (cal_dst_size 400 400 960 640 32) + 32
  /\ cal_dst_size 400 400 960 640 32 = (992, 960).
Proof.
  split; [| reflexivity].
  apply (orientation_within_one_step 400 400 960 640 32); lia.
Defined.

(** ** More on the batch pipeline *)

Lemma batch_max_attained (proj : int4 -> Z) (infos : list int4) :
  infos <> [] -> (forall info, info ∈ infos -> 0 <= proj info) ->
  exists info, info ∈ infos /\ proj info = batch_max proj infos.
Proof.
  induction infos as [| info infos IH] using rev_ind; intros NE P; [contradiction |].
  rewrite batch_max_snoc.
  destruct infos as [| x infos].
  - exists info. split; [apply elem_of_app; right; apply list_elem_of_singleton; reflexivity |].
    unfold batch_max. cbn [foldl].
    specialize (P info ltac:(apply elem_of_app; right; apply list_elem_of_singleton; reflexivity)).
    lia.
  - destruct IH as (y & Y & E); [discriminate | |].
    { intros z Z. apply P, elem_of_app. left. exact Z. }
    destruct (Z.le_gt_cases (proj info) (batch_max proj (x :: infos))) as [L | G].
    + exists y. split; [apply elem_of_app; left; exact Y | lia].
    + exists info. split; [apply elem_of_app; right; apply list_elem_of_singleton; reflexivity | lia].
Qed.

Lemma batch_max_constant (proj : int4 -> Z) (infos : list int4) (a : Z) :
  infos <> [] -> 0 <= a -> (forall info, info ∈ infos -> proj info = a) ->
  batch_max proj infos = a.
Proof.
  intros NE A H.
  destruct (batch_max_attained proj infos NE) as (y & Y & <-).
  - intros z Z. rewrite (H z Z). exact A.
  - apply H, Y.
Qed.

(** X7.  The batch maximum is the target of some image: in a batch that is not
    empty, one image gets no padding on the right and one gets none at the
    bottom; in the dynamic mode both maxima are multiples of 32 that are
    at least 32.  For the empty batch both are 0. *)
Theorem batch_maximum_attained (w : World) :
  let cfg := config (self w) in
  let infos := map (OcrDetectorGetInfo cfg) (mats w) in
  let mw := batch_max at2 infos in
  let mh := batch_max at3 infos in
  fixed_shape_ok cfg = true ->
  (mats w = [] -> mw = 0 /\ mh = 0)
  /\ (mats w <> [] ->
      (exists i mat, mats w !! i = Some mat /\ at2 (OcrDetectorGetInfo cfg mat) = mw
                     /\ Int32.sub mw (at2 (OcrDetectorGetInfo cfg mat)) = 0)
      /\ (exists i mat, mats w !! i = Some mat /\ at3 (OcrDetectorGetInfo cfg mat) = mh
                        /\ Int32.sub mh (at3 (OcrDetectorGetInfo cfg mat)) = 0)
      /\ (static_shape_infer_ cfg = false -> aligned32 mw /\ aligned32 mh)).
Proof.
  intros cfg infos mw mh Ok. split.
  - intros E. unfold mw, mh, infos. rewrite E. split; reflexivity.
  - intros NE.
    assert (NI : infos <> []).
    { unfold infos. destruct (mats w); [contradiction | discriminate]. }
    assert (R : forall x, x ∈ infos ->
              0 <= at2 x <= Int32.max_int /\ 0 <= at3 x <= Int32.max_int).
    { intros x Hx. apply list_elem_of_fmap in Hx as (mat & -> & _).
      apply targets_range. exact Ok. }
    destruct (batch_max_attained at2 infos NI) as (x2 & X2 & E2);
      [intros x Hx; apply R, Hx |].
    destruct (batch_max_attained at3 infos NI) as (x3 & X3 & E3);
      [intros x Hx; apply R, Hx |].
    fold mw in E2. fold mh in E3.
    apply list_elem_of_fmap in X2 as (m2 & -> & M2).
    apply list_elem_of_fmap in X3 as (m3 & -> & M3).
    apply list_elem_of_lookup in M2 as [i2 L2]. apply list_elem_of_lookup in M3 as [i3 L3].
    split; [| split].
    + exists i2, m2. rewrite E2. split; [exact L2 | split; [reflexivity |]].
      unfold Int32.sub. rewrite Z.sub_diag. reflexivity.
    + exists i3, m3. rewrite E3. split; [exact L3 | split; [reflexivity |]].
      unfold Int32.sub. rewrite Z.sub_diag. reflexivity.
    + intros D. rewrite <- E2, <- E3. unfold OcrDetectorGetInfo. fold cfg. rewrite D.
      cbn [at2 at3]. rewrite !cal_dst_size_edges.
      destruct (Height m2 >? Width m2), (Height m3 >? Width m3); cbn [fst snd];
        split; match goal with |- aligned32 (align_up ?x 32) =>
                 destruct (align_up_32 x) as [? ?]; split; [assumption | lia] end.
Qed.

Section PipelineMore.

Context {FDTensor : Type}.
Variable resample : FDMat -> Z -> Z -> Z -> Z -> pixel.
Variable normalize_and_permute : NormalizeAndPermute -> list FDMat -> list FDMat.
Variable Tensor : list FDMat -> FDTensor.

(** X8.  On the empty batch [Apply] makes no resize and no pad call and leaves
    the two operators as they are, but still runs the batched
    normalisation (on no image) when it is not disabled, and returns true
    with one tensor. *)
Theorem Apply_empty_batch (w : World) :
  let cfg := config (self w) in
  let gate := negb (disable_normalize_ cfg) && negb (disable_permute_ cfg) in
  let op := normalize_permute_op_ (self w) in
  let r := Apply resample normalize_and_permute Tensor w in
  mats w = [] ->
  fst r = (true, [Tensor (if gate then normalize_and_permute op [] else [])])
  /\ calls (snd r) = calls w ++ (if gate then [CallNormalizeAndPermute op] else [])
  /\ batch_det_img_info_ (self (snd r)) = []
  /\ resize_op_ (self (snd r)) = resize_op_ (self w)
  /\ pad_op_ (self (snd r)) = pad_op_ (self w).
Proof.
  intros cfg gate op r E. unfold r, Apply, mbind, M_bind, get_world, set_info.
  rewrite E. cbn [length seq for_each replicate mret M_ret fst snd with_info self config].
  fold cfg. fold gate.
  destruct gate; cbn; rewrite ?E, ?app_nil_r; repeat split; reflexivity.
Qed.

(** When all images of the batch get the same target, every pad call of
    [Apply] has four zero amounts. *)
Lemma uniform_targets_no_padding (w : World) (a b : Z) :
  let cfg := config (self w) in
  let infos := map (OcrDetectorGetInfo cfg) (mats w) in
  0 <= a -> 0 <= b ->
  (forall mat, mat ∈ mats w ->
     at2 (OcrDetectorGetInfo cfg mat) = a /\ at3 (OcrDetectorGetInfo cfg mat) = b) ->
  exists new,
    calls (snd (Apply resample normalize_and_permute Tensor w)) = calls w ++ new
    /\ (forall i rw rh, In (CallResize i rw rh) new -> rw = a /\ rh = b)
    /\ (forall i t bo l r v, In (CallPad i t bo l r v) new ->
          t = 0 /\ bo = 0 /\ l = 0 /\ r = 0)
    /\ (mats w <> [] -> batch_max at2 infos = a /\ batch_max at3 infos = b).
Proof.
  intros cfg infos A B U.
  destruct (Apply_run resample normalize_and_permute Tensor w) as (_ & _ & _ & _ & _ & Fl).
  fold cfg infos in Fl.
  assert (UI : forall info, info ∈ infos -> at2 info = a /\ at3 info = b).
  { intros info I. apply list_elem_of_fmap in I as (mat & -> & M). apply U, M. }
  assert (MX : infos <> [] -> batch_max at2 infos = a /\ batch_max at3 infos = b).
  { intros NI. split; apply batch_max_constant; try assumption;
      intros info I; apply UI, I. }
  eexists. split; [exact Fl |]. split; [| split].
  - intros i rw rh H. apply in_app_or in H as [H | H].
    + apply In_image_calls in H as (j & info & L & [H | H]); [| discriminate H].
      injection H as -> -> ->. apply UI, list_elem_of_lookup. exists j. exact L.
    + destruct (negb _ && negb _); [destruct H as [H | []]; discriminate H | destruct H].
  - intros i t bo l r v H. apply in_app_or in H as [H | H].
    + apply In_image_calls in H as (j & info & L & [H | H]); [discriminate H |].
      injection H as -> -> -> -> -> ->.
      assert (I : info ∈ infos) by (apply list_elem_of_lookup; exists j; exact L).
      destruct (UI info I) as [-> ->].
      destruct MX as [-> ->]; [intros E; rewrite E in I; inversion I |].
      unfold Int32.sub. rewrite !Z.sub_diag. repeat split; reflexivity.
    + destruct (negb _ && negb _); [destruct H as [H | []]; discriminate H | destruct H].
  - intros NE. apply MX. unfold infos. destruct (mats w); [contradiction | discriminate].
Qed.

(** X9.  In static mode every image is resized to the configured width and
    height and no image is padded: all four amounts of every pad call are
    0.  The configured height and width are non-negative. *)
Theorem static_mode_never_pads (w : World) :
  let cfg := config (self w) in
  static_shape_infer_ cfg = true -> fixed_shape_ok cfg = true ->
  exists new,
    calls (snd (Apply resample normalize_and_permute Tensor w)) = calls w ++ new
    /\ (forall i rw rh, In (CallResize i rw rh) new ->
          rw = shape_at cfg 2 /\ rh = shape_at cfg 1)
    /\ (forall i t b l r v, In (CallPad i t b l r v) new ->
          t = 0 /\ b = 0 /\ l = 0 /\ r = 0).
Proof.
  intros cfg S Ok.
  assert (R : 0 <= shape_at cfg 2 /\ 0 <= shape_at cfg 1).
  { unfold fixed_shape_ok in Ok. rewrite S in Ok. cbn [negb orb] in Ok.
    apply andb_prop in Ok as [Ok H4]. apply andb_prop in Ok as [Ok H3].
    apply andb_prop in Ok as [H1 H2]. apply Z.leb_le in H1, H3. lia. }
  destruct (uniform_targets_no_padding w (shape_at cfg 2) (shape_at cfg 1))
    as (new & E & Hr & Hp & _); try apply R.
  - intros mat _. unfold OcrDetectorGetInfo. fold cfg. rewrite S. split; reflexivity.
  - exists new. split; [exact E | split; [exact Hr | exact Hp]].
Qed.

(** X10.  A batch of images of one size is never padded, in any mode: all four
    amounts of every pad call are 0, and all images are resized to the one
    target of that size. *)
Theorem equal_sizes_never_padded (w : World) (width height : Z) :
  let cfg := config (self w) in
  let info := OcrDetectorGetInfo cfg (blank width height) in
  fixed_shape_ok cfg = true ->
  (forall mat, mat ∈ mats w -> Width mat = width /\ Height mat = height) ->
  exists new,
    calls (snd (Apply resample normalize_and_permute Tensor w)) = calls w ++ new
    /\ (forall i rw rh, In (CallResize i rw rh) new -> rw = at2 info /\ rh = at3 info)
    /\ (forall i t b l r v, In (CallPad i t b l r v) new ->
          t = 0 /\ b = 0 /\ l = 0 /\ r = 0).
Proof.
  intros cfg info Ok U.
  destruct (targets_range cfg (blank width height) Ok) as [R2 R3]. fold info in R2, R3.
  destruct (uniform_targets_no_padding w (at2 info) (at3 info))
    as (new & E & Hr & Hp & _); try lia.
  - intros mat M. destruct (U mat M) as [Ew Eh].
    unfold info, OcrDetectorGetInfo. fold cfg. cbn [blank Width Height].
    rewrite Ew, Eh. split; reflexivity.
  - exists new. split; [exact E | split; [exact Hr | exact Hp]].
Qed.

(** X11.  What [Apply] leaves in the preprocessor: the records of all images,
    with their original sizes and their targets, whatever was recorded
    before; the configuration and the normalisation operator as they were;
    and, for a batch whose last image is [mat], the target of [mat] in
    [resize_op_] and its padding in [pad_op_]. *)
Theorem Apply_leaves_last_parameters (w : World) (front : list FDMat) (mat : FDMat) :
  let cfg := config (self w) in
  let infos := map (OcrDetectorGetInfo cfg) (mats w) in
  let mw := batch_max at2 infos in
  let mh := batch_max at3 infos in
  let info := OcrDetectorGetInfo cfg mat in
  let after := self (snd (Apply resample normalize_and_permute Tensor w)) in
  mats w = front ++ [mat] ->
  config after = cfg
  /\ normalize_permute_op_ after = normalize_permute_op_ (self w)
  /\ batch_det_img_info_ after = infos
  /\ (forall i m, mats w !! i = Some m ->
        exists tw th, infos !! i = Some (Width m, Height m, tw, th))
  /\ resize_op_ after = {| width_ := at2 info; height_ := at3 info |}
  /\ pad_op_ after = pad_for (value_ (pad_op_ (self w))) mw mh info.
Proof.
  intros cfg infos mw mh info after E.
  destruct (Apply_run resample normalize_and_permute Tensor w)
    as (_ & Fc & Fi & _ & _ & _).
  fold cfg infos in Fc, Fi. fold after in Fc, Fi.
  assert (Li : length infos = length (mats w)) by (unfold infos; apply length_map).
  split; [exact Fc |].
  assert (X : normalize_permute_op_ after = normalize_permute_op_ (self w)
              /\ resize_op_ after = {| width_ := at2 info; height_ := at3 info |}
              /\ pad_op_ after = pad_for (value_ (pad_op_ (self w))) mw mh info).
  { unfold after, Apply, mbind, M_bind, get_world, set_info.
    pose proof (first_loop w) as F1. cbv zeta in F1. fold cfg infos mw mh in F1.
    rewrite F1. cbn [fst snd].
    assert (N : length (mats w) = S (length front)).
    { rewrite E, length_app. cbn [length]. lia. }
    rewrite N, seq_S, for_each_snoc. cbn [Nat.add].
    pose proof (second_loop_prefix resample mw mh (with_info w infos) (length front)) as F2.
    cbv zeta in F2.
    cbn [with_info self mats calls config batch_det_img_info_ normalize_permute_op_ pad_op_]
      in F2.
    specialize (F2 Li ltac:(lia)).
    destruct (for_each (seq 0 (length front)) tt (resize_step resample mw mh)
                (with_info w infos)) as [[] wk].
    cbn [fst snd] in *. destruct F2 as (Gc & Gi & Gn & Gv & Gm & _).
    assert (Lm : mats w !! length front = Some mat).
    { rewrite E, lookup_app_r by lia. rewrite Nat.sub_diag. reflexivity. }
    assert (Lk : mats wk !! length front = Some mat).
    { assert (Lz : length (zip_with (resize_pad resample (value_ (pad_op_ (self w))) mw mh)
                             (take (length front) (mats w)) (take (length front) infos))
                   = length front).
      { rewrite length_zip_with, !length_take. lia. }
      rewrite Gm, lookup_app_r by lia.
      rewrite Lz, Nat.sub_diag, lookup_drop, Nat.add_0_r. exact Lm. }
    assert (Lf : infos !! length front = Some info).
    { unfold infos. rewrite list_lookup_fmap, Lm. reflexivity. }
    unfold resize_step, mbind, M_bind, mret, M_ret, get_world.
    rewrite Gi, Lf. cbn [default].
    rewrite (ResizeImage_run resample (length front) _ _ _ _ wk mat Lk).
    cbn [snd self mats calls config batch_det_img_info_ normalize_permute_op_ pad_op_
         resize_op_].
    rewrite Gc, Gn, Gv. fold cfg.
    destruct (negb (disable_normalize_ cfg) && negb (disable_permute_ cfg));
      cbn; repeat split; reflexivity. }
  destruct X as (Xn & Xr & Xp).
  split; [exact Xn | split; [exact Fi | split; [| split; [exact Xr | exact Xp]]]].
  intros i m L. unfold infos. rewrite list_lookup_fmap, L. cbn [fmap option_fmap option_map].
  unfold OcrDetectorGetInfo. destruct (static_shape_infer_ cfg); eauto.
Qed.

(** X12.  [Apply] never uses what the operators and the records held before the
    call: two preprocessors with the same configuration, normalisation
    operator and fill value give, on the same batch, the same result, the
    same images and the same operator calls. *)
Theorem Apply_ignores_stale_parameters (w w' : World) :
  config (self w) = config (self w') ->
  normalize_permute_op_ (self w) = normalize_permute_op_ (self w') ->
  value_ (pad_op_ (self w)) = value_ (pad_op_ (self w')) ->
  mats w = mats w' -> calls w = calls w' ->
  let r := Apply resample normalize_and_permute Tensor w in
  let r' := Apply resample normalize_and_permute Tensor w' in
  fst r = fst r' /\ mats (snd r) = mats (snd r') /\ calls (snd r) = calls (snd r')
  /\ batch_det_img_info_ (self (snd r)) = batch_det_img_info_ (self (snd r')).
Proof.
  intros Ec En Ev Em El r r'.
  destruct (Apply_run resample normalize_and_permute Tensor w) as (F & Fc & Fi & Fv & Fm & Fl).
  destruct (Apply_run resample normalize_and_permute Tensor w')
    as (F' & Fc' & Fi' & Fv' & Fm' & Fl').
  fold r in F, Fc, Fi, Fv, Fm, Fl. fold r' in F', Fc', Fi', Fv', Fm', Fl'.
  rewrite <- Ec, <- En, <- Ev, <- Em, <- El in *.
  assert (M : mats (snd r) = mats (snd r')) by (rewrite Fm, Fm'; reflexivity).
  split; [rewrite F, F', M; reflexivity |].
  split; [exact M |]. split; [rewrite Fl, Fl'; reflexivity |].
  rewrite Fi, Fi'. reflexivity.
Qed.

End PipelineMore.

(** *** The same on concrete batches *)

Lemma batch_maximum_attained_witness :
  let w := world_of (config_960_640 false false false 640)
             [blank 400 300; blank 3000 2000] in
  let infos := map (OcrDetectorGetInfo (config (self w))) (mats w) in
  (batch_max at2 infos = 3008 /\ batch_max at3 infos = 2016)
  /\ aligned32 (batch_max at2 infos) /\ aligned32 (batch_max at3 infos).
Proof.
  split; [split; reflexivity |].
  exact (proj2 (proj2 (proj2
           (batch_maximum_attained
              (world_of (config_960_640 false false false 640)
                 [blank 400 300; blank 3000 2000]) eq_refl)
           ltac:(discriminate))) eq_refl).
Defined.

Lemma Apply_empty_batch_witness :
  let w := world_of (config_960_640 false false false 640) [] in
  let r := Apply nearest_resample keep_batch (@length FDMat) w in
  fst r = (true, [0%nat])
  /\ calls (snd r) = [CallNormalizeAndPermute (normalize_permute_op_ (self w))].
Proof.
  pose proof (Apply_empty_batch nearest_resample keep_batch (@length FDMat)
                (world_of (config_960_640 false false false 640) []) eq_refl)
    as (A & B & _).
  split; [exact A | exact B].
Defined.

Lemma static_mode_never_pads_witness :
  let w := world_of (config_960_640 true false false 640)
             [blank 400 300; blank 100 50] in
  exists new,
    calls (snd (Apply nearest_resample keep_batch (@length FDMat) w)) = calls w ++ new
    /\ (forall i rw rh, In (CallResize i rw rh) new -> rw = 960 /\ rh = 960)
    /\ (forall i t b l r v, In (CallPad i t b l r v) new ->
          t = 0 /\ b = 0 /\ l = 0 /\ r = 0).
Proof.
  exact (static_mode_never_pads nearest_resample keep_batch (@length FDMat)
           (world_of (config_960_640 true false false 640)
              [blank 400 300; blank 100 50]) eq_refl eq_refl).
Defined.

Lemma equal_sizes_never_padded_witness :
  let w := world_of (config_960_640 false false false 640)
             [blank 400 300; blank 400 300] in
  exists new,
    calls (snd (Apply nearest_resample keep_batch (@length FDMat) w)) = calls w ++ new
    /\ (forall i rw rh, In (CallResize i rw rh) new -> rw = 960 /\ rh = 736)
    /\ (forall i t b l r v, In (CallPad i t b l r v) new ->
          t = 0 /\ b = 0 /\ l = 0 /\ r = 0).
Proof.
  apply (equal_sizes_never_padded nearest_resample keep_batch (@length FDMat)
           (world_of (config_960_640 false false false 640)
              [blank 400 300; blank 400 300]) 400 300).
  - reflexivity.
  - intros mat M. cbn [world_of mats] in M.
    apply elem_of_cons in M as [-> | M]; [split; reflexivity |].
    apply elem_of_cons in M as [-> | M]; [split; reflexivity |].
    inversion M.
Defined.

Lemma Apply_leaves_last_parameters_witness :
  let w := world_of (config_960_640 false false false 640)
             [blank 400 300; blank 3000 2000] in
  let after := self (snd (Apply nearest_resample keep_batch (@length FDMat) w)) in
  resize_op_ after = {| width_ := 3008; height_ := 2016 |}
  /\ pad_op_ after
     = {| top_ := 0; bottom_ := 0; left_ := 0; right_ := 0; value_ := zero3 |}.
Proof.
  pose proof (Apply_leaves_last_parameters nearest_resample keep_batch (@length FDMat)
                (world_of (config_960_640 false false false 640)
                   [blank 400 300; blank 3000 2000])
                [blank 400 300] (blank 3000 2000) eq_refl)
    as (_ & _ & _ & _ & R & P).
  split; [exact R | exact P].
Defined.

Lemma Apply_ignores_stale_parameters_witness :
  let cfg := config_960_640 false false false 640 in
  let batch := [blank 400 300; blank 3000 2000] in
  let w := world_of cfg batch in
  let w' := {| self := {| config := cfg;
                          resize_op_ := {| width_ := 7; height_ := 9 |};
                          pad_op_ := {| top_ := 1; bottom_ := 2; left_ := 3; right_ := 4;
                                        value_ := zero3 |};
                          normalize_permute_op_ :=
                            normalize_permute_op_ (DBDetectorPreprocessor_new cfg);
                          batch_det_img_info_ := [(1, 2, 3, 4)] |};
               mats := batch; calls := [] |} in
  let r := Apply nearest_resample keep_batch (@length FDMat) w in
  let r' := Apply nearest_resample keep_batch (@length FDMat) w' in
  fst r = fst r' /\ mats (snd r) = mats (snd r') /\ calls (snd r) = calls (snd r')
  /\ batch_det_img_info_ (self (snd r)) = batch_det_img_info_ (self (snd r')).
Proof.
  exact (Apply_ignores_stale_parameters nearest_resample keep_batch (@length FDMat)
           (world_of (config_960_640 false false false 640)
              [blank 400 300; blank 3000 2000])
           {| self := {| config := config_960_640 false false false 640;
                         resize_op_ := {| width_ := 7; height_ := 9 |};
                         pad_op_ := {| top_ := 1; bottom_ := 2; left_ := 3; right_ := 4;
                                       value_ := zero3 |};
                         normalize_permute_op_ :=
                           normalize_permute_op_
                             (DBDetectorPreprocessor_new
                                (config_960_640 false false false 640));
                         batch_det_img_info_ := [(1, 2, 3, 4)] |};
              mats := [blank 400 300; blank 3000 2000]; calls := [] |}
           eq_refl eq_refl eq_refl eq_refl eq_refl).
Defined.

(** ** [GetStride] *)

Module Int64Facts.
Import Int64.

Lemma wrap64_id (z : Z) : min_int <= z <= max_int -> wrap z = z.
Proof.
  unfold min_int, max_int, wrap. intros R.
  rewrite Z.mod_small by lia. lia.
Qed.

Lemma wrap64_mul_l (a b : Z) : wrap (wrap a * b) = wrap (a * b).
Proof.
  unfold wrap. f_equal.
  set (M := 18446744073709551616). set (H := 9223372036854775808).
  pose proof (Z.div_mod (a + H) M ltac:(unfold M; lia)) as E.
  replace (((a + H) mod M - H) * b + H) with (a * b + H + (- ((a + H) / M) * b) * M) by lia.
  apply Z_mod_plus_full.
Qed.

Lemma mul64_checked_in_range (a b : Z) :
  min_int <= a * b <= max_int -> mul_checked a b = Some (a * b).
Proof.
  intros R. unfold mul_checked, in_rangeb.
  replace (min_int <=? a * b) with true by (symmetry; apply Z.leb_le; lia).
  replace (a * b <=? max_int) with true by (symmetry; apply Z.leb_le; lia).
  reflexivity.
Qed.

End Int64Facts.

Lemma product_cons (d : Z) (l : list Z) : product (d :: l) = d * product l.
Proof. reflexivity. Qed.

Lemma GetStride_first_small (n : nat) :
  Z.of_nat n - 2 <= Int32.max_int -> GetStride_first n = Z.of_nat n - 2.
Proof.
  intros H. unfold GetStride_first. apply Int32Facts.wrap_id.
  unfold Int32.min_int, Int32.max_int in *. lia.
Qed.

(** The loop keeps the length and, once the entries from [k] on are the
    wrapped products of the dimensions after them, makes all entries so. *)
Lemma GetStride_loop_spec (dims : list Z) (k : nat) (result : list Z) :
  length result = length dims ->
  (k < length dims)%nat ->
  (forall j, (k <= j < length dims)%nat ->
     result !! j = Some (Int64.wrap (product (drop (S j) dims)))) ->
  length (GetStride_loop dims k result) = length dims
  /\ forall j, (j < length dims)%nat ->
       GetStride_loop dims k result !! j = Some (Int64.wrap (product (drop (S j) dims))).
Proof.
  revert result. induction k as [| i IH]; intros result L K H.
  - cbn [GetStride_loop]. split; [exact L |]. intros j J. apply H. lia.
  - cbn [GetStride_loop].
    destruct (lookup_lt_is_Some_2 dims (S i) K) as [d D].
    rewrite (H (S i) ltac:(lia)), D. cbn [default].
    apply IH.
    + rewrite length_insert. exact L.
    + lia.
    + intros j J. destruct (Nat.eq_dec j i) as [-> | N].
      * rewrite list_lookup_insert_eq by lia. f_equal.
        rewrite (drop_S dims d (S i) D), product_cons.
        unfold Int64.mul, id. rewrite Int64Facts.wrap64_mul_l. f_equal. lia.
      * rewrite list_lookup_insert_ne by lia. apply H. lia.
Qed.

Lemma GetStride_spec (dims : list Z) :
  Z.of_nat (length dims) - 2 <= Int32.max_int ->
  length (GetStride dims) = length dims
  /\ forall j, (j < length dims)%nat ->
       GetStride dims !! j = Some (Int64.wrap (product (drop (S j) dims))).
Proof.
  intros N. unfold GetStride. rewrite GetStride_first_small by exact N.
  destruct dims as [| d0 dims']; [split; [reflexivity | intros j J; cbn in J; lia] |].
  set (dims := d0 :: dims') in *.
  apply GetStride_loop_spec.
  - apply length_replicate.
  - unfold dims. cbn [length]. lia.
  - intros j J. assert (j = length dims') as -> by (unfold dims in J; cbn [length] in J; lia).
    rewrite lookup_replicate_2 by (unfold dims; cbn [length]; lia).
    unfold dims. cbn [drop]. rewrite drop_all. reflexivity.
Qed.

Lemma suffix_products_length (dims : list Z) :
  length (suffix_products dims) = length dims.
Proof. induction dims as [| d dims IH]; [reflexivity | cbn; f_equal; exact IH]. Qed.

Lemma suffix_products_lookup (dims : list Z) (j : nat) :
  (j < length dims)%nat ->
  suffix_products dims !! j = Some (product (drop (S j) dims)).
Proof.
  revert j. induction dims as [| d dims IH]; intros j J; [cbn in J; lia |].
  destruct j as [| j]; [reflexivity |].
  cbn [suffix_products]. rewrite lookup_cons_ne_0 by lia. cbn [Nat.pred].
  rewrite IH by (cbn in J; lia). reflexivity.
Qed.

Lemma GetStride_loop_checked_spec (dims : list Z) (k : nat) (result : list Z) :
  Forall (fun p => Int64.min_int <= p <= Int64.max_int) (suffix_products dims) ->
  length result = length dims ->
  (k < length dims)%nat ->
  (forall j, (k <= j < length dims)%nat ->
     result !! j = Some (product (drop (S j) dims))) ->
  exists r, GetStride_loop_checked dims k result = Some r
    /\ length r = length dims
    /\ forall j, (j < length dims)%nat -> r !! j = Some (product (drop (S j) dims)).
Proof.
  intros R. revert result. induction k as [| i IH]; intros result L K H.
  - exists result. split; [reflexivity | split; [exact L |]]. intros j J. apply H. lia.
  - cbn [GetStride_loop_checked].
    destruct (lookup_lt_is_Some_2 dims (S i) K) as [d D].
    rewrite (H (S i) ltac:(lia)), D. cbn [mbind option_bind].
    assert (P : product (drop (S i) dims) = product (drop (S (S i)) dims) * d).
    { rewrite (drop_S dims d (S i) D), product_cons. lia. }
    assert (I : Int64.min_int <= product (drop (S i) dims) <= Int64.max_int).
    { rewrite Forall_lookup in R. apply (R i). apply suffix_products_lookup. lia. }
    rewrite Int64Facts.mul64_checked_in_range by (rewrite <- P; exact I).
    cbn [mbind option_bind]. apply IH.
    + rewrite length_insert. exact L.
    + lia.
    + intros j J. destruct (Nat.eq_dec j i) as [-> | N].
      * rewrite list_lookup_insert_eq by lia. f_equal. symmetry. exact P.
      * rewrite list_lookup_insert_ne by lia. apply H. lia.
Qed.

Lemma product_pos (l : list Z) : Forall (fun d => 0 < d) l -> 0 < product l.
Proof.
  induction 1 as [| d l D _ IH]; [reflexivity |]. rewrite product_cons. lia.
Qed.

Lemma product_drop_le (l : list Z) (k : nat) :
  Forall (fun d => 0 < d) l -> 0 < product (drop k l) <= product l.
Proof.
  intros F. revert k. induction F as [| d l D F IH]; intros k.
  - rewrite drop_nil. cbn. lia.
  - destruct k as [| k]; [rewrite drop_0; pose proof (product_pos (d :: l)) as P;
                           split; [apply P; constructor; assumption | lia] |].
    cbn [drop]. rewrite product_cons. specialize (IH k). nia.
Qed.

Lemma suffix_products_in_range (dims : list Z) :
  Forall (fun d => 0 < d) dims -> product dims <= Int64.max_int ->
  Forall (fun p => Int64.min_int <= p <= Int64.max_int) (suffix_products dims).
Proof.
  intros F B. apply Forall_lookup. intros j p L.
  assert (J : (j < length dims)%nat).
  { rewrite <- suffix_products_length. apply lookup_lt_is_Some. eauto. }
  rewrite suffix_products_lookup in L by exact J. injection L as <-.
  pose proof (product_drop_le dims (S j) F). unfold Int64.min_int. lia.
Qed.

Lemma GetStride_exact (dims : list Z) :
  Z.of_nat (length dims) - 2 <= Int32.max_int ->
  Forall (fun p => Int64.min_int <= p <= Int64.max_int) (suffix_products dims) ->
  GetStride_checked dims = Some (suffix_products dims)
  /\ GetStride dims = suffix_products dims.
Proof.
  intros N R. split.
  - unfold GetStride_checked. rewrite GetStride_first_small by exact N.
    destruct dims as [| d0 dims']; [reflexivity |].
    set (dims := d0 :: dims') in *.
    destruct (GetStride_loop_checked_spec dims
                (Z.to_nat (Z.of_nat (length dims) - 2 + 1))
                (replicate (length dims) 1) R) as (r & -> & Lr & Hr).
    + apply length_replicate.
    + unfold dims. cbn [length]. lia.
    + intros j J.
      assert (j = length dims') as -> by (unfold dims in J; cbn [length] in J; lia).
      rewrite lookup_replicate_2 by (unfold dims; cbn [length]; lia).
      unfold dims. cbn [drop]. rewrite drop_all. reflexivity.
    + f_equal. apply list_eq. intros j.
      destruct (Nat.lt_ge_cases j (length dims)) as [J | J].
      * rewrite Hr, suffix_products_lookup by exact J. reflexivity.
      * rewrite !lookup_ge_None_2; [reflexivity | rewrite suffix_products_length; lia | lia].
  - destruct (GetStride_spec dims N) as [L H].
    apply list_eq. intros j.
    destruct (Nat.lt_ge_cases j (length dims)) as [J | J].
    + rewrite H, suffix_products_lookup by exact J. f_equal.
      apply Int64Facts.wrap64_id. rewrite Forall_lookup in R. apply (R j).
      apply suffix_products_lookup. exact J.
    + rewrite !lookup_ge_None_2; [reflexivity | rewrite suffix_products_length; lia | lia].
Qed.

Lemma offset_cons (s i : Z) (strides index : list Z) :
  offset (s :: strides) (i :: index) = i * s + offset strides index.
Proof. reflexivity. Qed.

Lemma offset_range (dims index : list Z) :
  in_bounds dims index ->
  0 <= offset (suffix_products dims) index < product dims.
Proof.
  unfold in_bounds. induction 1 as [| i d index dims B F IH].
  - cbn. lia.
  - cbn [suffix_products]. rewrite offset_cons, product_cons. nia.
Qed.

Lemma offset_injective (dims index index' : list Z) :
  in_bounds dims index -> in_bounds dims index' ->
  offset (suffix_products dims) index = offset (suffix_products dims) index' ->
  index = index'.
Proof.
  unfold in_bounds. intros F. revert index'.
  induction F as [| i d index dims B F IH]; intros index' F' E.
  - inversion F'. reflexivity.
  - inversion F' as [| i' d' index'' dims' B' F'' E1 E2]; subst.
    cbn [suffix_products] in E. rewrite !offset_cons in E.
    pose proof (offset_range dims index F) as R.
    pose proof (offset_range dims index'' F'') as R'.
    assert (i = i') by nia. subst i'.
    f_equal. apply IH; [exact F'' | lia].
Qed.

(** X13.  The strides [GetStride] returns: as many as there are dimensions, each
    the product of the dimensions after it, wrapped to 64 bits; so the
    last stride is 1, and no dimensions give no strides. *)
Theorem GetStride_entries (dims : list Z) :
  Z.of_nat (length dims) - 2 <= Int32.max_int ->
  length (GetStride dims) = length dims
  /\ (forall i, (i < length dims)%nat ->
        GetStride dims !! i = Some (Int64.wrap (product (drop (S i) dims))))
  /\ (dims <> [] -> last (GetStride dims) = Some 1)
  /\ GetStride [] = [].
Proof.
  intros N. destruct (GetStride_spec dims N) as [L H].
  split; [exact L | split; [exact H | split; [| reflexivity]]].
  intros NE. rewrite last_lookup, L.
  destruct dims as [| d dims']; [contradiction |].
  rewrite H by (cbn [length]; lia).
  cbn [length Nat.pred drop]. rewrite drop_all. reflexivity.
Qed.

Lemma GetStride_entries_witness :
  Z.of_nat (length [2; 3; 4]) - 2 <= Int32.max_int
  /\ GetStride [2; 3; 4] = [12; 4; 1]
  /\ length (GetStride [2; 3; 4]) = length [2; 3; 4]
  /\ last (GetStride [2; 3; 4]) = Some 1.
Proof.
  split; [cbn; unfold Int32.max_int; lia |].
  split; [reflexivity |].
  pose proof (GetStride_entries [2; 3; 4]
                ltac:(cbn; unfold Int32.max_int; lia)) as (L & _ & T & _).
  split; [exact L | apply T; discriminate].
Defined.

(** X14.  When every product of trailing dimensions fits in 64 bits, no
    multiplication of [GetStride] overflows and no index leaves the
    vectors, and the strides are these products. *)
Theorem GetStride_without_overflow (dims : list Z) :
  Z.of_nat (length dims) - 2 <= Int32.max_int ->
  Forall (fun p => Int64.min_int <= p <= Int64.max_int) (suffix_products dims) ->
  GetStride_checked dims = Some (suffix_products dims)
  /\ GetStride dims = suffix_products dims.
Proof. intros N R. apply GetStride_exact; assumption. Qed.

Lemma GetStride_without_overflow_witness :
  GetStride_checked [8; -1; 224; 224] = Some [-50176; 50176; 224; 1]
  /\ GetStride [8; -1; 224; 224] = [-50176; 50176; 224; 1].
Proof.
  apply (GetStride_without_overflow [8; -1; 224; 224]).
  - cbn. unfold Int32.max_int. lia.
  - cbn. unfold Int64.min_int, Int64.max_int. repeat constructor; lia.
Defined.

(** X15.  The first dimension is not read: putting a dimension in front of a
    shape puts one stride, the wrapped product of the shape, in front of
    its strides and leaves these as they are. *)
Theorem GetStride_leading_dimension (d : Z) (dims : list Z) :
  Z.of_nat (length dims) - 1 <= Int32.max_int ->
  GetStride (d :: dims) = Int64.wrap (product dims) :: GetStride dims
  /\ forall d', GetStride (d' :: dims) = GetStride (d :: dims).
Proof.
  intros N.
  assert (C : forall x, GetStride (x :: dims) = Int64.wrap (product dims) :: GetStride dims).
  { intros x.
    destruct (GetStride_spec (x :: dims)) as [L H]; [cbn [length]; lia |].
    destruct (GetStride_spec dims) as [L' H']; [lia |].
    apply list_eq. intros j.
    destruct (Nat.lt_ge_cases j (length (x :: dims))) as [J | J].
    - rewrite H by exact J. destruct j as [| j].
      + cbn [drop]. rewrite drop_0. reflexivity.
      + rewrite lookup_cons_ne_0 by lia. cbn [Nat.pred drop].
        rewrite H' by (cbn [length] in J; lia). reflexivity.
    - rewrite !lookup_ge_None_2; [reflexivity | cbn [length] in *; lia | lia]. }
  split; [apply C |]. intros d'. rewrite !C. reflexivity.
Qed.

Lemma GetStride_leading_dimension_witness :
  GetStride [7; 3; 4] = Int64.wrap (product [3; 4]) :: GetStride [3; 4]
  /\ forall d', GetStride [d'; 3; 4] = GetStride [7; 3; 4].
Proof.
  apply (GetStride_leading_dimension 7 [3; 4]). cbn. unfold Int32.max_int. lia.
Defined.

(** X16.  With the strides of [GetStride], the elements of a tensor whose number
    fits in 64 bits lie at different offsets, all below the number of
    elements: the offset of an index within the dimensions is in range and
    two such indices with the same offset are the same. *)
Theorem GetStride_offsets (dims index index' : list Z) :
  Z.of_nat (length dims) - 2 <= Int32.max_int ->
  product dims <= Int64.max_int ->
  in_bounds dims index -> in_bounds dims index' ->
  0 <= offset (GetStride dims) index < product dims
  /\ (offset (GetStride dims) index = offset (GetStride dims) index' -> index = index').
Proof.
  intros N P B B'.
  assert (F : Forall (fun d => 0 < d) dims).
  { clear - B. unfold in_bounds in B. induction B; constructor; [lia | assumption]. }
  destruct (GetStride_exact dims N (suffix_products_in_range dims F P)) as [_ ->].
  split; [apply offset_range; exact B | apply offset_injective; assumption].
Qed.

Lemma GetStride_offsets_witness :
  0 <= offset (GetStride [2; 3; 4]) [1; 2; 3] < product [2; 3; 4]
  /\ (offset (GetStride [2; 3; 4]) [1; 2; 3] = offset (GetStride [2; 3; 4]) [1; 0; 3]
      -> [1; 2; 3] = [1; 0; 3]).
Proof.
  apply (GetStride_offsets [2; 3; 4] [1; 2; 3] [1; 0; 3]).
  - cbn. unfold Int32.max_int. lia.
  - cbn. unfold Int64.max_int. lia.
  - unfold in_bounds. repeat constructor; lia.
  - unfold in_bounds. repeat constructor; lia.
Defined.

(** ** The logger *)

Lemma FDLogger_flush_quiet (android : bool) (l : FDLogger) (out : LogOutput) :
  verbose_ l = false -> FDLogger_flush android l out = (l, out).
Proof. intros V. unfold FDLogger_flush. rewrite V. reflexivity. Qed.

(** X17.  A logger that is not verbose never writes: however often it is
    flushed, [std::cout] and the Android log stay as they are, and the
    line it holds is not cleared. *)
Theorem quiet_logger_never_writes (android : bool) (l : FDLogger) (out : LogOutput)
  (n : nat) :
  verbose_ l = false ->
  Nat.iter n (fun s => FDLogger_flush android (fst s) (snd s)) (l, out) = (l, out).
Proof.
  intros V. induction n as [| n IH]; [reflexivity |].
  rewrite Nat.iter_succ, IH. cbn [fst snd]. apply FDLogger_flush_quiet, V.
Qed.

Lemma quiet_logger_never_writes_witness :
  let l := {| verbose_ := false; line_ := [Byte.x68; Byte.x69]; prefix_ := [Byte.x21] |} in
  let out := {| cout := []; android_log := [] |} in
  Nat.iter 3 (fun s => FDLogger_flush true (fst s) (snd s)) (l, out) = (l, out).
Proof.
  apply (quiet_logger_never_writes true
           {| verbose_ := false; line_ := [Byte.x68; Byte.x69]; prefix_ := [Byte.x21] |}
           {| cout := []; android_log := [] |} 3).
  reflexivity.
Defined.

(** X18.  A verbose logger that is flushed [n + 1] times in a row appends to
    [std::cout] its prefix, a space, its line and a newline, and then [n]
    times the prefix, a space and a newline: the line is written once and
    is empty afterwards; what was on [std::cout] before stays in front. *)
Theorem verbose_logger_flushes (android : bool) (l : FDLogger) (out : LogOutput)
  (n : nat) :
  verbose_ l = true ->
  let s := Nat.iter (S n) (fun s => FDLogger_flush android (fst s) (snd s)) (l, out) in
  fst s = {| verbose_ := true; line_ := []; prefix_ := prefix_ l |}
  /\ cout (snd s)
     = cout out ++ (prefix_ l ++ [Byte.x20] ++ line_ l ++ [Byte.x0a])
       ++ concat (replicate n (prefix_ l ++ [Byte.x20; Byte.x0a]))
  /\ length (android_log (snd s))
     = (length (android_log out) + if android then S n else 0)%nat.
Proof.
  intros V. cbv zeta. induction n as [| n IH].
  - rewrite Nat.iter_succ. cbn [Nat.iter nat_rect fst snd]. unfold FDLogger_flush. rewrite V.
    cbn [negb fst snd cout android_log replicate concat].
    rewrite app_nil_r. split; [reflexivity | split; [reflexivity |]].
    destruct android; [rewrite length_app; cbn [length]; lia | lia].
  - destruct IH as (F & C & A).
    set (s := Nat.iter (S n) _ _) in *.
    rewrite Nat.iter_succ. fold s.
    unfold FDLogger_flush. rewrite F.
    cbn [negb verbose_ prefix_ line_ fst snd cout android_log].
    split; [reflexivity | split].
    + rewrite C. replace (S n) with (n + 1)%nat by lia.
      rewrite replicate_add, concat_app. cbn [replicate concat app].
      rewrite app_nil_r, <- !app_assoc. reflexivity.
    + destruct android; [rewrite length_app, A; cbn [length]; lia | rewrite A; lia].
Qed.

Lemma verbose_logger_flushes_witness :
  let l := FDLogger_new false true [Byte.x21] in
  let out := {| cout := [Byte.x3e]; android_log := [] |} in
  let s := Nat.iter 2 (fun s => FDLogger_flush false (fst s) (snd s)) (l, out) in
  verbose_ l = true
  /\ cout (snd s) = [Byte.x3e; Byte.x21; Byte.x20; Byte.x0a; Byte.x21; Byte.x20; Byte.x0a].
Proof.
  split; [reflexivity |].
  exact (proj1 (proj2 (verbose_logger_flushes false (FDLogger_new false true [Byte.x21])
                         {| cout := [Byte.x3e]; android_log := [] |} 1 eq_refl))).
Defined.

(** ** [ReadBinaryFromFile] *)



Section ReadBinaryFromFileFacts.

Variable open_ate : text -> option IfStream.


(** X20.  A file whose position can be told and that was opened at its end is
    read whole: the string ends up holding exactly the bytes of the file. *)
Theorem ReadBinaryFromFile_whole_file (path old : text) (file : IfStream) :
  open_ate path = Some file ->
  failbit file = false -> seekable file = true -> pos file = length (data file) ->
  ReadBinaryFromFile open_ate path (Some old) = (true, Some (data file)).
Proof.
  intros O F K P. unfold ReadBinaryFromFile, to_osstring. rewrite O.
  unfold tellg. rewrite F, K. cbn [orb negb].
  replace (Z.of_nat (pos file) =? -1) with false by (symmetry; apply Z.eqb_neq; lia).
  cbn [negb]. rewrite Nat2Z.id.
  unfold seekg_beg. rewrite F, K. unfold read. cbn [failbit pos data].
  rewrite drop_0, P, take_ge by lia. rewrite drop_ge by (rewrite length_replicate; lia).
  rewrite app_nil_r. reflexivity.
Qed.


End ReadBinaryFromFileFacts.

Lemma ReadBinaryFromFile_whole_file_witness :
  let file := {| data := [Byte.x41; Byte.x42; Byte.x43]; pos := 3;
                 failbit := false; seekable := true |} in
  ReadBinaryFromFile (fun _ => Some file) [Byte.x2f] (Some [Byte.x00])
  = (true, Some [Byte.x41; Byte.x42; Byte.x43]).
Proof.
  exact (ReadBinaryFromFile_whole_file
           (fun _ => Some {| data := [Byte.x41; Byte.x42; Byte.x43]; pos := 3;
                             failbit := false; seekable := true |})
           [Byte.x2f] [Byte.x00]
           {| data := [Byte.x41; Byte.x42; Byte.x43]; pos := 3;
              failbit := false; seekable := true |}
           eq_refl eq_refl eq_refl eq_refl).
Defined.

